(** * IPv6 checker: address codec, CIDR ranges, overlap engine and caches

    A shallow embedding of [src/js/core/overlap-engine.js] (classes
    [OverlapEngine], [IPv6Utils] and [ValidationEngine]) and of the
    suggestion of [src/js/features/overlap-checker.js], together with
    the properties that the specification states about the code and
    further properties of the code.

    Conventions of the embedding.
    - A JavaScript [BigInt] is a [Z].
    - A JavaScript string is the sequence of its UTF-16 code units; the
      embedding covers the strings whose code units are below 256, one
      [ascii] per code unit (every text the codec accepts is of that kind).
    - A function that may [throw] returns an [option]; [None] is the
      exception.  A function that catches its own exceptions is total.
    - [Date.now()] and the other clock readings are explicit arguments.
    - The memoising wrappers ([expandAddress], [compressAddress],
      [ipv6ToBigInt], [bigIntToIPv6], [validateIPv6], [getNetworkInfo],
      [checkOverlapAdvanced]) store values of pure functions under keys
      that determine the function and its argument, so each wrapper is
      embedded as the function it memoises; the caches themselves are
      embedded as explicit states ([IPv6Utils.setToCache],
      [OverlapEngine.setToCache] and their companions). *)

From Stdlib Require Import ZArith NArith QArith Qround Lia List Bool Ascii String.
From Stdlib Require Import Permutation Sorted.
From Stdlib Require DecimalString HexadecimalString.
From Stdlib Require HexadecimalFacts HexadecimalPos HexadecimalN.
Import ListNotations.

Local Open Scope string_scope.
Local Open Scope list_scope.
Local Open Scope Z_scope.

Infix "+++" := String.append (at level 60, right associativity).

(** ** JavaScript string primitives used by the source *)

Module JS.

Definition code (c : ascii) : nat := nat_of_ascii c.

Definition between (lo hi : nat) (c : ascii) : bool :=
  (Nat.leb lo (code c) && Nat.leb (code c) hi)%bool.

(** [\d] and [[0-9]] *)
Definition is_digit (c : ascii) : bool := between 48 57 c.

(** [[0-9a-fA-F]] *)
Definition is_hex (c : ascii) : bool :=
  (is_digit c || between 97 102 c || between 65 70 c)%bool.

(** The [WhiteSpace] and [LineTerminator] code units below 256: TAB, LF,
    VT, FF, CR, SP and NBSP. *)
Definition is_space (c : ascii) : bool :=
  (between 9 13 c || Nat.eqb (code c) 32 || Nat.eqb (code c) 160)%bool.

(** The line terminators below 256, which [.] does not match. *)
Definition is_line_terminator (c : ascii) : bool :=
  (Nat.eqb (code c) 10 || Nat.eqb (code c) 13)%bool.

Fixpoint all (p : ascii -> bool) (s : string) : bool :=
  match s with
  | EmptyString => true
  | String c r => (p c && all p r)%bool
  end.

Definition is_empty (s : string) : bool :=
  match s with EmptyString => true | String _ _ => false end.

(** [s.includes(sub)] *)
Fixpoint includes (sub s : string) : bool :=
  (String.prefix sub s ||
   match s with
   | EmptyString => false
   | String _ r => includes sub r
   end)%bool.

Definition cons_head (c : ascii) (l : list string) : list string :=
  match l with
  | [] => [String c EmptyString]
  | g :: gs => String c g :: gs
  end.

(** [s.split(sep)] for a separator of one code unit. *)
Fixpoint split1 (sep : ascii) (s : string) : list string :=
  match s with
  | EmptyString => [EmptyString]
  | String c r =>
      if Ascii.eqb c sep then EmptyString :: split1 sep r
      else cons_head c (split1 sep r)
  end.

(** [s.split('::')]: the separators are the occurrences of "::" found
    from left to right without overlap. *)
Fixpoint split_dcolon (s : string) : list string :=
  match s with
  | EmptyString => [EmptyString]
  | String c r =>
      match r with
      | EmptyString => [String c EmptyString]
      | String c' r' =>
          if (Ascii.eqb c ":" && Ascii.eqb c' ":")%bool
          then EmptyString :: split_dcolon r'
          else cons_head c (split_dcolon r)
      end
  end.

(** [(s.match(/::/g) || []).length] *)
Fixpoint count_dcolon (s : string) : nat :=
  match s with
  | EmptyString => O
  | String c r =>
      match r with
      | EmptyString => O
      | String c' r' =>
          if (Ascii.eqb c ":" && Ascii.eqb c' ":")%bool
          then S (count_dcolon r')
          else count_dcolon r
      end
  end.

(** [l.join(sep)] *)
Definition join (sep : string) (l : list string) : string := String.concat sep l.

Fixpoint repeat_unit (c : ascii) (n : nat) : string :=
  match n with
  | O => EmptyString
  | S k => String c (repeat_unit c k)
  end.

(** [s.padStart(n, c)] for a filler of one code unit. *)
Definition padStart (n : nat) (c : ascii) (s : string) : string :=
  repeat_unit c (n - String.length s) +++ s.

(** [s.replace(/^0+/, '')] *)
Fixpoint drop_leading_zeros (s : string) : string :=
  match s with
  | EmptyString => EmptyString
  | String c r => if Ascii.eqb c "0" then drop_leading_zeros r else s
  end.

Fixpoint drop_last_if (x : ascii) (s : string) : string :=
  match s with
  | EmptyString => EmptyString
  | String c r =>
      match r with
      | EmptyString => if Ascii.eqb c x then EmptyString else s
      | String _ _ => String c (drop_last_if x r)
      end
  end.

(** [s.replace(/^\[|\]$/g, '')]: an opening bracket at the start and a
    closing bracket at the end are removed. *)
Definition strip_brackets (s : string) : string :=
  match s with
  | EmptyString => EmptyString
  | String c r => if Ascii.eqb c "[" then drop_last_if "]" r else drop_last_if "]" s
  end.

(** [s.replace(/:/g, '')] *)
Fixpoint remove_colons (s : string) : string :=
  match s with
  | EmptyString => EmptyString
  | String c r => if Ascii.eqb c ":" then remove_colons r else String c (remove_colons r)
  end.

Fixpoint trimStart (s : string) : string :=
  match s with
  | EmptyString => EmptyString
  | String c r => if is_space c then trimStart r else s
  end.

Fixpoint trimEnd (s : string) : string :=
  match s with
  | EmptyString => EmptyString
  | String c r =>
      let r' := trimEnd r in
      if (is_space c && is_empty r')%bool then EmptyString else String c r'
  end.

(** [s.trim()] *)
Definition trim (s : string) : string := trimEnd (trimStart s).

(** Cut [s] at its last occurrence of [sep]. *)
Fixpoint split_last (sep : ascii) (s : string) : option (string * string) :=
  match s with
  | EmptyString => None
  | String c r =>
      match split_last sep r with
      | Some (a, b) => Some (String c a, b)
      | None => if Ascii.eqb c sep then Some (EmptyString, r) else None
      end
  end.

(** Cut [s] at its last occurrence of [sep] that is followed by at least
    one code unit. *)
Fixpoint split_last_before_nonempty (sep : ascii) (s : string) : option (string * string) :=
  match s with
  | EmptyString => None
  | String c r =>
      match split_last_before_nonempty sep r with
      | Some (a, b) => Some (String c a, b)
      | None => if (Ascii.eqb c sep && negb (is_empty r))%bool
                then Some (EmptyString, r) else None
      end
  end.

Definition no_line_terminator (s : string) : bool :=
  all (fun c => negb (is_line_terminator c)) s.

Definition digit_value (c : ascii) : Z := Z.of_nat (code c) - 48.

Definition hex_value (c : ascii) : Z :=
  if is_digit c then Z.of_nat (code c) - 48
  else if between 97 102 c then Z.of_nat (code c) - 87
  else Z.of_nat (code c) - 55.

(** The value of the longest prefix of [s] made of digits of the radix,
    [acc] being the value read so far ([None]: no digit yet). *)
Fixpoint read_digits (ok : ascii -> bool) (val : ascii -> Z) (radix : Z)
  (acc : option Z) (s : string) : option Z :=
  match s with
  | EmptyString => acc
  | String c r =>
      if ok c
      then read_digits ok val radix
             (Some (radix * match acc with Some a => a | None => 0 end + val c)) r
      else acc
  end.

Definition read_sign (s : string) : bool * string :=
  match s with
  | EmptyString => (false, s)
  | String c r =>
      if Ascii.eqb c "-" then (true, r)
      else if Ascii.eqb c "+" then (false, r)
      else (false, s)
  end.

Definition apply_sign (neg : bool) (v : option Z) : option Z :=
  option_map (fun x => if neg then - x else x) v.

(** [parseInt(s, 10)]; [None] is [NaN].  The value is exact below 2^53. *)
Definition parseInt10 (s : string) : option Z :=
  let '(neg, body) := read_sign (trimStart s) in
  apply_sign neg (read_digits is_digit digit_value 10 None body).

(** [parseInt(s)]: as above, except that a body starting with "0x" or
    "0X" is read in radix 16. *)
Definition parseInt (s : string) : option Z :=
  let '(neg, body) := read_sign (trimStart s) in
  match body with
  | String c0 (String c1 r) =>
      if (Ascii.eqb c0 "0" && (Ascii.eqb c1 "x" || Ascii.eqb c1 "X"))%bool
      then apply_sign neg (read_digits is_hex hex_value 16 None r)
      else apply_sign neg (read_digits is_digit digit_value 10 None body)
  | _ => apply_sign neg (read_digits is_digit digit_value 10 None body)
  end.

(** [parseInt] of a value that may be [undefined]. *)
Definition parseInt10_opt (s : option string) : option Z :=
  match s with Some x => parseInt10 x | None => None end.

Definition parseInt_opt (s : option string) : option Z :=
  match s with Some x => parseInt x | None => None end.

Fixpoint hex_digits_value (acc : Z) (s : string) : Z :=
  match s with
  | EmptyString => acc
  | String c r => hex_digits_value (16 * acc + hex_value c) r
  end.

(** [BigInt('0x' + s)]: white space after the digits is ignored, and
    anything else than one or more hexadecimal digits is a SyntaxError. *)
Definition BigInt_of_hex (s : string) : option Z :=
  let body := trimEnd s in
  if (negb (is_empty body) && all is_hex body)%bool
  then Some (hex_digits_value 0 body)
  else None.

(** [n.toString(16)] of a BigInt. *)
Definition toString16 (n : Z) : string :=
  let digits := HexadecimalString.NilZero.string_of_uint (N.to_hex_uint (Z.to_N (Z.abs n))) in
  if n <? 0 then String "-" digits else digits.

(** [String(n)] of an integer. *)
Definition toString10 (n : Z) : string :=
  DecimalString.NilZero.string_of_int (Z.to_int n).

(** [s.match(/.{4}/g)] on a text without line terminators: the successive
    blocks of four code units, an incomplete last block being left out. *)
Fixpoint chunks4 (s : string) : list string :=
  match s with
  | String a (String b (String c (String d r))) =>
      String a (String b (String c (String d EmptyString))) :: chunks4 r
  | _ => []
  end.

Definition to_lower_unit (c : ascii) : ascii :=
  if (between 65 90 c || (between 192 222 c && negb (Nat.eqb (code c) 215)))%bool
  then ascii_of_nat (code c + 32) else c.

(** [s.toLowerCase()] on code units below 256. *)
Fixpoint toLowerCase (s : string) : string :=
  match s with
  | EmptyString => EmptyString
  | String c r => String (to_lower_unit c) (toLowerCase r)
  end.

(** [Math.round] on exact rationals: the nearest integer, a tie going up. *)
Definition Math_round (x : Q) : Z := Qfloor (x + (1 # 2)).

(** A [Map] from strings: the entries in insertion order, no key twice. *)
Definition Map (V : Type) : Type := list (string * V).

Definition Map_has {V} (key : string) (m : Map V) : bool :=
  existsb (fun e => String.eqb (fst e) key) m.

Definition Map_get {V} (key : string) (m : Map V) : option V :=
  option_map snd (find (fun e => String.eqb (fst e) key) m).

Definition Map_delete {V} (key : string) (m : Map V) : Map V :=
  filter (fun e => negb (String.eqb (fst e) key)) m.

(** [m.set(key, v)]: a present key keeps its place, a new one goes last. *)
Definition Map_set {V} (key : string) (v : V) (m : Map V) : Map V :=
  if Map_has key m
  then map (fun e => if String.eqb (fst e) key then (key, v) else e) m
  else m ++ [(key, v)].

(** The entry that a cache stores: [{ value, timestamp }]. *)
Record CacheItem (V : Type) := { value : V; timestamp : Z }.
Arguments value {V} _.
Arguments timestamp {V} _.

(** [l.sort((a, b) => key(a) - key(b))]: the sort is stable. *)
Fixpoint insert_by {A} (key : A -> Z) (x : A) (l : list A) : list A :=
  match l with
  | [] => [x]
  | y :: r => if key x <=? key y then x :: y :: r else y :: insert_by key x r
  end.

Definition sort_by {A} (key : A -> Z) (l : list A) : list A :=
  fold_right (insert_by key) [] l.

End JS.

(** ** Class [IPv6Utils]: the address codec and the network calculator *)

Module IPv6Utils.
Import JS.

(** [patterns.HEX_GROUP]: one to four hexadecimal digits. *)
Definition HEX_GROUP (g : string) : bool :=
  (Nat.leb 1 (String.length g) && Nat.leb (String.length g) 4 && all is_hex g)%bool.

(** [p ? p.split(':').filter(g => g !== '') : []], where [p] is an element
    of an array and [undefined] when the array is too short. *)
Definition groups_of (part : option string) : list string :=
  match part with
  | None => []
  | Some p =>
      if is_empty p then []
      else filter (fun g => negb (is_empty g)) (split1 ":" p)
  end.

Definition validateCompressedFormat (address : string) : bool :=
  let parts := split_dcolon address in
  if negb (Nat.eqb (List.length parts) 2) then false
  else
    let before := groups_of (nth_error parts 0) in
    let after := groups_of (nth_error parts 1) in
    if Nat.ltb 8 (List.length before + List.length after) then false
    else forallb HEX_GROUP (before ++ after).

Definition validateFullFormat (address : string) : bool :=
  let groups := split1 ":" address in
  if negb (Nat.eqb (List.length groups) 8) then false
  else forallb HEX_GROUP groups.

Definition isValidFormat (address : string) : bool :=
  if is_empty address then false
  else if negb (all (fun c => (is_hex c || Ascii.eqb c ":")%bool) address) then false
  else if Nat.ltb 1 (count_dcolon address) then false
  else if includes ":::" address then false
  else if includes "::" address then validateCompressedFormat address
  else validateFullFormat address.

(** [performExpansion]; [None] when it throws. *)
Definition performExpansion (address : string) : option string :=
  let addr := strip_brackets address in
  if negb (includes "::" addr) then
    let groups := split1 ":" addr in
    if negb (Nat.eqb (List.length groups) 8) then None
    else Some (join ":" (map (padStart 4 "0") groups))
  else
    let parts := split_dcolon addr in
    let before := groups_of (nth_error parts 0) in
    let after := groups_of (nth_error parts 1) in
    let missingGroups := 8 - Z.of_nat (List.length before + List.length after) in
    if missingGroups <? 0 then None
    else
      let zeros := repeat "0000" (Z.to_nat missingGroups) in
      let allGroups := before ++ zeros ++ after in
      if forallb HEX_GROUP allGroups
      then Some (join ":" (map (padStart 4 "0") allGroups))
      else None.

Definition expandAddress (address : string) : option string :=
  performExpansion address.

(** The four variables of the search for the longest run of zero groups. *)
Record RunState := {
  bestStart : Z;
  bestLength : Z;
  currentStart : Z;
  currentLength : Z
}.

Definition run_init : RunState :=
  {| bestStart := -1; bestLength := 0; currentStart := -1; currentLength := 0 |}.

(** The update of the best run by the current one. *)
Definition run_commit (st : RunState) : RunState :=
  if currentLength st >? bestLength st
  then {| bestStart := currentStart st; bestLength := currentLength st;
          currentStart := currentStart st; currentLength := currentLength st |}
  else st.

(** [groups[i] === '0000'], [groups[i]] being [undefined] past the end. *)
Definition is_zero_group (g : option string) : bool :=
  match g with
  | Some x => String.eqb x "0000"
  | None => false
  end.

(** One turn of the loop [for (let i = 0; i < 8; i++)]. *)
Definition run_step (groups : list string) (st : RunState) (i : nat) : RunState :=
  if is_zero_group (nth_error groups i) then
    {| bestStart := bestStart st; bestLength := bestLength st;
       currentStart := if currentStart st =? -1 then Z.of_nat i else currentStart st;
       currentLength := currentLength st + 1 |}
  else
    let st' := run_commit st in
    {| bestStart := bestStart st'; bestLength := bestLength st';
       currentStart := -1; currentLength := 0 |}.

(** The loop followed by the check of the final run. *)
Definition longest_zero_run (groups : list string) : RunState :=
  run_commit (fold_left (run_step groups) (seq 0 8) run_init).

(** [g.replace(/^0+/, '') || '0'] *)
Definition strip_group (g : string) : string :=
  let r := drop_leading_zeros g in
  if is_empty r then "0" else r.

(** The index that [Array.prototype.slice] makes of an integer argument. *)
Definition slice_index {A} (l : list A) (i : Z) : nat :=
  if i <? 0 then Z.to_nat (Z.max 0 (Z.of_nat (List.length l) + i)) else Z.to_nat i.

(** [l.slice(0, e)] *)
Definition slice_to {A} (e : Z) (l : list A) : list A := firstn (slice_index l e) l.

(** [l.slice(b)] *)
Definition slice_from {A} (b : Z) (l : list A) : list A := skipn (slice_index l b) l.

Definition is_nil {A} (l : list A) : bool :=
  match l with [] => true | _ :: _ => false end.

(** [performCompression]; the [catch] returns the argument. *)
Definition performCompression (address : string) : string :=
  match expandAddress address with
  | None => address
  | Some expanded =>
      let groups := split1 ":" expanded in
      let st := longest_zero_run groups in
      if bestLength st <? 2 then join ":" (map strip_group groups)
      else
        let before := map strip_group (slice_to (bestStart st) groups) in
        let after := map strip_group (slice_from (bestStart st + bestLength st) groups) in
        if (is_nil before && is_nil after)%bool then "::"
        else if is_nil before then "::" +++ join ":" after
        else if is_nil after then join ":" before +++ "::"
        else join ":" before +++ "::" +++ join ":" after
  end.

Definition compressAddress (address : string) : string :=
  performCompression address.

Definition getAddressType (address : string) : string :=
  match expandAddress address with
  | None => "Unknown"
  | Some expanded =>
      if String.eqb expanded "0000:0000:0000:0000:0000:0000:0000:0001" then "Loopback"
      else if String.eqb expanded "0000:0000:0000:0000:0000:0000:0000:0000" then "Unspecified"
      else if String.prefix "fe80:" expanded then "Link-Local"
      else if String.prefix "ff" expanded then "Multicast"
      else if (String.prefix "fc" expanded || String.prefix "fd" expanded)%bool then "Unique Local"
      else if String.prefix "2001:0db8:" expanded then "Documentation"
      else if String.prefix "2001:0000:" expanded then "Teredo"
      else if String.prefix "2002:" expanded then "6to4"
      else "Global Unicast"
  end.

Definition getMulticastScope (address : string) : string :=
  match expandAddress address with
  | None => "Unknown"
  | Some expanded =>
      match String.get 3 expanded with
      | Some c =>
          if Ascii.eqb c "0" then "Reserved"
          else if Ascii.eqb c "1" then "Interface-Local"
          else if Ascii.eqb c "2" then "Link-Local"
          else if Ascii.eqb c "3" then "Reserved"
          else if Ascii.eqb c "4" then "Admin-Local"
          else if Ascii.eqb c "5" then "Site-Local"
          else if Ascii.eqb c "8" then "Organization-Local"
          else if Ascii.eqb c "e" then "Global"
          else "Unknown"
      | None => "Unknown"
      end
  end.

Definition getAddressScope (address : string) : string :=
  let type := getAddressType address in
  if String.eqb type "Loopback" then "Host"
  else if String.eqb type "Unspecified" then "None"
  else if String.eqb type "Link-Local" then "Link"
  else if String.eqb type "Multicast" then getMulticastScope address
  else if String.eqb type "Unique Local" then "Organization"
  else if String.eqb type "Documentation" then "Documentation"
  else if String.eqb type "Teredo" then "Global"
  else if String.eqb type "6to4" then "Global"
  else if String.eqb type "Global Unicast" then "Global"
  else "Unknown".

(** The object that [performValidation] returns. *)
Record Validation := {
  original : string;
  cleanAddress : string;
  prefix : option Z;
  zoneId : option string;
  expanded : string;
  compressed : string;
  type : string;
  scope : string
}.

(** What [validateIPv6] returns: [{valid: true, ...}] or
    [{valid: false, error}], the error being one of the three messages of
    the source or the one of a failed expansion. *)
Inductive ValidationError :=
| NotANonEmptyString
| InvalidCidrPrefix
| InvalidFormat
| ExpansionFailed.

Inductive ValidationResult :=
| Valid (v : Validation)
| Invalid (e : ValidationError).

Definition valid (r : ValidationResult) : bool :=
  match r with Valid _ => true | Invalid _ => false end.

(** [address.match(patterns.CIDR)]: the text before the last slash, which
    [.+] must match, and the one to three digits after it. *)
Definition match_CIDR (address : string) : option (string * string) :=
  match split_last "/" address with
  | Some (a, d) =>
      if (negb (is_empty a) && no_line_terminator a &&
          Nat.leb 1 (String.length d) && Nat.leb (String.length d) 3 && all is_digit d)%bool
      then Some (a, d) else None
  | None => None
  end.

(** [address.match(patterns.ZONE_ID)]: the greedy [.+] stops at the last
    percent sign that leaves something after it. *)
Definition match_ZONE_ID (address : string) : option (string * string) :=
  match split_last_before_nonempty "%" address with
  | Some (a, z) =>
      if (negb (is_empty a) && no_line_terminator address)%bool
      then Some (a, z) else None
  | None => None
  end.

Definition prefix_out_of_bounds (prefix : option Z) : bool :=
  match prefix with
  | Some p => ((p <? 0) || (p >? 128))%bool
  | None => false
  end.

(** [performValidation]; a thrown error is an [Invalid] result, which is
    what the [catch] of [validateIPv6] makes of it. *)
Definition performValidation (address : string) : ValidationResult :=
  let cidrMatch := match_CIDR address in
  let cleanAddress := match cidrMatch with Some (a, _) => a | None => address end in
  let prefix := match cidrMatch with Some (_, d) => parseInt10 d | None => None end in
  if prefix_out_of_bounds prefix then Invalid InvalidCidrPrefix
  else
    let zoneMatch := match_ZONE_ID cleanAddress in
    let zoneId := option_map snd zoneMatch in
    let cleanAddress := match zoneMatch with Some (a, _) => a | None => cleanAddress end in
    let cleanAddress := strip_brackets cleanAddress in
    if negb (isValidFormat cleanAddress) then Invalid InvalidFormat
    else
      match expandAddress cleanAddress with
      | None => Invalid ExpansionFailed
      | Some e =>
          Valid {| original := address;
                   cleanAddress := cleanAddress;
                   prefix := prefix;
                   zoneId := zoneId;
                   expanded := e;
                   compressed := compressAddress cleanAddress;
                   type := getAddressType cleanAddress;
                   scope := getAddressScope cleanAddress |}
      end.

(** [validateIPv6] *)
Definition validateIPv6 (address : string) : ValidationResult :=
  if is_empty address then Invalid NotANonEmptyString
  else performValidation (trim address).

(** [ipv6ToBigInt]; [None] when it throws. *)
Definition ipv6ToBigInt (address : string) : option Z :=
  match expandAddress address with
  | None => None
  | Some expanded => BigInt_of_hex (remove_colons expanded)
  end.

(** [bigIntToIPv6] of a BigInt. *)
Definition bigIntToIPv6 (bigIntValue : Z) : string :=
  let hexStr := padStart 32 "0" (toString16 bigIntValue) in
  join ":" (chunks4 hexStr).

(** [calculateNetworkMask]; the argument is a Number, [None] being [NaN],
    of which [BigInt] makes a RangeError. *)
Definition calculateNetworkMask (prefixLength : option Z) : option Z :=
  match prefixLength with
  | None => None
  | Some p =>
      if ((p <? 0) || (p >? 128))%bool then None
      else if p =? 0 then Some 0
      else Some (Z.shiftl (Z.shiftl 1 p - 1) (128 - p))
  end.

(** The object that [getNetworkInfo] returns.  [prefixLen] is its field
    [prefix]; [totalAddresses] is [None] for the fixed text that stands
    for 2^64 addresses or more. *)
Record NetworkInfo := {
  network : string;
  broadcast : string;
  networkBigInt : Z;
  broadcastBigInt : Z;
  prefixLen : Z;
  mask : Z;
  hostBits : Z;
  totalAddresses : option string;
  compressedNetwork : string;
  compressedBroadcast : string
}.

(** [getNetworkInfo]; [None] when it throws. *)
Definition getNetworkInfo (cidr : string) : option NetworkInfo :=
  if negb (valid (validateIPv6 cidr)) then None
  else
    let parts := split1 "/" cidr in
    let address := nth 0 parts EmptyString in
    let prefix := parseInt10_opt (nth_error parts 1) in
    match ipv6ToBigInt address, calculateNetworkMask prefix, prefix with
    | Some ipBigInt, Some mask, Some prefix =>
        let network := Z.land ipBigInt mask in
        let broadcast := network + Z.shiftl 1 (128 - prefix) - 1 in
        let hostBits := 128 - prefix in
        Some {| network := bigIntToIPv6 network;
                broadcast := bigIntToIPv6 broadcast;
                networkBigInt := network;
                broadcastBigInt := broadcast;
                prefixLen := prefix;
                mask := mask;
                hostBits := hostBits;
                totalAddresses :=
                  if hostBits >=? 64 then None
                  else Some (toString10 (Z.shiftl 1 hostBits));
                compressedNetwork := compressAddress (bigIntToIPv6 network);
                compressedBroadcast := compressAddress (bigIntToIPv6 broadcast) |}
    | _, _, _ => None
    end.

(** [isInNetwork]; the [catch] returns [false].  The third argument is a
    Number, [None] being [NaN]. *)
Definition isInNetwork (address networkAddress : string) (prefixLength : option Z) : bool :=
  match ipv6ToBigInt address, ipv6ToBigInt networkAddress,
        calculateNetworkMask prefixLength with
  | Some addrBigInt, Some netBigInt, Some mask =>
      Z.land addrBigInt mask =? Z.land netBigInt mask
  | _, _, _ => false
  end.

(** An entry of [rfcAllocations], without its description. *)
Record Allocation := { allocation_type : string; allocation_rfc : string }.

(** [rfcAllocations], a [Map] in the order of its construction. *)
Definition rfcAllocations : list (string * Allocation) :=
  [("::1/128", {| allocation_type := "Loopback"; allocation_rfc := "RFC 4291" |});
   ("::/128", {| allocation_type := "Unspecified"; allocation_rfc := "RFC 4291" |});
   ("fe80::/10", {| allocation_type := "Link-Local"; allocation_rfc := "RFC 4291" |});
   ("ff00::/8", {| allocation_type := "Multicast"; allocation_rfc := "RFC 4291" |});
   ("fc00::/7", {| allocation_type := "Unique Local"; allocation_rfc := "RFC 4193" |});
   ("2001:db8::/32", {| allocation_type := "Documentation"; allocation_rfc := "RFC 3849" |});
   ("2001::/32", {| allocation_type := "Teredo"; allocation_rfc := "RFC 4380" |});
   ("2002::/16", {| allocation_type := "6to4"; allocation_rfc := "RFC 3056" |});
   ("64:ff9b::/96", {| allocation_type := "IPv4-Embedded"; allocation_rfc := "RFC 6052" |})].

(** The test that the loop of [getRFCInfo] makes on a block. *)
Definition in_block (expandedAddress block : string) : bool :=
  let parts := split1 "/" block in
  isInNetwork expandedAddress (nth 0 parts EmptyString) (parseInt10_opt (nth_error parts 1)).

(** [getRFCInfo]: the first block that has the address, with its entry;
    [None] is [null]. *)
Definition getRFCInfo (expandedAddress : string) : option (string * Allocation) :=
  find (fun entry => in_block expandedAddress (fst entry)) rfcAllocations.

(** *** The cache of [IPv6Utils]

    The cache is passed explicitly; [now] is the reading of [Date.now()]
    that the function makes. *)

Definition CACHE_TTL : Z := 300000.
Definition CACHE_MAX_SIZE : Z := 1000.

Definition Cache (V : Type) : Type := Map (CacheItem V).

Definition size {V} (cache : Cache V) : Z := Z.of_nat (List.length cache).

Definition getFromCache {V} (now : Z) (key : string) (cache : Cache V)
  : option V * Cache V :=
  match Map_get key cache with
  | Some item =>
      if now - timestamp item <? CACHE_TTL then (Some (value item), cache)
      else (None, Map_delete key cache)
  | None => (None, Map_delete key cache)
  end.

Definition cleanExpiredCache {V} (now : Z) (cache : Cache V) : Cache V :=
  let toDelete :=
    map fst (filter (fun e => now - timestamp (snd e) >? CACHE_TTL) cache) in
  fold_left (fun c key => Map_delete key c) toDelete cache.

(** [Math.floor(CACHE_MAX_SIZE * 0.3)]; the product of 1000 by the double
    nearest to 0.3 rounds to the double 300, which is the value here. *)
Definition evictionCount : nat :=
  Z.to_nat (Qfloor (inject_Z CACHE_MAX_SIZE * (3 # 10))).

(** [setToCache]: [nowClean] is the reading made by [cleanExpiredCache],
    [nowWrite] the one stored with the value. *)
Definition setToCache {V} (nowClean nowWrite : Z) (key : string) (v : V)
  (cache : Cache V) : Cache V :=
  let cache :=
    if size cache >=? CACHE_MAX_SIZE then
      let cache := cleanExpiredCache nowClean cache in
      if size cache >=? CACHE_MAX_SIZE then
        let entries := sort_by (fun e => timestamp (snd e)) cache in
        let toRemove := firstn evictionCount entries in
        fold_left (fun c e => Map_delete (fst e) c) toRemove cache
      else cache
    else cache in
  Map_set key {| value := v; timestamp := nowWrite |} cache.

End IPv6Utils.

(** ** Class [OverlapEngine] *)

Module OverlapEngine.
Import JS.

(** [OVERLAP_TYPES] *)
Inductive OverlapType :=
| IDENTICAL
| FIRST_CONTAINS_SECOND
| SECOND_CONTAINS_FIRST
| PARTIAL
| ADJACENT
| NO_OVERLAP.

(** An element of [SEVERITY_LEVELS]. *)
Record Severity := {
  level : Z;
  label : string;
  color : string;
  priority : string
}.

(** The code units U+00ED and U+00E9 of the labels. *)
Definition i_acute : ascii := ascii_of_nat 237.
Definition e_acute : ascii := ascii_of_nat 233.

Definition CRITICAL : Severity :=
  {| level := 4; label := "Cr" +++ String i_acute "tico"; color := "error"; priority := "high" |}.
Definition HIGH : Severity :=
  {| level := 3; label := "Alto"; color := "warning"; priority := "high" |}.
Definition MEDIUM : Severity :=
  {| level := 2; label := "M" +++ String e_acute "dio"; color := "warning"; priority := "medium" |}.
Definition LOW : Severity :=
  {| level := 1; label := "Baixo"; color := "info"; priority := "low" |}.
Definition NONE : Severity :=
  {| level := 0; label := "Sem Conflito"; color := "success"; priority := "none" |}.

Definition SEVERITY_LEVELS : list Severity := [CRITICAL; HIGH; MEDIUM; LOW; NONE].

(** What [validateAndGetNetworkInfo] returns: the network information
    with the fields [original] and [validation] added. *)
Record Network := {
  info : IPv6Utils.NetworkInfo;
  original : string;
  validation : IPv6Utils.Validation
}.

Definition networkBigInt (n : Network) : Z := IPv6Utils.networkBigInt (info n).
Definition broadcastBigInt (n : Network) : Z := IPv6Utils.broadcastBigInt (info n).

(** The six texts of the field [reason] of an analysis; the two about
    containment quote the field [original] of the container and then of
    the contained.  The seventh text is the one that [checkOverlap] has
    for an overlap without a reason. *)
Inductive Reason :=
| ReasonIdentical
| ReasonFirstContainsSecond (first second : string)
| ReasonSecondContainsFirst (second first : string)
| ReasonPartial
| ReasonAdjacent
| ReasonNoOverlap
| ReasonOverlap.

(** [affectedAddresses]: the number that is shown in the locale of the
    host, or the fixed text for more than [Number.MAX_SAFE_INTEGER]. *)
Inductive Affected :=
| MoreThanMaxSafeInteger
| AffectedCount (n : Z).

(** The field [details] of an analysis. *)
Inductive Details :=
| NoOverlapDetails (distance : string) (isAdjacent : bool) (gap : string)
| OverlapDetails (overlapStart overlapEnd overlapSize : string)
    (percentageOverlap : Q) (affectedAddresses : Affected).

(** What [analyzeOverlap] returns. *)
Record Analysis := {
  hasOverlap : bool;
  type : OverlapType;
  severity : Severity;
  reason : Reason;
  confidence : Z;
  details : Details
}.

Definition calculateDistance (start1 end1 start2 end2 : Z) : Z :=
  if end1 <? start2 then start2 - end1 - 1
  else if end2 <? start1 then start1 - end2 - 1
  else 0.

Definition analyzeNoOverlap (network1 network2 : Network) (start1 end1 start2 end2 : Z)
  : Analysis :=
  let isAdjacent := ((end1 + 1 =? start2) || (end2 + 1 =? start1))%bool in
  let distance := calculateDistance start1 end1 start2 end2 in
  {| hasOverlap := false;
     type := if isAdjacent then ADJACENT else NO_OVERLAP;
     severity := NONE;
     reason := if isAdjacent then ReasonAdjacent else ReasonNoOverlap;
     confidence := 100;
     details := NoOverlapDetails (toString10 distance) isAdjacent
                  (if isAdjacent then "0" else toString10 distance) |}.

(** [calculateOverlapPercentage].  The quotient of two BigInts is
    truncated; a zero divisor throws and the [catch] returns 0.  [Number]
    of the quotient is the same integer as long as it is below 2^53,
    and so are the product by 100 and the division by 100 of the result. *)
Definition calculateOverlapPercentage (network1 network2 : Network) (overlapSize : Z) : Q :=
  let size1 := broadcastBigInt network1 - networkBigInt network1 + 1 in
  let size2 := broadcastBigInt network2 - networkBigInt network2 + 1 in
  let smallerSize := if size1 <? size2 then size1 else size2 in
  if smallerSize =? 0 then 0%Q
  else
    let percentage := inject_Z (Z.quot (overlapSize * 100) smallerSize) in
    (inject_Z (Math_round (percentage * 100)) / 100)%Q.

Definition MAX_SAFE_INTEGER : Z := 9007199254740991.

Definition calculateAffectedAddresses (overlapSize : Z) : Affected :=
  if overlapSize >? MAX_SAFE_INTEGER then MoreThanMaxSafeInteger
  else AffectedCount overlapSize.

Definition analyzeOverlapDetails (network1 network2 : Network) (start1 end1 start2 end2 : Z)
  : Analysis :=
  let '(overlapType, severity, reason) :=
    if ((start1 =? start2) && (end1 =? end2))%bool
    then (IDENTICAL, CRITICAL, ReasonIdentical)
    else if ((start1 <=? start2) && (end1 >=? end2))%bool
    then (FIRST_CONTAINS_SECOND, HIGH,
          ReasonFirstContainsSecond (original network1) (original network2))
    else if ((start2 <=? start1) && (end2 >=? end1))%bool
    then (SECOND_CONTAINS_FIRST, HIGH,
          ReasonSecondContainsFirst (original network2) (original network1))
    else (PARTIAL, MEDIUM, ReasonPartial) in
  let overlapStart := if start1 >? start2 then start1 else start2 in
  let overlapEnd := if end1 <? end2 then end1 else end2 in
  let overlapSize := overlapEnd - overlapStart + 1 in
  let percentageOverlap := calculateOverlapPercentage network1 network2 overlapSize in
  {| hasOverlap := true;
     type := overlapType;
     severity := severity;
     reason := reason;
     confidence := 100;
     details := OverlapDetails (IPv6Utils.bigIntToIPv6 overlapStart)
                  (IPv6Utils.bigIntToIPv6 overlapEnd)
                  (toString10 overlapSize)
                  percentageOverlap
                  (calculateAffectedAddresses overlapSize) |}.

Definition analyzeOverlap (network1 network2 : Network) : Analysis :=
  let start1 := networkBigInt network1 in
  let end1 := broadcastBigInt network1 in
  let start2 := networkBigInt network2 in
  let end2 := broadcastBigInt network2 in
  let hasOverlap :=
    (((start1 <=? start2) && (end1 >=? start2)) ||
     ((start2 <=? start1) && (end2 >=? start1)))%bool in
  if negb hasOverlap
  then analyzeNoOverlap network1 network2 start1 end1 start2 end2
  else analyzeOverlapDetails network1 network2 start1 end1 start2 end2.

(** The fields [overlapSize] and [percentageOverlap] of an analysis, absent
    when there is no overlap. *)
Definition overlapSize_of (a : Analysis) : option string :=
  match details a with
  | OverlapDetails _ _ size _ _ => Some size
  | NoOverlapDetails _ _ _ => None
  end.

Definition percentageOverlap_of (a : Analysis) : option Q :=
  match details a with
  | OverlapDetails _ _ _ p _ => Some p
  | NoOverlapDetails _ _ _ => None
  end.

(** [validateAndGetNetworkInfo]; [None] when it throws. *)
Definition validateAndGetNetworkInfo (cidr : string) : option Network :=
  if negb (includes "/" cidr) then None
  else
    match IPv6Utils.validateIPv6 cidr with
    | IPv6Utils.Invalid _ => None
    | IPv6Utils.Valid validation =>
        match IPv6Utils.getNetworkInfo cidr with
        | None => None
        | Some networkInfo =>
            Some {| info := networkInfo; original := cidr; validation := validation |}
        end
    end.

(** What [checkOverlapAdvanced] returns: the complete result, or the
    one of [createErrorResult], whose [hasOverlap] is [null].  The
    recommendations and the timings, which are computed after the
    analysis and do not feed back into it, are left out; the engine is
    taken after [setIPv6Utils]. *)
Inductive AdvancedResult :=
| Checked (cidr1 cidr2 : string) (network1 network2 : Network) (analysis : Analysis)
| CheckFailed.

Definition checkOverlapAdvanced (cidr1 cidr2 : string) : AdvancedResult :=
  if (is_empty cidr1 || is_empty cidr2)%bool then CheckFailed
  else
    match validateAndGetNetworkInfo cidr1, validateAndGetNetworkInfo cidr2 with
    | Some network1, Some network2 =>
        Checked cidr1 cidr2 network1 network2 (analyzeOverlap network1 network2)
    | _, _ => CheckFailed
    end.

Definition result_hasOverlap (r : AdvancedResult) : option bool :=
  match r with
  | Checked _ _ _ _ a => Some (hasOverlap a)
  | CheckFailed => None
  end.

Definition result_overlapType (r : AdvancedResult) : option OverlapType :=
  match r with
  | Checked _ _ _ _ a => Some (type a)
  | CheckFailed => None
  end.

Definition result_severity (r : AdvancedResult) : option Severity :=
  match r with
  | Checked _ _ _ _ a => Some (severity a)
  | CheckFailed => None
  end.

(** The truth value that [if (x)] and [!x] make of a boolean or [null]. *)
Definition truthy (b : option bool) : bool :=
  match b with Some true => true | _ => false end.

Definition result_reason (r : AdvancedResult) : option Reason :=
  match r with
  | Checked _ _ _ _ a => Some (reason a)
  | CheckFailed => None
  end.

(** What [checkOverlap] returns; [checkOverlapAdvanced] catches its own
    exceptions, so the [catch] of [checkOverlap] is never entered.  A
    result without a reason, the one of [createErrorResult], is given the
    text that goes with the truth value of its [hasOverlap]. *)
Record SimpleResult := {
  simple_hasOverlap : option bool;
  simple_reason : Reason;
  simple_type : option OverlapType;
  simple_severity : option Severity
}.

Definition checkOverlap (cidr1 cidr2 : string) : SimpleResult :=
  let result := checkOverlapAdvanced cidr1 cidr2 in
  {| simple_hasOverlap := result_hasOverlap result;
     simple_reason :=
       match result_reason result with
       | Some reason => reason
       | None => if truthy (result_hasOverlap result) then ReasonOverlap else ReasonNoOverlap
       end;
     simple_type := result_overlapType result;
     simple_severity := result_severity result |}.

(** [generateSuggestion]; [None] is [null].  The first parameter is not
    read by the source. *)
Definition generateSuggestion (lanPrefix wanPrefix : string) : option string :=
  let wanPrefixLen := nth_error (split1 "/" wanPrefix) 1 in
  match IPv6Utils.getNetworkInfo wanPrefix with
  | None => None
  | Some wanNetwork =>
      match parseInt_opt wanPrefixLen with
      | None => None
      | Some prefixLength =>
          let increment := Z.shiftl 1 (128 - prefixLength) in
          let suggestedBigInt := IPv6Utils.networkBigInt wanNetwork + increment in
          let maxIPv6 := Z.shiftl 1 128 - 1 in
          let attempt :=
            if suggestedBigInt >? maxIPv6 then
              let suggestedBigInt := IPv6Utils.networkBigInt wanNetwork - increment in
              if suggestedBigInt <? 0 then None else Some suggestedBigInt
            else Some suggestedBigInt in
          match attempt with
          | None => None
          | Some suggestedBigInt =>
              let suggestedAddr := IPv6Utils.bigIntToIPv6 suggestedBigInt in
              let compressedAddr := IPv6Utils.compressAddress suggestedAddr in
              let suggestion := compressedAddr +++ "/" +++ toString10 prefixLength in
              let testResult := checkOverlap suggestion wanPrefix in
              if negb (truthy (simple_hasOverlap testResult)) then Some suggestion
              else None
          end
      end
  end.

(** *** Recommendations *)

(** An element of [recommendations]: its fields [type], [priority] and
    [impact], and [suggestion], which the other kinds do not have; the
    texts of [title], [description] and [action] and the field [urgency]
    are left out. *)
Record Recommendation := {
  rec_type : string;
  rec_priority : string;
  rec_impact : string;
  rec_suggestion : option string
}.

Definition recommend (type priority impact : string) : Recommendation :=
  {| rec_type := type; rec_priority := priority; rec_impact := impact;
     rec_suggestion := None |}.

(** [addContextualRecommendations], which pushes on its first argument;
    the result is the array after the call. *)
Definition addContextualRecommendations (recommendations : list Recommendation)
  (analysis : Analysis) (network1 network2 : Network) : list Recommendation :=
  let type1 := IPv6Utils.type (validation network1) in
  let type2 := IPv6Utils.type (validation network2) in
  let recommendations :=
    if (negb (is_empty type1) && negb (is_empty type2) && negb (String.eqb type1 type2))%bool
    then recommendations ++ [recommend "info" "medium" "medium"]
    else recommendations in
  let recommendations :=
    if ((IPv6Utils.prefixLen (info network1) >? 80) ||
        (IPv6Utils.prefixLen (info network2) >? 80))%bool
    then recommendations ++ [recommend "warning" "low" "low"]
    else recommendations in
  if hasOverlap analysis then
    match generateSuggestion (original network2) (original network1) with
    | Some suggestion =>
        if is_empty suggestion then recommendations
        else recommendations ++
             [{| rec_type := "success"; rec_priority := "medium"; rec_impact := "positive";
                 rec_suggestion := Some suggestion |}]
    | None => recommendations
    end
  else recommendations.

(** [generateRecommendations] *)
Definition generateRecommendations (analysis : Analysis) (network1 network2 : Network)
  : list Recommendation :=
  if negb (hasOverlap analysis) then
    recommend "success" "low" "none" ::
    match type analysis with
    | ADJACENT => [recommend "info" "low" "low"]
    | _ => []
    end
  else
    let recommendations :=
      if level (severity analysis) =? 4 then [recommend "error" "critical" "critical"]
      else if level (severity analysis) =? 3 then [recommend "warning" "high" "high"]
      else if level (severity analysis) =? 2 then [recommend "warning" "medium" "medium"]
      else [] in
    addContextualRecommendations recommendations analysis network1 network2.

(** The field [details.recommendations] of a result; [None] for the
    result of [createErrorResult], which has no such field. *)
Definition result_recommendations (r : AdvancedResult) : option (list Recommendation) :=
  match r with
  | Checked _ _ network1 network2 analysis =>
      Some (generateRecommendations analysis network1 network2)
  | CheckFailed => None
  end.

(** *** Batch analysis *)

(** An element of [validPrefixes]. *)
Record ValidPrefix := {
  vp_index : nat;
  vp_prefix : string;
  vp_validation : IPv6Utils.Validation
}.

(** An element of [results]: [{index, prefix, valid: false, error}] or
    [{index, prefix, valid: true, type, scope}]. *)
Inductive EntryStatus :=
| EntryInvalid
| EntryValid (type scope : string).

Record BatchEntry := {
  entry_index : nat;
  entry_prefix : string;
  entry_status : EntryStatus
}.

Definition entry_valid (e : BatchEntry) : bool :=
  match entry_status e with EntryValid _ _ => true | EntryInvalid => false end.

(** An element of [conflicts]. *)
Record Conflict := {
  indices : nat * nat;
  prefixes : string * string;
  conflict_overlapType : option OverlapType;
  conflict_severity : option Severity;
  conflict_reason : option Reason
}.

(** The first loop of [analyzeBatch], from index [i] on: the valid
    prefixes and the entries pushed for the invalid ones. *)
Fixpoint validate_entries (i : nat) (prefixes : list string)
  : list ValidPrefix * list BatchEntry :=
  match prefixes with
  | [] => ([], [])
  | p :: rest =>
      let '(validPrefixes, results) := validate_entries (S i) rest in
      match IPv6Utils.validateIPv6 p with
      | IPv6Utils.Valid validation =>
          ({| vp_index := i; vp_prefix := p; vp_validation := validation |}
             :: validPrefixes, results)
      | IPv6Utils.Invalid _ =>
          (validPrefixes,
           {| entry_index := i; entry_prefix := p; entry_status := EntryInvalid |}
             :: results)
      end
  end.

(** The pairs that the two nested loops visit, in the order of the visit. *)
Fixpoint pairs {A} (l : list A) : list (A * A) :=
  match l with
  | [] => []
  | x :: r => map (pair x) r ++ pairs r
  end.

(** One call of [checkOverlapAdvanced] in the nested loops. *)
Record Comparison := {
  first : ValidPrefix;
  second : ValidPrefix;
  outcome : AdvancedResult
}.

Definition compare_pair (p : ValidPrefix * ValidPrefix) : Comparison :=
  {| first := fst p; second := snd p;
     outcome := checkOverlapAdvanced (vp_prefix (fst p)) (vp_prefix (snd p)) |}.

Definition comparisons (validPrefixes : list ValidPrefix) : list Comparison :=
  map compare_pair (pairs validPrefixes).

(** What the body of the nested loops pushes on [conflicts]. *)
Definition conflict_of (c : Comparison) : list Conflict :=
  if truthy (result_hasOverlap (outcome c))
  then [{| indices := (vp_index (first c), vp_index (second c));
           prefixes := (vp_prefix (first c), vp_prefix (second c));
           conflict_overlapType := result_overlapType (outcome c);
           conflict_severity := result_severity (outcome c);
           conflict_reason := result_reason (outcome c) |}]
  else [].

Definition entry_of_valid (vp : ValidPrefix) : BatchEntry :=
  {| entry_index := vp_index vp;
     entry_prefix := vp_prefix vp;
     entry_status := EntryValid (IPv6Utils.type (vp_validation vp))
                       (IPv6Utils.scope (vp_validation vp)) |}.

(** The counters of [severityBreakdown], an object used as a map. *)
Definition severityBreakdown_init : Map Z :=
  [("critical", 0); ("high", 0); ("medium", 0); ("low", 0)].

Definition tally (breakdown : Map Z) (conflict : Conflict) : Map Z :=
  match conflict_severity conflict with
  | None => breakdown
  | Some s =>
      let level := toLowerCase (label s) in
      if Map_has level breakdown
      then Map_set level
             (match Map_get level breakdown with Some n => n + 1 | None => 0 end)
             breakdown
      else breakdown
  end.

(** What [generateBatchStatistics] returns, without the two rates, which
    are rounded floating-point quotients. *)
Record Statistics := {
  total : Z;
  valid : Z;
  invalid : Z;
  conflictCount : Z;
  severityBreakdown : Map Z;
  healthScore : Z
}.

Definition generateBatchStatistics (results : list BatchEntry) (conflicts : list Conflict)
  : Statistics :=
  let total := Z.of_nat (List.length results) in
  let valid := Z.of_nat (List.length (filter entry_valid results)) in
  let invalid := total - valid in
  let conflictCount := Z.of_nat (List.length conflicts) in
  let severityBreakdown := fold_left tally conflicts severityBreakdown_init in
  let healthScore :=
    if total >? 0 then Z.max 0 (100 - invalid * 10 - conflictCount * 15) else 100 in
  {| total := total; valid := valid; invalid := invalid;
     conflictCount := conflictCount;
     severityBreakdown := severityBreakdown;
     healthScore := healthScore |}.

(** The field [status] of [generateBatchSummary]. *)
Definition summary_status (stats : Statistics) : string :=
  if conflictCount stats >? 0 then
    if healthScore stats <? 50 then "critical"
    else if healthScore stats <? 75 then "warning"
    else "info"
  else if invalid stats >? 0 then "warning"
  else "excellent".

(** What [analyzeBatch] returns, without the advisory texts and the
    timing. *)
Record BatchReport := {
  results : list BatchEntry;
  conflicts : list Conflict;
  statistics : Statistics;
  status : string
}.

Definition analyzeBatch (prefixes : list string) : BatchReport :=
  let '(validPrefixes, results) := validate_entries 0 prefixes in
  let conflicts := flat_map conflict_of (comparisons validPrefixes) in
  let results := results ++ map entry_of_valid validPrefixes in
  let stats := generateBatchStatistics results conflicts in
  {| results := sort_by (fun e => Z.of_nat (entry_index e)) results;
     conflicts := conflicts;
     statistics := stats;
     status := summary_status stats |}.

(** *** The cache of [OverlapEngine] *)

Definition CACHE_TTL : Z := 300000.
Definition CACHE_MAX_SIZE : Z := 500.

Definition Cache (V : Type) : Type := Map (CacheItem V).

Definition size {V} (cache : Cache V) : Z := Z.of_nat (List.length cache).

Definition getFromCache {V} (now : Z) (key : string) (cache : Cache V)
  : option V * Cache V :=
  match Map_get key cache with
  | Some item =>
      if now - timestamp item <? CACHE_TTL then (Some (value item), cache)
      else (None, Map_delete key cache)
  | None => (None, Map_delete key cache)
  end.

Definition cleanExpiredCache {V} (now : Z) (cache : Cache V) : Cache V :=
  let toDelete :=
    map fst (filter (fun e => now - timestamp (snd e) >? CACHE_TTL) cache) in
  fold_left (fun c key => Map_delete key c) toDelete cache.

(** [setToCache]: [cache.keys().next().value] is the key inserted first,
    and [undefined], which no entry has, in an empty cache. *)
Definition setToCache {V} (nowClean nowWrite : Z) (key : string) (v : V)
  (cache : Cache V) : Cache V :=
  let cache :=
    if size cache >=? CACHE_MAX_SIZE then
      let cache := cleanExpiredCache nowClean cache in
      if size cache >=? CACHE_MAX_SIZE then
        match cache with
        | [] => cache
        | (oldestKey, _) :: _ => Map_delete oldestKey cache
        end
      else cache
    else cache in
  Map_set key {| value := v; timestamp := nowWrite |} cache.

End OverlapEngine.

(** ** Class [ValidationEngine]: the validator without zone identifiers

    [isValidFormat], [validateCompressedFormat], [validateFullFormat],
    [expandAddress] and [compressAddress] have, statement for statement,
    the bodies of their namesakes in [IPv6Utils] ([expandAddress] and
    [compressAddress] those of [performExpansion] and
    [performCompression]); the loop over the eight groups and the
    stripping of the leading zeros are embedded by the same definitions. *)

Module ValidationEngine.
Import JS.

(** [patterns.HEX_GROUP] *)
Definition HEX_GROUP (g : string) : bool :=
  (Nat.leb 1 (String.length g) && Nat.leb (String.length g) 4 && all is_hex g)%bool.

Definition validateCompressedFormat (address : string) : bool :=
  let parts := split_dcolon address in
  if negb (Nat.eqb (List.length parts) 2) then false
  else
    let before := IPv6Utils.groups_of (nth_error parts 0) in
    let after := IPv6Utils.groups_of (nth_error parts 1) in
    if Nat.ltb 8 (List.length before + List.length after) then false
    else forallb HEX_GROUP (before ++ after).

Definition validateFullFormat (address : string) : bool :=
  let groups := split1 ":" address in
  if negb (Nat.eqb (List.length groups) 8) then false
  else forallb HEX_GROUP groups.

Definition isValidFormat (address : string) : bool :=
  if is_empty address then false
  else if negb (all (fun c => (is_hex c || Ascii.eqb c ":")%bool) address) then false
  else if Nat.ltb 1 (count_dcolon address) then false
  else if includes ":::" address then false
  else if includes "::" address then validateCompressedFormat address
  else validateFullFormat address.

(** [expandAddress]; [None] when it throws. *)
Definition expandAddress (address : string) : option string :=
  let addr := strip_brackets address in
  if negb (includes "::" addr) then
    let groups := split1 ":" addr in
    if negb (Nat.eqb (List.length groups) 8) then None
    else Some (join ":" (map (padStart 4 "0") groups))
  else
    let parts := split_dcolon addr in
    let before := IPv6Utils.groups_of (nth_error parts 0) in
    let after := IPv6Utils.groups_of (nth_error parts 1) in
    let missingGroups := 8 - Z.of_nat (List.length before + List.length after) in
    if missingGroups <? 0 then None
    else
      let zeros := repeat "0000" (Z.to_nat missingGroups) in
      let allGroups := before ++ zeros ++ after in
      if forallb HEX_GROUP allGroups
      then Some (join ":" (map (padStart 4 "0") allGroups))
      else None.

(** [compressAddress]; the [catch] returns the argument. *)
Definition compressAddress (address : string) : string :=
  match expandAddress address with
  | None => address
  | Some expanded =>
      let groups := split1 ":" expanded in
      let st := IPv6Utils.longest_zero_run groups in
      if IPv6Utils.bestLength st <? 2 then join ":" (map IPv6Utils.strip_group groups)
      else
        let before :=
          map IPv6Utils.strip_group
            (IPv6Utils.slice_to (IPv6Utils.bestStart st) groups) in
        let after :=
          map IPv6Utils.strip_group
            (IPv6Utils.slice_from (IPv6Utils.bestStart st + IPv6Utils.bestLength st) groups) in
        if (IPv6Utils.is_nil before && IPv6Utils.is_nil after)%bool then "::"
        else if IPv6Utils.is_nil before then "::" +++ join ":" after
        else if IPv6Utils.is_nil after then join ":" before +++ "::"
        else join ":" before +++ "::" +++ join ":" after
  end.

(** [getAddressType], which takes the expanded text. *)
Definition getAddressType (expanded : string) : string :=
  if String.eqb expanded "0000:0000:0000:0000:0000:0000:0000:0001" then "Loopback"
  else if String.eqb expanded "0000:0000:0000:0000:0000:0000:0000:0000" then "Unspecified"
  else if String.prefix "fe80:" expanded then "Link-Local"
  else if String.prefix "ff" expanded then "Multicast"
  else if (String.prefix "fc" expanded || String.prefix "fd" expanded)%bool then "Unique Local"
  else if String.prefix "2001:0db8:" expanded then "Documentation"
  else "Global Unicast".

(** [getAddressScope], which takes the type: [scopeMap[type] || 'Unknown']
    for a type that [getAddressType] returns. *)
Definition getAddressScope (type : string) : string :=
  if String.eqb type "Loopback" then "Host"
  else if String.eqb type "Unspecified" then "None"
  else if String.eqb type "Link-Local" then "Link"
  else if String.eqb type "Multicast" then "Variable"
  else if String.eqb type "Unique Local" then "Organization"
  else if String.eqb type "Documentation" then "Documentation"
  else if String.eqb type "Global Unicast" then "Global"
  else "Unknown".

(** The object that [performValidation] returns, without the advisory
    texts of [recommendations]. *)
Record Validation := {
  original : string;
  cleanAddress : string;
  expanded : string;
  compressed : string;
  prefix : option Z;
  type : string;
  scope : string
}.

(** What [validateIPv6] returns; the error messages are those of
    [IPv6Utils]. *)
Inductive ValidationResult :=
| Valid (v : Validation)
| Invalid (e : IPv6Utils.ValidationError).

Definition valid (r : ValidationResult) : bool :=
  match r with Valid _ => true | Invalid _ => false end.

(** [performValidation]; a thrown error is an [Invalid] result, which is
    what the [catch] of [validateIPv6] makes of it. *)
Definition performValidation (address : string) : ValidationResult :=
  let cidrMatch := IPv6Utils.match_CIDR address in
  let cleanAddress := match cidrMatch with Some (a, _) => a | None => address end in
  let prefix := match cidrMatch with Some (_, d) => parseInt10 d | None => None end in
  if IPv6Utils.prefix_out_of_bounds prefix then Invalid IPv6Utils.InvalidCidrPrefix
  else
    let cleanAddress := strip_brackets cleanAddress in
    if negb (isValidFormat cleanAddress) then Invalid IPv6Utils.InvalidFormat
    else
      match expandAddress cleanAddress with
      | None => Invalid IPv6Utils.ExpansionFailed
      | Some expanded =>
          let type := getAddressType expanded in
          Valid {| original := address;
                   cleanAddress := cleanAddress;
                   expanded := expanded;
                   compressed := compressAddress expanded;
                   prefix := prefix;
                   type := type;
                   scope := getAddressScope type |}
      end.

(** [validateIPv6], whose cache stores the results of [performValidation]
    under keys that determine the argument. *)
Definition validateIPv6 (address : string) : ValidationResult :=
  if is_empty address then Invalid IPv6Utils.NotANonEmptyString
  else performValidation (trim address).

(** *** The cache of [ValidationEngine] *)

Definition CACHE_TTL : Z := 300000.

Definition Cache (V : Type) : Type := Map (CacheItem V).

Definition size {V} (cache : Cache V) : Z := Z.of_nat (List.length cache).

Definition getFromCache {V} (now : Z) (key : string) (cache : Cache V)
  : option V * Cache V :=
  match Map_get key cache with
  | Some item =>
      if now - timestamp item <? CACHE_TTL then (Some (value item), cache)
      else (None, Map_delete key cache)
  | None => (None, Map_delete key cache)
  end.

(** [cleanExpiredCache], whose loop deletes the entry that it is
    visiting, so that every entry is visited. *)
Definition cleanExpiredCache {V} (now : Z) (cache : Cache V) : Cache V :=
  fold_left
    (fun c e => if now - timestamp (snd e) >? CACHE_TTL then Map_delete (fst e) c else c)
    cache cache.

(** [setToCache]: nothing but the expired entries is ever removed. *)
Definition setToCache {V} (nowClean nowWrite : Z) (key : string) (v : V)
  (cache : Cache V) : Cache V :=
  let cache := if size cache >=? 1000 then cleanExpiredCache nowClean cache else cache in
  Map_set key {| value := v; timestamp := nowWrite |} cache.

End ValidationEngine.

(** ** Class [OverlapChecker] of [src/js/features/overlap-checker.js] *)

Module OverlapChecker.
Import JS.

(** The truth value of [r.suggestion]: a text that is not empty. *)
Definition has_suggestion (r : OverlapEngine.Recommendation) : bool :=
  match OverlapEngine.rec_suggestion r with
  | Some s => negb (is_empty s)
  | None => false
  end.

(** What [generateAndShowSuggestion] passes to [showSuggestionSection]:
    the suggestion of the first recommendation of the result that has
    one, and otherwise what [generateSuggestion] returns; [None] is
    [null]. *)
Definition suggestion_shown (lanPrefix wanPrefix : string)
  (result : OverlapEngine.AdvancedResult) : option string :=
  let suggestion :=
    match OverlapEngine.result_recommendations result with
    | Some recommendations =>
        match find has_suggestion recommendations with
        | Some suggestionRec => OverlapEngine.rec_suggestion suggestionRec
        | None => None
        end
    | None => None
    end in
  match suggestion with
  | Some s => if is_empty s then OverlapEngine.generateSuggestion lanPrefix wanPrefix else Some s
  | None => OverlapEngine.generateSuggestion lanPrefix wanPrefix
  end.

(** [performOverlapCheck] after its delay: the WAN prefix goes first. *)
Definition performOverlapCheck (wanPrefix lanPrefix : string) : OverlapEngine.AdvancedResult :=
  OverlapEngine.checkOverlapAdvanced wanPrefix lanPrefix.

End OverlapChecker.

(** ** Fixtures and the statements of the specification *)

(** A network object with the bounds [a0] and [a1], the other fields
    being those of no particular prefix: the classifier reads the bounds
    and, for the text of two reasons, the field [original]. *)
Definition range_network (a0 a1 : Z) : OverlapEngine.Network :=
  {| OverlapEngine.info :=
       {| IPv6Utils.network := IPv6Utils.bigIntToIPv6 a0;
          IPv6Utils.broadcast := IPv6Utils.bigIntToIPv6 a1;
          IPv6Utils.networkBigInt := a0;
          IPv6Utils.broadcastBigInt := a1;
          IPv6Utils.prefixLen := 0;
          IPv6Utils.mask := 0;
          IPv6Utils.hostBits := 128;
          IPv6Utils.totalAddresses := None;
          IPv6Utils.compressedNetwork := IPv6Utils.compressAddress (IPv6Utils.bigIntToIPv6 a0);
          IPv6Utils.compressedBroadcast := IPv6Utils.compressAddress (IPv6Utils.bigIntToIPv6 a1) |};
     OverlapEngine.original := EmptyString;
     OverlapEngine.validation :=
       {| IPv6Utils.original := EmptyString;
          IPv6Utils.cleanAddress := EmptyString;
          IPv6Utils.prefix := None;
          IPv6Utils.zoneId := None;
          IPv6Utils.expanded := EmptyString;
          IPv6Utils.compressed := EmptyString;
          IPv6Utils.type := EmptyString;
          IPv6Utils.scope := EmptyString |} |}.

(** The percentage as the specification words it: [overlapSize * 100]
    divided by the size of the smaller range, rounded to two decimals. *)
Definition percentageOfSmaller_spec (overlapSize smallerSize : Z) : Q :=
  (inject_Z (JS.Math_round (inject_Z (overlapSize * 100) / inject_Z smallerSize * 100)) / 100)%Q.

(** *** The shape of the texts of the codec *)

(** A group as it stands in a text: no colon in it. *)
Definition nocolon (g : string) : bool :=
  JS.all (fun c => negb (Ascii.eqb c ":")) g.

(** A group that is not empty. *)
Definition solid (g : string) : bool := (negb (JS.is_empty g) && nocolon g)%bool.

(** A group of an expanded text: four hexadecimal digits. *)
Definition group4 (g : string) : bool :=
  (Nat.eqb (String.length g) 4 && JS.all JS.is_hex g)%bool.

(** An expanded text: eight groups of four hexadecimal digits. *)
Definition isExpanded (text : string) : bool :=
  let groups := JS.split1 ":" text in
  (Nat.eqb (List.length groups) 8 && forallb group4 groups)%bool.

(** A text in which no colon follows a colon and which does not end with
    a colon. *)
Fixpoint tidy (s : string) : bool :=
  match s with
  | EmptyString => true
  | String c r =>
      match r with
      | EmptyString => negb (Ascii.eqb c ":")
      | String c' _ => (negb (Ascii.eqb c ":" && Ascii.eqb c' ":") && tidy r)%bool
      end
  end.

(** The units of an address: hexadecimal digits and colons. *)
Definition address_units (s : string) : bool :=
  JS.all (fun c => (JS.is_hex c || Ascii.eqb c ":")%bool) s.

(** The groups [s], ..., [s + l - 1] of [groups] are all "0000". *)
Definition zero_run (groups : list string) (s l : nat) : Prop :=
  forall i : nat, (s <= i < s + l)%nat -> nth_error groups i = Some "0000".

(** The composition of [compressAddress] after [expandAddress]. *)
Definition compress_after_expand (text : string) : option string :=
  option_map IPv6Utils.compressAddress (IPv6Utils.expandAddress text).

(** *** What the search for the longest run of zero groups maintains *)

(** The test [groups[i] === '0000']. *)
Definition zero_at (groups : list string) (i : nat) : bool :=
  IPv6Utils.is_zero_group (nth_error groups i).

(** Among the first [n] groups, [st] holds a leftmost longest run of
    zero groups as its best run. *)
Definition best_run_spec (groups : list string) (n : nat) (st : IPv6Utils.RunState) : Prop :=
  let bs := IPv6Utils.bestStart st in
  let bl := IPv6Utils.bestLength st in
  0 <= bl /\
  (0 < bl ->
   0 <= bs /\ bs + bl <= Z.of_nat n /\
   forall i : nat, bs <= Z.of_nat i < bs + bl -> zero_at groups i = true) /\
  (forall s l : nat,
     (1 <= l)%nat -> (s + l <= n)%nat ->
     (forall i : nat, (s <= i < s + l)%nat -> zero_at groups i = true) ->
     Z.of_nat l <= bl /\ (Z.of_nat l = bl -> bs <= Z.of_nat s)).

(** The state of the loop before the turn [i = n]: the current run is
    the run of zero groups that ends at [n], and the best run is a
    leftmost longest one among the runs that end before the current one. *)
Definition run_invariant (groups : list string) (n : nat) (st : IPv6Utils.RunState) : Prop :=
  let cl := IPv6Utils.currentLength st in
  let bs := IPv6Utils.bestStart st in
  let bl := IPv6Utils.bestLength st in
  0 <= cl <= Z.of_nat n /\
  IPv6Utils.currentStart st = (if cl =? 0 then -1 else Z.of_nat n - cl) /\
  (forall i : nat, Z.of_nat n - cl <= Z.of_nat i < Z.of_nat n -> zero_at groups i = true) /\
  (cl < Z.of_nat n -> zero_at groups (Z.to_nat (Z.of_nat n - cl - 1)) = false) /\
  0 <= bl /\
  (0 < bl ->
   0 <= bs /\ bs + bl <= Z.of_nat n - cl /\
   forall i : nat, bs <= Z.of_nat i < bs + bl -> zero_at groups i = true) /\
  (forall s l : nat,
     (1 <= l)%nat -> Z.of_nat (s + l) <= Z.of_nat n - cl ->
     (forall i : nat, (s <= i < s + l)%nat -> zero_at groups i = true) ->
     Z.of_nat l <= bl /\ (Z.of_nat l = bl -> bs <= Z.of_nat s)).

(** The groups of an expanded text. *)
Definition expanded_groups (groups : list string) : Prop :=
  List.length groups = 8%nat /\ forallb group4 groups = true.

(** The text that stands for [groups] when the run of [l] groups from
    [s] on is replaced by a double colon and the leading zeros of the
    other groups are stripped. *)
Definition compressed_text (groups : list string) (s l : nat) : string :=
  JS.join ":" (map IPv6Utils.strip_group (firstn s groups)) +++ "::" +++
  JS.join ":" (map IPv6Utils.strip_group (skipn (s + l) groups)).

(** *** Batches, suggestions and caches in the words of the specification *)

(** The calls of [checkOverlapAdvanced] that [analyzeBatch] makes. *)
Definition batch_comparisons (prefixes : list string) : list OverlapEngine.Comparison :=
  OverlapEngine.comparisons (fst (OverlapEngine.validate_entries 0 prefixes)).

(** The two indices of a comparison. *)
Definition compared_indices (c : OverlapEngine.Comparison) : nat * nat :=
  (OverlapEngine.vp_index (OverlapEngine.first c),
   OverlapEngine.vp_index (OverlapEngine.second c)).

(** The entry of the report for the prefix [p] at index [i]. *)
Definition entry_for (i : nat) (p : string) : OverlapEngine.BatchEntry :=
  match IPv6Utils.validateIPv6 p with
  | IPv6Utils.Valid v =>
      {| OverlapEngine.entry_index := i;
         OverlapEngine.entry_prefix := p;
         OverlapEngine.entry_status :=
           OverlapEngine.EntryValid (IPv6Utils.type v) (IPv6Utils.scope v) |}
  | IPv6Utils.Invalid _ =>
      {| OverlapEngine.entry_index := i;
         OverlapEngine.entry_prefix := p;
         OverlapEngine.entry_status := OverlapEngine.EntryInvalid |}
  end.

(** The entries for the prefixes [ps], numbered from [i] on. *)
Fixpoint entries_from (i : nat) (ps : list string) : list OverlapEngine.BatchEntry :=
  match ps with
  | [] => []
  | p :: rest => entry_for i p :: entries_from (S i) rest
  end.

(** The prefix at index [i] is valid. *)
Definition valid_at (prefixes : list string) (i : nat) : bool :=
  match nth_error prefixes i with
  | Some p => IPv6Utils.valid (IPv6Utils.validateIPv6 p)
  | None => false
  end.

(** A CIDR text in its plain form: an address that [isValidFormat]
    accepts, a slash, and a prefix length of one to three digits that
    is at most 128. *)
Definition plain_cidr (text : string) : bool :=
  match JS.split1 "/" text with
  | [address; digits] =>
      (IPv6Utils.isValidFormat address &&
       Nat.leb 1 (String.length digits) && Nat.leb (String.length digits) 3 &&
       JS.all JS.is_digit digits &&
       match JS.parseInt10 digits with Some p => p <=? 128 | None => false end)%bool
  | _ => false
  end.

(** The text of the candidate block of base [base] and prefix length
    [prefixLength], and what is returned for it after the check against
    the anchor. *)
Definition candidate_text (base prefixLength : Z) : string :=
  IPv6Utils.compressAddress (IPv6Utils.bigIntToIPv6 base) +++ "/" +++
  JS.toString10 prefixLength.

Definition checked_candidate (base prefixLength : Z) (anchor : string) : option string :=
  let text := candidate_text base prefixLength in
  if OverlapEngine.truthy
       (OverlapEngine.simple_hasOverlap (OverlapEngine.checkOverlap text anchor))
  then None else Some text.

(** The base of the range that a CIDR text denotes, and the increment
    that the specification takes from the conflicting range. *)
Definition base_of (cidr : string) : option Z :=
  option_map IPv6Utils.networkBigInt (IPv6Utils.getNetworkInfo cidr).

Definition increment_of_conflicting (conflicting : string) : option Z :=
  option_map (fun c => 2 ^ (128 - IPv6Utils.prefixLen c))
    (IPv6Utils.getNetworkInfo conflicting).

(** The entries of [before] whose key is no longer in [after]. *)
Definition evicted {V} (before after : JS.Map V) : JS.Map V :=
  filter (fun e => negb (JS.Map_has (fst e) after)) before.

(** No key twice, as a [Map] has it. *)
Fixpoint distinct_keys {V} (m : JS.Map V) : bool :=
  match m with
  | [] => true
  | e :: r => (negb (JS.Map_has (fst e) r) && distinct_keys r)%bool
  end.

(** An entry that [cleanExpiredCache] deletes at the reading [now]. *)
Definition expired {V} (ttl now : Z) (e : string * JS.CacheItem V) : bool :=
  now - JS.timestamp (snd e) >? ttl.

(** A cache of [n] entries written at the times 0, 1, ..., [n - 1] under
    the keys "0", "1", ... *)
Definition filled_cache (n : nat) : JS.Map (JS.CacheItem unit) :=
  map (fun i => (JS.toString10 (Z.of_nat i),
                 {| JS.value := tt; JS.timestamp := Z.of_nat i |})) (seq 0 n).

(** The order of two elements by a key, and the strict one. *)
Definition ordered_by {A} (key : A -> Z) (a b : A) : Prop := key a <= key b.
Definition strictly_ordered_by {A} (key : A -> Z) (a b : A) : Prop := key a < key b.

(** The key [k] is one of [ks]. *)
Definition key_in (k : string) (ks : list string) : bool :=
  existsb (String.eqb k) ks.

(** The entries of [m] whose key is none of the keys of [removed]. *)
Definition without {V} (removed m : JS.Map V) : JS.Map V :=
  filter (fun e => negb (key_in (fst e) (map fst removed))) m.

(** *** Further notions for the properties of the code *)

(** The type of the classification with the two ranges swapped. *)
Definition mirror (t : OverlapEngine.OverlapType) : OverlapEngine.OverlapType :=
  match t with
  | OverlapEngine.FIRST_CONTAINS_SECOND => OverlapEngine.SECOND_CONTAINS_FIRST
  | OverlapEngine.SECOND_CONTAINS_FIRST => OverlapEngine.FIRST_CONTAINS_SECOND
  | other => other
  end.

(** A text that does not start with a colon. *)
Definition head_not_colon (s : string) : bool :=
  match s with String c _ => negb (Ascii.eqb c ":") | EmptyString => true end.

(** What [getAddressType] of [IPv6Utils] returns for a text that expands. *)
Definition ADDRESS_TYPES : list string :=
  ["Loopback"; "Unspecified"; "Link-Local"; "Multicast"; "Unique Local";
   "Documentation"; "Teredo"; "6to4"; "Global Unicast"].

(** A hexadecimal digit as [toString(16)] writes it. *)
Definition is_lower_hex (c : ascii) : bool := (JS.is_digit c || JS.between 97 102 c)%bool.

(** The decimal text of a prefix length is read back by the two parsers. *)
Definition prefix_text_ok (p : Z) : bool :=
  let d := JS.toString10 p in
  (JS.all JS.is_digit d && Nat.leb 1 (String.length d) && Nat.leb (String.length d) 3 &&
   match JS.parseInt10 d with Some v => v =? p | None => false end &&
   match JS.parseInt d with Some v => v =? p | None => false end)%bool.

(** The bounds of the range of a CIDR text. *)
Definition bounds_of (cidr : string) : option (Z * Z) :=
  option_map (fun i => (IPv6Utils.networkBigInt i, IPv6Utils.broadcastBigInt i))
    (IPv6Utils.getNetworkInfo cidr).

(** The value [a] lies in the range of the block. *)
Definition in_bounds (a : Z) (block : string) : bool :=
  match bounds_of block with
  | Some (lo, hi) => ((lo <=? a) && (a <=? hi))%bool
  | None => false
  end.

(** The least value of an expanded text that starts with the digits of
    [lit], and the least value above those of such texts. *)
Definition prefix_low (lit : string) : Z :=
  let d := JS.remove_colons lit in
  JS.hex_digits_value 0 d * 16 ^ (32 - Z.of_nat (String.length d)).

Definition prefix_high (lit : string) : Z :=
  let d := JS.remove_colons lit in
  (JS.hex_digits_value 0 d + 1) * 16 ^ (32 - Z.of_nat (String.length d)).

(** The operations on a cache: a lookup, a write, the periodic purge and
    [clearCache], each with the clock readings that it makes. *)
Inductive CacheOp (V : Type) :=
| OpRead (now : Z) (key : string)
| OpWrite (nowClean nowWrite : Z) (key : string) (v : V)
| OpClean (now : Z)
| OpClear.
Arguments OpRead {V} _ _.
Arguments OpWrite {V} _ _ _ _.
Arguments OpClean {V} _.
Arguments OpClear {V}.

Definition utils_step {V} (cache : IPv6Utils.Cache V) (op : CacheOp V) : IPv6Utils.Cache V :=
  match op with
  | OpRead now key => snd (IPv6Utils.getFromCache now key cache)
  | OpWrite nowClean nowWrite key v => IPv6Utils.setToCache nowClean nowWrite key v cache
  | OpClean now => IPv6Utils.cleanExpiredCache now cache
  | OpClear => []
  end.

Definition engine_step {V} (cache : OverlapEngine.Cache V) (op : CacheOp V)
  : OverlapEngine.Cache V :=
  match op with
  | OpRead now key => snd (OverlapEngine.getFromCache now key cache)
  | OpWrite nowClean nowWrite key v => OverlapEngine.setToCache nowClean nowWrite key v cache
  | OpClean now => OverlapEngine.cleanExpiredCache now cache
  | OpClear => []
  end.

(** A cache of at most [cap] entries, no key twice. *)
Definition within {V} (cap : Z) (cache : JS.Map (JS.CacheItem V)) : Prop :=
  NoDup (map fst cache) /\ Z.of_nat (List.length cache) <= cap.

(** No percent sign in the text. *)
Definition no_percent (s : string) : bool := JS.all (fun c => negb (Ascii.eqb c "%")) s.

(** What the results of the two validators have in common. *)
Definition same_result (u : IPv6Utils.Validation) (w : ValidationEngine.Validation) : Prop :=
  ValidationEngine.original w = IPv6Utils.original u /\
  ValidationEngine.cleanAddress w = IPv6Utils.cleanAddress u /\
  ValidationEngine.prefix w = IPv6Utils.prefix u /\
  ValidationEngine.expanded w = IPv6Utils.expanded u /\
  ValidationEngine.compressed w = IPv6Utils.compressed u.

(** The number of valid prefixes of a batch. *)
Definition valid_count (prefixes : list string) : nat :=
  List.length (filter (valid_at prefixes) (seq 0 (List.length prefixes))).

(** The prefixes at the indices [i] and [j] are valid and the overlap
    check of the two answers that they overlap. *)
Definition overlapping_at (prefixes : list string) (i j : nat) : Prop :=
  exists pi pj : string,
    nth_error prefixes i = Some pi /\ nth_error prefixes j = Some pj /\
    IPv6Utils.valid (IPv6Utils.validateIPv6 pi) = true /\
    IPv6Utils.valid (IPv6Utils.validateIPv6 pj) = true /\
    OverlapEngine.result_hasOverlap (OverlapEngine.checkOverlapAdvanced pi pj) = Some true.

(** The text of a network in its canonical form: the compressed network
    address, a slash and the prefix length. *)
Definition canonical_text (info : IPv6Utils.NetworkInfo) : string :=
  IPv6Utils.compressedNetwork info +++ "/" +++ JS.toString10 (IPv6Utils.prefixLen info).

(** Two analyses that differ at most in the texts that the field [reason]
    quotes. *)
Definition same_verdict (a b : OverlapEngine.Analysis) : Prop :=
  OverlapEngine.hasOverlap a = OverlapEngine.hasOverlap b /\
  OverlapEngine.type a = OverlapEngine.type b /\
  OverlapEngine.severity a = OverlapEngine.severity b /\
  OverlapEngine.confidence a = OverlapEngine.confidence b /\
  OverlapEngine.details a = OverlapEngine.details b.

(** A group with its leading zeros stripped, in the words of the
    specification: the short text is not empty and has no leading zero
    unless it is the single digit 0, and the group is the short text
    after zeros only. *)
Definition no_spare_zero (short : string) : bool :=
  match short with
  | EmptyString => false
  | String c rest => (negb (Ascii.eqb c "0") || JS.is_empty rest)%bool
  end.

Fixpoint after_zeros (group short : string) : bool :=
  (String.eqb group short ||
   match group with
   | String c rest => Ascii.eqb c "0" && after_zeros rest short
   | EmptyString => false
   end)%bool.

Definition stripped_of (group short : string) : Prop :=
  no_spare_zero short = true /\ after_zeros group short = true.

(** What one comparison of the nested loops is made of: the two indices,
    the two texts that are passed to [checkOverlapAdvanced], and what it
    returned. *)
Definition call_of (c : OverlapEngine.Comparison)
  : (nat * nat) * (string * string) * OverlapEngine.AdvancedResult :=
  (compared_indices c,
   (OverlapEngine.vp_prefix (OverlapEngine.first c),
    OverlapEngine.vp_prefix (OverlapEngine.second c)),
   OverlapEngine.outcome c).

(** The overlap check of the prefixes of the batch at two indices. *)
Definition check_at (prefixes : list string) (ij : nat * nat)
  : (nat * nat) * (string * string) * OverlapEngine.AdvancedResult :=
  let pi := nth (fst ij) prefixes EmptyString in
  let pj := nth (snd ij) prefixes EmptyString in
  (ij, (pi, pj), OverlapEngine.checkOverlapAdvanced pi pj).

(** * Properties *)

(** ** The overlap classifier *)

(** Boolean tests of the source recorded as hypotheses, turned into the
    propositions they decide. *)
Ltac reflect_order :=
  repeat rewrite Z.geb_leb in *;
  repeat rewrite Z.gtb_ltb in *;
  repeat (progress
    rewrite ?andb_true_iff, ?andb_false_iff, ?orb_true_iff, ?orb_false_iff,
      ?negb_true_iff, ?negb_false_iff,
      ?Z.leb_le, ?Z.leb_gt, ?Z.ltb_lt, ?Z.ltb_ge, ?Z.eqb_eq, ?Z.eqb_neq in *).

Section Classifier.
Import OverlapEngine.

Variables network1 network2 : Network.

Local Abbreviation a0 := (networkBigInt network1).
Local Abbreviation a1 := (broadcastBigInt network1).
Local Abbreviation b0 := (networkBigInt network2).
Local Abbreviation b1 := (broadcastBigInt network2).

Lemma analyzeOverlapDetails_hasOverlap (s1 e1 s2 e2 : Z) :
  hasOverlap (analyzeOverlapDetails network1 network2 s1 e1 s2 e2) = true.
Proof.
  unfold analyzeOverlapDetails.
  destruct ((s1 =? s2) && (e1 =? e2))%bool; [reflexivity|].
  destruct ((s1 <=? s2) && (e1 >=? e2))%bool; [reflexivity|].
  destruct ((s2 <=? s1) && (e2 >=? e1))%bool; reflexivity.
Qed.

Lemma analyzeOverlap_hasOverlap :
  hasOverlap (analyzeOverlap network1 network2) =
  (((a0 <=? b0) && (a1 >=? b0)) || ((b0 <=? a0) && (b1 >=? a0)))%bool.
Proof.
  unfold analyzeOverlap.
  destruct (((a0 <=? b0) && (a1 >=? b0)) || ((b0 <=? a0) && (b1 >=? a0)))%bool;
    cbn [negb].
  - apply analyzeOverlapDetails_hasOverlap.
  - reflexivity.
Qed.

(** An overlapping pair is classified by [analyzeOverlapDetails]. *)
Lemma analyzeOverlap_overlapping :
  hasOverlap (analyzeOverlap network1 network2) = true ->
  analyzeOverlap network1 network2 =
  analyzeOverlapDetails network1 network2 a0 a1 b0 b1.
Proof.
  rewrite analyzeOverlap_hasOverlap. unfold analyzeOverlap.
  intros ->. reflexivity.
Qed.

Lemma hasOverlap_true_bounds :
  a0 <= a1 -> b0 <= b1 ->
  hasOverlap (analyzeOverlap network1 network2) = true -> a0 <= b1 /\ b0 <= a1.
Proof.
  intros Ha Hb. rewrite analyzeOverlap_hasOverlap.
  intros H. reflect_order. lia.
Qed.

Lemma bounds_hasOverlap_true :
  a0 <= a1 -> b0 <= b1 ->
  a0 <= b1 /\ b0 <= a1 -> hasOverlap (analyzeOverlap network1 network2) = true.
Proof.
  intros Ha Hb [H1 H2]. rewrite analyzeOverlap_hasOverlap.
  reflect_order. lia.
Qed.

End Classifier.

(** C1.  For two ranges with base <= last, the classifier reports an
    overlap exactly when a0 <= b1 and b0 <= a1. *)
Theorem overlap_iff_bounds_cross (network1 network2 : OverlapEngine.Network) :
  OverlapEngine.networkBigInt network1 <= OverlapEngine.broadcastBigInt network1 ->
  OverlapEngine.networkBigInt network2 <= OverlapEngine.broadcastBigInt network2 ->
  (OverlapEngine.hasOverlap (OverlapEngine.analyzeOverlap network1 network2) = true <->
   OverlapEngine.networkBigInt network1 <= OverlapEngine.broadcastBigInt network2 /\
   OverlapEngine.networkBigInt network2 <= OverlapEngine.broadcastBigInt network1).
Proof.
  intros Ha Hb. split.
  - now apply hasOverlap_true_bounds.
  - now apply bounds_hasOverlap_true.
Qed.

Lemma overlap_iff_bounds_cross_witness :
  OverlapEngine.hasOverlap
    (OverlapEngine.analyzeOverlap (range_network 0 10) (range_network 10 20)) = true <->
  0 <= 20 /\ 10 <= 10.
Proof.
  apply (overlap_iff_bounds_cross (range_network 0 10) (range_network 10 20));
    cbn; lia.
Defined.

Section Cases.
Import OverlapEngine.

Lemma analyzeOverlapDetails_type_severity (n1 n2 : Network) (s1 e1 s2 e2 : Z) :
  let r := analyzeOverlapDetails n1 n2 s1 e1 s2 e2 in
  (type r, severity r) =
  if ((s1 =? s2) && (e1 =? e2))%bool then (IDENTICAL, CRITICAL)
  else if ((s1 <=? s2) && (e1 >=? e2))%bool then (FIRST_CONTAINS_SECOND, HIGH)
  else if ((s2 <=? s1) && (e2 >=? e1))%bool then (SECOND_CONTAINS_FIRST, HIGH)
  else (PARTIAL, MEDIUM).
Proof.
  unfold analyzeOverlapDetails.
  destruct ((s1 =? s2) && (e1 =? e2))%bool; [reflexivity|].
  destruct ((s1 <=? s2) && (e1 >=? e2))%bool; [reflexivity|].
  destruct ((s2 <=? s1) && (e2 >=? e1))%bool; reflexivity.
Qed.

Lemma analyzeOverlapDetails_size (n1 n2 : Network) (s1 e1 s2 e2 : Z) :
  overlapSize_of (analyzeOverlapDetails n1 n2 s1 e1 s2 e2) =
  Some (JS.toString10 (Z.min e1 e2 - Z.max s1 s2 + 1)).
Proof.
  unfold analyzeOverlapDetails, overlapSize_of.
  replace (if e1 <? e2 then e1 else e2) with (Z.min e1 e2)
    by (destruct (Z.ltb_spec e1 e2); lia).
  replace (if s1 >? s2 then s1 else s2) with (Z.max s1 s2)
    by (rewrite Z.gtb_ltb; destruct (Z.ltb_spec s2 s1); lia).
  destruct ((s1 =? s2) && (e1 =? e2))%bool; [reflexivity|].
  destruct ((s1 <=? s2) && (e1 >=? e2))%bool; [reflexivity|].
  destruct ((s2 <=? s1) && (e2 >=? e1))%bool; reflexivity.
Qed.

Lemma analyzeNoOverlap_type (n1 n2 : Network) (s1 e1 s2 e2 : Z) :
  type (analyzeNoOverlap n1 n2 s1 e1 s2 e2) = ADJACENT \/
  type (analyzeNoOverlap n1 n2 s1 e1 s2 e2) = NO_OVERLAP.
Proof.
  unfold analyzeNoOverlap. cbn [type].
  destruct ((e1 + 1 =? s2) || (e2 + 1 =? s1))%bool; [left | right]; reflexivity.
Qed.

(** The first case: two ranges with the same bounds. *)
Lemma identical_case (network1 network2 : Network) :
  hasOverlap (analyzeOverlap network1 network2) = true ->
  networkBigInt network1 = networkBigInt network2 ->
  broadcastBigInt network1 = broadcastBigInt network2 ->
  type (analyzeOverlap network1 network2) = IDENTICAL /\
  severity (analyzeOverlap network1 network2) = CRITICAL.
Proof.
  intros H E0 E1. rewrite (analyzeOverlap_overlapping _ _ H).
  pose proof (analyzeOverlapDetails_type_severity network1 network2
    (networkBigInt network1) (broadcastBigInt network1)
    (networkBigInt network2) (broadcastBigInt network2)) as E.
  cbv zeta in E.
  assert (C : ((networkBigInt network1 =? networkBigInt network2) &&
               (broadcastBigInt network1 =? broadcastBigInt network2))%bool = true).
  { apply andb_true_iff. split; now apply Z.eqb_eq. }
  rewrite C in E. now injection E as -> ->.
Qed.

(** C2.  An overlapping pair gets the first case that applies, in the
    order: identical (critical), first contains second (high), second
    contains first (high), partial (medium). *)
Theorem overlap_case_priority (network1 network2 : Network) :
  hasOverlap (analyzeOverlap network1 network2) = true ->
  let a0 := networkBigInt network1 in
  let a1 := broadcastBigInt network1 in
  let b0 := networkBigInt network2 in
  let b1 := broadcastBigInt network2 in
  let r := analyzeOverlap network1 network2 in
  (a0 = b0 /\ a1 = b1 -> type r = IDENTICAL /\ severity r = CRITICAL) /\
  (~ (a0 = b0 /\ a1 = b1) -> a0 <= b0 /\ a1 >= b1 ->
   type r = FIRST_CONTAINS_SECOND /\ severity r = HIGH) /\
  (~ (a0 = b0 /\ a1 = b1) -> ~ (a0 <= b0 /\ a1 >= b1) -> b0 <= a0 /\ b1 >= a1 ->
   type r = SECOND_CONTAINS_FIRST /\ severity r = HIGH) /\
  (~ (a0 = b0 /\ a1 = b1) -> ~ (a0 <= b0 /\ a1 >= b1) -> ~ (b0 <= a0 /\ b1 >= a1) ->
   type r = PARTIAL /\ severity r = MEDIUM).
Proof.
  intros H a0 a1 b0 b1 r. subst r. rewrite (analyzeOverlap_overlapping _ _ H).
  fold a0 a1 b0 b1.
  pose proof (analyzeOverlapDetails_type_severity network1 network2 a0 a1 b0 b1) as E.
  cbv zeta in E.
  destruct ((a0 =? b0) && (a1 =? b1))%bool eqn:C1;
    [|destruct ((a0 <=? b0) && (a1 >=? b1))%bool eqn:C2;
      [|destruct ((b0 <=? a0) && (b1 >=? a1))%bool eqn:C3]];
    injection E as -> ->; reflect_order;
    repeat split; intros; try reflexivity; exfalso; lia.
Qed.

Lemma overlap_case_priority_witness :
  type (analyzeOverlap (range_network 0 10) (range_network 5 20)) = PARTIAL /\
  severity (analyzeOverlap (range_network 0 10) (range_network 5 20)) = MEDIUM.
Proof.
  apply (overlap_case_priority (range_network 0 10) (range_network 5 20));
    cbn; try reflexivity; lia.
Defined.

(** When the classifier answers "first contains second", and when it
    answers "second contains first". *)
Lemma type_first_contains_second (A B : Network) :
  let a0 := networkBigInt A in
  let a1 := broadcastBigInt A in
  let b0 := networkBigInt B in
  let b1 := broadcastBigInt B in
  type (analyzeOverlap A B) = FIRST_CONTAINS_SECOND <->
  ((a0 <= b0 /\ b0 <= a1) \/ (b0 <= a0 /\ a0 <= b1)) /\
  ~ (a0 = b0 /\ a1 = b1) /\ a0 <= b0 /\ b1 <= a1.
Proof.
  intros a0 a1 b0 b1. unfold analyzeOverlap. fold a0 a1 b0 b1.
  destruct (((a0 <=? b0) && (a1 >=? b0)) || ((b0 <=? a0) && (b1 >=? a0)))%bool eqn:Ov;
    cbn [negb].
  - pose proof (analyzeOverlapDetails_type_severity A B a0 a1 b0 b1) as E.
    cbv zeta in E.
    destruct ((a0 =? b0) && (a1 =? b1))%bool eqn:C1;
      [|destruct ((a0 <=? b0) && (a1 >=? b1))%bool eqn:C2;
        [|destruct ((b0 <=? a0) && (b1 >=? a1))%bool eqn:C3]];
      injection E as -> _; reflect_order;
      (split; [intros T; first [discriminate T | lia] | intros T; first [reflexivity | exfalso; lia]]).
  - reflect_order.
    split; [intros T | intros T; exfalso; lia].
    destruct (analyzeNoOverlap_type A B a0 a1 b0 b1) as [E|E];
      rewrite E in T; discriminate T.
Qed.

Lemma type_second_contains_first (A B : Network) :
  let a0 := networkBigInt A in
  let a1 := broadcastBigInt A in
  let b0 := networkBigInt B in
  let b1 := broadcastBigInt B in
  type (analyzeOverlap A B) = SECOND_CONTAINS_FIRST <->
  ((a0 <= b0 /\ b0 <= a1) \/ (b0 <= a0 /\ a0 <= b1)) /\
  ~ (a0 = b0 /\ a1 = b1) /\ ~ (a0 <= b0 /\ b1 <= a1) /\ b0 <= a0 /\ a1 <= b1.
Proof.
  intros a0 a1 b0 b1. unfold analyzeOverlap. fold a0 a1 b0 b1.
  destruct (((a0 <=? b0) && (a1 >=? b0)) || ((b0 <=? a0) && (b1 >=? a0)))%bool eqn:Ov;
    cbn [negb].
  - pose proof (analyzeOverlapDetails_type_severity A B a0 a1 b0 b1) as E.
    cbv zeta in E.
    destruct ((a0 =? b0) && (a1 =? b1))%bool eqn:C1;
      [|destruct ((a0 <=? b0) && (a1 >=? b1))%bool eqn:C2;
        [|destruct ((b0 <=? a0) && (b1 >=? a1))%bool eqn:C3]];
      injection E as -> _; reflect_order;
      (split; [intros T; first [discriminate T | lia] | intros T; first [reflexivity | exfalso; lia]]).
  - reflect_order.
    split; [intros T | intros T; exfalso; lia].
    destruct (analyzeNoOverlap_type A B a0 a1 b0 b1) as [E|E];
      rewrite E in T; discriminate T.
Qed.

Lemma overlapSize_of_overlapping (A B : Network) :
  hasOverlap (analyzeOverlap A B) = true ->
  overlapSize_of (analyzeOverlap A B) =
  Some (JS.toString10 (Z.min (broadcastBigInt A) (broadcastBigInt B) -
                       Z.max (networkBigInt A) (networkBigInt B) + 1)).
Proof.
  intros H. rewrite (analyzeOverlap_overlapping _ _ H).
  apply analyzeOverlapDetails_size.
Qed.

Lemma hasOverlap_iff (A B : Network) :
  hasOverlap (analyzeOverlap A B) = true <->
  (networkBigInt A <= networkBigInt B /\ networkBigInt B <= broadcastBigInt A) \/
  (networkBigInt B <= networkBigInt A /\ networkBigInt A <= broadcastBigInt B).
Proof. rewrite analyzeOverlap_hasOverlap. reflect_order. reflexivity. Qed.

(** C7.  The first range is classified as containing the second exactly
    when, the arguments swapped, the second is classified as contained
    in the first; the two results then report the same overlap size. *)
Theorem containment_symmetry (A B : Network) :
  (type (analyzeOverlap A B) = FIRST_CONTAINS_SECOND <->
   type (analyzeOverlap B A) = SECOND_CONTAINS_FIRST) /\
  (type (analyzeOverlap A B) = FIRST_CONTAINS_SECOND ->
   overlapSize_of (analyzeOverlap A B) = overlapSize_of (analyzeOverlap B A)).
Proof.
  pose proof (type_first_contains_second A B) as F.
  pose proof (type_second_contains_first B A) as S.
  cbv zeta in F, S. split.
  - rewrite F, S. lia.
  - intros T. apply F in T.
    rewrite !overlapSize_of_overlapping by (apply hasOverlap_iff; lia).
    now rewrite Z.min_comm, Z.max_comm.
Qed.

End Cases.

(** ** The percentage of the smaller range *)

Section Percentage.
Import OverlapEngine.

Lemma Math_round_hundredfold (k : Z) : JS.Math_round (inject_Z k * 100) = k * 100.
Proof.
  unfold JS.Math_round, Qfloor, Qplus, Qmult, inject_Z. cbn.
  symmetry. apply Z.div_unique with (r := 1); lia.
Qed.

Lemma hundredth_of_hundredfold (k : Z) : (inject_Z (k * 100) / 100 == inject_Z k)%Q.
Proof. unfold Qeq, Qdiv, Qmult, Qinv, inject_Z. cbn. lia. Qed.

(** The value that [calculateOverlapPercentage] returns is the truncated
    integer quotient: the rounding to two decimals finds no decimals. *)
Lemma calculateOverlapPercentage_integer (network1 network2 : Network) (overlapSize : Z) :
  let size1 := broadcastBigInt network1 - networkBigInt network1 + 1 in
  let size2 := broadcastBigInt network2 - networkBigInt network2 + 1 in
  Z.min size1 size2 <> 0 ->
  (calculateOverlapPercentage network1 network2 overlapSize ==
   inject_Z (Z.quot (overlapSize * 100) (Z.min size1 size2)))%Q.
Proof.
  intros size1 size2 Hnz. unfold calculateOverlapPercentage. fold size1 size2.
  replace (if size1 <? size2 then size1 else size2) with (Z.min size1 size2)
    by (destruct (Z.ltb_spec size1 size2); lia).
  destruct (Z.eqb_spec (Z.min size1 size2) 0) as [E|_]; [contradiction|].
  rewrite Math_round_hundredfold. apply hundredth_of_hundredfold.
Qed.

Lemma percentage_quotient_bounds (os sm : Z) :
  1 <= os <= sm ->
  0 <= Z.quot (os * 100) sm <= 100 /\ (Z.quot (os * 100) sm = 100 <-> os = sm).
Proof.
  intros H. rewrite Z.quot_div_nonneg by lia.
  assert (Hlo : 0 <= os * 100 / sm) by (apply Z.div_pos; lia).
  assert (Hhi : os * 100 / sm <= 100).
  { apply Z.div_le_upper_bound; lia. }
  split; [lia|]. split.
  - intros E.
    assert (sm * (os * 100 / sm) <= os * 100) by (apply Z.mul_div_le; lia).
    rewrite E in *. lia.
  - intros ->. replace (sm * 100) with (100 * sm) by lia. apply Z.div_mul. lia.
Qed.

(** For two overlapping ranges with base <= last, the percentage is the
    truncated quotient of overlapSize * 100 by the smaller size; it lies
    between 0 and 100 and is 100 exactly when one range contains the
    other. *)
Lemma percentage_of_overlapping (network1 network2 : Network) :
  let a0 := networkBigInt network1 in
  let a1 := broadcastBigInt network1 in
  let b0 := networkBigInt network2 in
  let b1 := broadcastBigInt network2 in
  let overlapSize := Z.min a1 b1 - Z.max a0 b0 + 1 in
  let smallerSize := Z.min (a1 - a0 + 1) (b1 - b0 + 1) in
  a0 <= a1 -> b0 <= b1 ->
  hasOverlap (analyzeOverlap network1 network2) = true ->
  exists p : Q,
    percentageOverlap_of (analyzeOverlap network1 network2) = Some p /\
    (p == inject_Z (Z.quot (overlapSize * 100) smallerSize))%Q /\
    (0 <= p)%Q /\ (p <= 100)%Q /\
    ((p == 100)%Q <-> (a0 <= b0 /\ b1 <= a1) \/ (b0 <= a0 /\ a1 <= b1)).
Proof.
  intros a0 a1 b0 b1 overlapSize smallerSize Ha Hb H.
  destruct (hasOverlap_true_bounds _ _ Ha Hb H) as [H1 H2].
  rewrite (analyzeOverlap_overlapping _ _ H). fold a0 a1 b0 b1.
  set (os := (if a1 <? b1 then a1 else b1) - (if a0 >? b0 then a0 else b0) + 1).
  assert (Eos : os = overlapSize).
  { subst os overlapSize. rewrite Z.gtb_ltb.
    destruct (Z.ltb_spec a1 b1), (Z.ltb_spec b0 a0); lia. }
  exists (calculateOverlapPercentage network1 network2 os). split.
  { unfold analyzeOverlapDetails, percentageOverlap_of. fold os.
    destruct ((a0 =? b0) && (a1 =? b1))%bool; [reflexivity|].
    destruct ((a0 <=? b0) && (a1 >=? b1))%bool; [reflexivity|].
    destruct ((b0 <=? a0) && (b1 >=? a1))%bool; reflexivity. }
  assert (Hq : (calculateOverlapPercentage network1 network2 os ==
                inject_Z (Z.quot (overlapSize * 100) smallerSize))%Q).
  { rewrite Eos. apply calculateOverlapPercentage_integer. fold a0 a1 b0 b1. lia. }
  destruct (percentage_quotient_bounds overlapSize smallerSize) as [Hb1 Hb2].
  { subst overlapSize smallerSize. lia. }
  split; [exact Hq|]. rewrite Hq.
  change 0%Q with (inject_Z 0). change 100%Q with (inject_Z 100).
  rewrite <- !Zle_Qle, inject_Z_injective.
  split; [lia|]. split; [lia|]. rewrite Hb2.
  subst overlapSize smallerSize. lia.
Qed.

(** Two ranges that are no blocks of a prefix, [0,2] and [2,4], as a
    direct call of the classifier could pass them.  The overlap is one
    address of a smaller range of three: the quotient of the two BigInts
    loses its decimals before the rounding to two decimals is applied
    and the percentage is 33, where the exact quotient rounded to two
    decimals is 33.33.  The engine builds no such range. *)
Remark percentage_loses_decimals :
  let r := analyzeOverlap (range_network 0 2) (range_network 2 4) in
  hasOverlap r = true /\
  overlapSize_of r = Some "1" /\
  exists p : Q,
    percentageOverlap_of r = Some p /\
    (p == 33)%Q /\
    (percentageOfSmaller_spec 1 3 == 3333 # 100)%Q /\
    ~ (p == percentageOfSmaller_spec 1 3)%Q.
Proof.
  cbv zeta. split; [reflexivity|]. split; [reflexivity|].
  eexists. split; [reflexivity|].
  repeat split; intros; try (vm_compute; reflexivity).
  intros H. vm_compute in H. discriminate.
Qed.

End Percentage.

(** ** Texts: splitting and joining *)

Section Texts.
Import JS.

Lemma append_empty_r (s : string) : s +++ EmptyString = s.
Proof. induction s as [|c s IH]; cbn; [reflexivity | now rewrite IH]. Qed.

Lemma append_cons (c : ascii) (s t : string) : String c s +++ t = String c (s +++ t).
Proof. reflexivity. Qed.

Lemma append_assoc (s t u : string) : (s +++ t) +++ u = s +++ t +++ u.
Proof. induction s as [|c s IH]; cbn; [reflexivity | now rewrite IH]. Qed.

Lemma length_append (s t : string) :
  String.length (s +++ t) = (String.length s + String.length t)%nat.
Proof. induction s as [|c s IH]; cbn; [reflexivity | now rewrite IH]. Qed.

Lemma all_append (p : ascii -> bool) (s t : string) :
  all p (s +++ t) = (all p s && all p t)%bool.
Proof.
  induction s as [|c s IH]; cbn; [reflexivity|].
  rewrite IH. now rewrite andb_assoc.
Qed.

Lemma all_impl (p q : ascii -> bool) (s : string) :
  (forall c, p c = true -> q c = true) -> all p s = true -> all q s = true.
Proof.
  intros Hpq. induction s as [|c s IH]; cbn; [reflexivity|].
  intros H. apply andb_true_iff in H as [H1 H2].
  now rewrite (Hpq _ H1), IH.
Qed.

Lemma is_hex_not_colon (c : ascii) : is_hex c = true -> Ascii.eqb c ":" = false.
Proof.
  destruct c as [[] [] [] [] [] [] [] []]; vm_compute; intros H;
    first [reflexivity | discriminate H].
Qed.

Lemma address_unit_not_bracket (c : ascii) :
  (is_hex c || Ascii.eqb c ":")%bool = true ->
  Ascii.eqb c "[" = false /\ Ascii.eqb c "]" = false.
Proof.
  destruct c as [[] [] [] [] [] [] [] []]; vm_compute; intros H;
    first [split; reflexivity | discriminate H].
Qed.

Lemma hex_nocolon (g : string) : all is_hex g = true -> nocolon g = true.
Proof.
  apply all_impl. intros c H. now rewrite (is_hex_not_colon c H).
Qed.

Lemma join_single (sep g : string) : join sep [g] = g.
Proof. reflexivity. Qed.

Lemma join_cons (sep g h : string) (l : list string) :
  join sep (g :: h :: l) = g +++ sep +++ join sep (h :: l).
Proof. reflexivity. Qed.

(** Splitting a text at the colons and joining the pieces with colons
    gives the text back. *)
Lemma cons_head_join (c : ascii) (l : list string) :
  l <> [] -> join ":" (cons_head c l) = String c (join ":" l).
Proof.
  destruct l as [|g [|h l]]; [congruence | reflexivity | reflexivity].
Qed.

Lemma split1_not_nil (sep : ascii) (s : string) : split1 sep s <> [].
Proof.
  induction s as [|c s IH]; cbn; [discriminate|].
  destruct (Ascii.eqb c sep); [discriminate|].
  destruct (split1 sep s); [contradiction | discriminate].
Qed.

Lemma join_split1 (s : string) : join ":" (split1 ":" s) = s.
Proof.
  induction s as [|c s IH]; [reflexivity|].
  cbn [split1]. destruct (Ascii.eqb_spec c ":") as [->|Hc].
  - pose proof (split1_not_nil ":" s) as Hn.
    destruct (split1 ":" s) as [|g l] eqn:E; [contradiction|].
    rewrite join_cons. cbn. now rewrite <- IH.
  - rewrite cons_head_join by apply split1_not_nil. now rewrite IH.
Qed.

Lemma split1_nocolon (g : string) : nocolon g = true -> split1 ":" g = [g].
Proof.
  induction g as [|c g IH]; cbn; [reflexivity|].
  intros H. apply andb_true_iff in H as [H1 H2].
  apply negb_true_iff in H1. rewrite H1, (IH H2). reflexivity.
Qed.

Lemma split1_group_colon (g r : string) :
  nocolon g = true -> split1 ":" (g +++ String ":" r) = g :: split1 ":" r.
Proof.
  induction g as [|c g IH]; cbn; [reflexivity|].
  intros H. apply andb_true_iff in H as [H1 H2].
  apply negb_true_iff in H1. rewrite H1, (IH H2). reflexivity.
Qed.

(** Joining groups without colons and splitting at the colons gives the
    groups back. *)
Lemma split1_join (gs : list string) :
  gs <> [] -> forallb nocolon gs = true -> split1 ":" (join ":" gs) = gs.
Proof.
  induction gs as [|g gs IH]; [congruence|].
  intros _ H. cbn in H. apply andb_true_iff in H as [Hg Hgs].
  destruct gs as [|h gs].
  - rewrite join_single. now apply split1_nocolon.
  - rewrite join_cons. cbn [String.append].
    rewrite (split1_group_colon _ _ Hg), IH; [reflexivity | discriminate | exact Hgs].
Qed.

End Texts.

(** ** Texts: the double colon and the brackets *)

Section DoubleColon.
Import JS.

Lemma prefix_cons (a b : ascii) (s t : string) :
  String.prefix (String a s) (String b t) = (Ascii.eqb b a && String.prefix s t)%bool.
Proof.
  cbn [String.prefix]. destruct (ascii_dec a b) as [->|H].
  - now rewrite Ascii.eqb_refl.
  - replace (Ascii.eqb b a) with false; [reflexivity|].
    symmetry. apply Ascii.eqb_neq. congruence.
Qed.

Lemma includes_dcolon_step (c : ascii) (r : string) :
  includes "::" (String c r) =
  ((Ascii.eqb c ":" &&
    match r with String c' _ => Ascii.eqb c' ":" | EmptyString => false end) ||
   includes "::" r)%bool.
Proof.
  cbn [includes]. rewrite prefix_cons. f_equal. f_equal.
  destruct r as [|c' r]; [reflexivity|].
  rewrite prefix_cons. destruct r; apply andb_true_r.
Qed.

Lemma tidy_no_dcolon (s : string) : tidy s = true -> includes "::" s = false.
Proof.
  induction s as [|c s IH]; [reflexivity|].
  rewrite includes_dcolon_step. cbn [tidy]. destruct s as [|c' s].
  - intros _. now rewrite andb_false_r.
  - intros H. apply andb_true_iff in H as [H1 H2].
    apply negb_true_iff in H1. now rewrite H1, (IH H2).
Qed.

Lemma includes_dcolon_mid (s1 s2 : string) :
  includes "::" (s1 +++ "::" +++ s2) = true.
Proof.
  induction s1 as [|c s1 IH].
  - cbn [String.append]. rewrite includes_dcolon_step. reflexivity.
  - rewrite append_cons, includes_dcolon_step, IH. apply orb_true_r.
Qed.

Lemma tidy_nocolon (g : string) : nocolon g = true -> tidy g = true.
Proof.
  induction g as [|c g IH]; [reflexivity|].
  cbn. intros H. apply andb_true_iff in H as [H1 H2].
  apply negb_true_iff in H1. rewrite H1. destruct g; [reflexivity|].
  cbn [andb negb]. exact (IH H2).
Qed.

Lemma tidy_cons2 (c c' : ascii) (r : string) :
  tidy (String c (String c' r)) =
  (negb (Ascii.eqb c ":" && Ascii.eqb c' ":") && tidy (String c' r))%bool.
Proof. reflexivity. Qed.

Lemma tidy_group_colon (g : string) (c : ascii) (r : string) :
  nocolon g = true -> g <> EmptyString -> Ascii.eqb c ":" = false ->
  tidy (String c r) = true -> tidy (g +++ String ":" (String c r)) = true.
Proof.
  intros Hg Hne Hc Hr. induction g as [|a g IH]; [congruence|].
  cbn in Hg. apply andb_true_iff in Hg as [Ha Hg]. apply negb_true_iff in Ha.
  destruct g as [|a' g].
  - cbn [String.append]. rewrite !tidy_cons2, Ha, Hc, Hr. reflexivity.
  - rewrite !append_cons, tidy_cons2, Ha. cbn [andb negb].
    rewrite <- append_cons. apply IH; [exact Hg | discriminate].
Qed.

Lemma join_solid_head (g : string) (gs : list string) :
  solid g = true ->
  exists c r, join ":" (g :: gs) = String c r /\ Ascii.eqb c ":" = false.
Proof.
  intros H. apply andb_true_iff in H as [H1 H2].
  destruct g as [|c g]; [discriminate|].
  cbn in H2. apply andb_true_iff in H2 as [Hc _]. apply negb_true_iff in Hc.
  destruct gs as [|h gs].
  - exists c, g. now split.
  - exists c, (g +++ ":" +++ join ":" (h :: gs)). now split.
Qed.

Lemma tidy_join (gs : list string) :
  forallb solid gs = true -> tidy (join ":" gs) = true.
Proof.
  induction gs as [|g gs IH]; [reflexivity|].
  cbn [forallb]. intros H. apply andb_true_iff in H as [Hg Hgs].
  pose proof Hg as Hg'. apply andb_true_iff in Hg' as [Hne Hnc].
  destruct gs as [|h gs].
  - rewrite join_single. now apply tidy_nocolon.
  - rewrite join_cons. cbn [String.append].
    cbn [forallb] in Hgs. pose proof Hgs as Hh. apply andb_true_iff in Hh as [Hh _].
    destruct (join_solid_head h gs Hh) as (c & r & E & Hc).
    specialize (IH Hgs). rewrite E in *.
    apply tidy_group_colon; try assumption.
    destruct g; [discriminate | discriminate].
Qed.

Lemma split_dcolon_step (c : ascii) (r : string) :
  (Ascii.eqb c ":" &&
   match r with String c' _ => Ascii.eqb c' ":" | EmptyString => false end)%bool = false ->
  split_dcolon (String c r) = cons_head c (split_dcolon r).
Proof.
  intros H. cbn [split_dcolon]. destruct r as [|c' r]; [reflexivity|].
  now rewrite H.
Qed.

Lemma tidy_step (c : ascii) (r : string) :
  tidy (String c r) = true ->
  (Ascii.eqb c ":" &&
   match r with String c' _ => Ascii.eqb c' ":" | EmptyString => false end)%bool = false.
Proof.
  cbn [tidy]. destruct r as [|c' r].
  - intros _. apply andb_false_r.
  - intros H. apply andb_true_iff in H as [H _]. now apply negb_true_iff in H.
Qed.

Lemma tidy_tail (c c' : ascii) (r : string) :
  tidy (String c (String c' r)) = true -> tidy (String c' r) = true.
Proof. cbn [tidy]. intros H. now apply andb_true_iff in H as [_ H]. Qed.

Lemma split_dcolon_tidy (s : string) : tidy s = true -> split_dcolon s = [s].
Proof.
  induction s as [|c s IH]; [reflexivity|].
  intros H. rewrite split_dcolon_step by now apply tidy_step.
  destruct s as [|c' s]; [reflexivity|].
  rewrite IH by (now apply tidy_tail with c). reflexivity.
Qed.

(** A tidy text followed by a double colon is the first piece of the
    split. *)
Lemma split_dcolon_mid (s1 s2 : string) :
  tidy s1 = true ->
  split_dcolon (s1 +++ "::" +++ s2) = s1 :: split_dcolon s2.
Proof.
  induction s1 as [|c s1 IH]; [reflexivity|].
  intros H. rewrite append_cons. destruct s1 as [|c' s1].
  - cbn [tidy] in H. apply negb_true_iff in H.
    rewrite split_dcolon_step by (cbn [String.append]; now rewrite H).
    rewrite IH by reflexivity. reflexivity.
  - rewrite split_dcolon_step.
    + rewrite IH by (now apply tidy_tail with c). reflexivity.
    + rewrite append_cons. now apply tidy_step in H.
Qed.

Lemma drop_last_if_absent (x : ascii) (s : string) :
  all (fun c => negb (Ascii.eqb c x)) s = true -> drop_last_if x s = s.
Proof.
  induction s as [|c s IH]; [reflexivity|].
  cbn. intros H. apply andb_true_iff in H as [H1 H2].
  apply negb_true_iff in H1. destruct s as [|c' s].
  - now rewrite H1.
  - now rewrite (IH H2).
Qed.

(** The brackets: nothing to remove in a text of hexadecimal digits and
    colons. *)
Lemma strip_brackets_address (s : string) :
  address_units s = true -> strip_brackets s = s.
Proof.
  intros H. assert (Hr : all (fun c => negb (Ascii.eqb c "]")) s = true).
  { revert H. apply all_impl. intros c Hc.
    destruct (address_unit_not_bracket c Hc) as [_ ->]. reflexivity. }
  destruct s as [|c s]; [reflexivity|].
  unfold strip_brackets.
  cbn in H. apply andb_true_iff in H as [Hc _].
  destruct (address_unit_not_bracket c Hc) as [-> _].
  now apply drop_last_if_absent.
Qed.

End DoubleColon.

(** ** Groups: padding and stripping *)

Section Groups.
Import JS IPv6Utils.

Lemma group4_shape (g : string) :
  group4 g = true ->
  exists a b c d,
    g = String a (String b (String c (String d EmptyString))) /\
    is_hex a = true /\ is_hex b = true /\ is_hex c = true /\ is_hex d = true.
Proof.
  unfold group4. intros H. apply andb_true_iff in H as [L H].
  destruct g as [|a [|b [|c [|d [|e g]]]]]; try discriminate L.
  cbn in H. repeat (apply andb_true_iff in H as [? H]).
  exists a, b, c, d. repeat split; assumption.
Qed.

Lemma HEX_GROUP_shape (g : string) :
  HEX_GROUP g = true ->
  all is_hex g = true /\ (1 <= String.length g <= 4)%nat.
Proof.
  unfold HEX_GROUP. intros H. apply andb_true_iff in H as [H Hx].
  apply andb_true_iff in H as [L1 L2].
  apply Nat.leb_le in L1, L2. now repeat split.
Qed.

Lemma group4_HEX_GROUP (g : string) : group4 g = true -> HEX_GROUP g = true.
Proof.
  intros H. destruct (group4_shape g H) as (a & b & c & d & -> & Ha & Hb & Hc & Hd).
  unfold HEX_GROUP. cbn. now rewrite Ha, Hb, Hc, Hd.
Qed.

Lemma group4_padStart (g : string) : group4 g = true -> padStart 4 "0" g = g.
Proof.
  intros H. destruct (group4_shape g H) as (a & b & c & d & -> & _).
  reflexivity.
Qed.

(** Padding a valid group gives a group of an expanded text. *)
Lemma HEX_GROUP_padStart (g : string) :
  HEX_GROUP g = true -> group4 (padStart 4 "0" g) = true.
Proof.
  intros H. destruct (HEX_GROUP_shape g H) as (Hx & L1 & L2).
  destruct g as [|a [|b [|c [|d [|e g]]]]]; cbn in L1, L2; try lia;
    cbn in Hx; repeat (apply andb_true_iff in Hx as [? Hx]);
    unfold group4; cbn; repeat match goal with E : is_hex _ = true |- _ => rewrite E; clear E end;
    reflexivity.
Qed.

Lemma HEX_GROUP_solid (g : string) : HEX_GROUP g = true -> solid g = true.
Proof.
  intros H. destruct (HEX_GROUP_shape g H) as (Hx & L1 & L2).
  unfold solid. rewrite (hex_nocolon g Hx).
  destruct g; [cbn in L1; lia | reflexivity].
Qed.

Ltac zero_or_not c :=
  let E := fresh "E" in
  destruct (Ascii.eqb c "0") eqn:E;
  [apply Ascii.eqb_eq in E; subst c|].

(** Stripping the leading zeros of a group of an expanded text and
    padding the result gives the group back. *)
Lemma padStart_strip_group (g : string) :
  group4 g = true -> padStart 4 "0" (strip_group g) = g.
Proof.
  intros H. destruct (group4_shape g H) as (a & b & c & d & -> & _).
  unfold strip_group. cbn [drop_leading_zeros].
  zero_or_not a; [|reflexivity].
  zero_or_not b; [|reflexivity].
  zero_or_not c; [|reflexivity].
  zero_or_not d; reflexivity.
Qed.

Lemma strip_group_HEX_GROUP (g : string) :
  group4 g = true -> HEX_GROUP (strip_group g) = true.
Proof.
  intros H. destruct (group4_shape g H) as (a & b & c & d & -> & Ha & Hb & Hc & Hd).
  unfold strip_group, HEX_GROUP. cbn [drop_leading_zeros].
  zero_or_not a; [|cbn; now rewrite Ha, Hb, Hc, Hd].
  zero_or_not b; [|cbn; now rewrite Hb, Hc, Hd].
  zero_or_not c; [|cbn; now rewrite Hc, Hd].
  zero_or_not d; [reflexivity|cbn; now rewrite Hd].
Qed.

Lemma forallb_map {A B} (f : A -> B) (p : B -> bool) (q : A -> bool) (l : list A) :
  (forall x, q x = true -> p (f x) = true) ->
  forallb q l = true -> forallb p (map f l) = true.
Proof.
  intros Hpq. induction l as [|x l IH]; [reflexivity|].
  cbn. intros H. apply andb_true_iff in H as [H1 H2].
  now rewrite (Hpq _ H1), IH.
Qed.

Lemma map_id_on {A} (f : A -> A) (q : A -> bool) (l : list A) :
  (forall x, q x = true -> f x = x) -> forallb q l = true -> map f l = l.
Proof.
  intros Hq. induction l as [|x l IH]; [reflexivity|].
  cbn. intros H. apply andb_true_iff in H as [H1 H2].
  now rewrite (Hq _ H1), IH.
Qed.

Lemma forallb_impl {A} (p q : A -> bool) (l : list A) :
  (forall x, p x = true -> q x = true) -> forallb p l = true -> forallb q l = true.
Proof.
  intros Hpq H. rewrite <- (map_id l). now apply forallb_map with (q := p).
Qed.

Lemma forallb_firstn {A} (p : A -> bool) (n : nat) (l : list A) :
  forallb p l = true -> forallb p (firstn n l) = true.
Proof.
  revert n. induction l as [|x l IH]; intros [|n]; cbn; try reflexivity.
  intros H. apply andb_true_iff in H as [H1 H2]. now rewrite H1, IH.
Qed.

Lemma forallb_skipn {A} (p : A -> bool) (n : nat) (l : list A) :
  forallb p l = true -> forallb p (skipn n l) = true.
Proof.
  revert n. induction l as [|x l IH]; intros [|n]; cbn; try reflexivity.
  - trivial.
  - intros H. apply andb_true_iff in H as [H1 H2]. now apply IH.
Qed.

(** The units of a text made of groups joined with colons. *)
Lemma address_units_join (gs : list string) :
  forallb (fun g => all is_hex g) gs = true -> address_units (join ":" gs) = true.
Proof.
  induction gs as [|g gs IH]; [reflexivity|].
  cbn [forallb]. intros H. apply andb_true_iff in H as [Hg Hgs].
  assert (Hu : address_units g = true).
  { revert Hg. apply all_impl. intros c ->. reflexivity. }
  destruct gs as [|h gs]; [exact Hu|].
  rewrite join_cons. unfold address_units in *.
  rewrite !all_append, Hu, (IH Hgs). reflexivity.
Qed.

End Groups.

(** ** The search for the longest run of zero groups *)

Section LongestRun.
Import IPv6Utils.

Variable groups : list string.

Lemma run_invariant_init : run_invariant groups 0 run_init.
Proof.
  unfold run_invariant, run_init. cbn.
  repeat split; try lia; intros; lia.
Qed.

(** A run of zero groups among the first [n] that reaches into the
    current run lies inside it. *)
Lemma run_inside_current (n : nat) (st : RunState) (s l : nat) :
  run_invariant groups n st ->
  (1 <= l)%nat -> (s + l <= n)%nat ->
  (forall i : nat, (s <= i < s + l)%nat -> zero_at groups i = true) ->
  Z.of_nat n - currentLength st < Z.of_nat (s + l) ->
  Z.of_nat n - currentLength st <= Z.of_nat s.
Proof.
  intros (Hcl & _ & _ & Hstop & _) Hl Hn Hz Hin.
  destruct (Z_lt_le_dec (Z.of_nat s) (Z.of_nat n - currentLength st)) as [Hlt|]; [|lia].
  exfalso.
  assert (Hc : currentLength st < Z.of_nat n) by lia.
  specialize (Hstop Hc).
  rewrite Hz in Hstop; [discriminate|]. lia.
Qed.

Lemma run_commit_spec (n : nat) (st : RunState) :
  run_invariant groups n st -> best_run_spec groups n (run_commit st).
Proof.
  intros Inv. pose proof Inv as (Hcl & Hcs & Hcur & Hstop & Hbl & Hbest & Hruns).
  unfold best_run_spec, run_commit. rewrite Z.gtb_ltb.
  destruct (Z.ltb_spec (bestLength st) (currentLength st)) as [Hgt|Hle]; cbn.
  - assert (E : currentStart st = Z.of_nat n - currentLength st).
    { rewrite Hcs. destruct (Z.eqb_spec (currentLength st) 0); lia. }
    rewrite E. split; [lia|]. split.
    + intros _. split; [lia|]. split; [lia|]. intros i Hi. apply Hcur. lia.
    + intros s l Hl Hn Hz.
      destruct (Z_le_gt_dec (Z.of_nat (s + l)) (Z.of_nat n - currentLength st)) as [Hold|Hnew].
      * destruct (Hruns s l Hl Hold Hz) as [H1 _]. lia.
      * pose proof (run_inside_current n st s l Inv Hl Hn Hz ltac:(lia)). lia.
  - split; [lia|]. split.
    + intros Hpos. destruct (Hbest Hpos) as (H1 & H2 & H3). repeat split; try lia. exact H3.
    + intros s l Hl Hn Hz.
      destruct (Z_le_gt_dec (Z.of_nat (s + l)) (Z.of_nat n - currentLength st)) as [Hold|Hnew].
      * exact (Hruns s l Hl Hold Hz).
      * pose proof (run_inside_current n st s l Inv Hl Hn Hz ltac:(lia)) as Hs.
        split; [lia|]. intros El.
        assert (Hpos : 0 < bestLength st) by lia.
        destruct (Hbest Hpos) as (H1 & H2 & H3). lia.
Qed.

Lemma run_step_invariant (n : nat) (st : RunState) :
  run_invariant groups n st -> run_invariant groups (S n) (run_step groups st n).
Proof.
  intros Inv. pose proof Inv as (Hcl & Hcs & Hcur & Hstop & Hbl & Hbest & Hruns).
  unfold run_step. fold (zero_at groups n).
  destruct (zero_at groups n) eqn:Zn.
  - unfold run_invariant. cbn [bestStart bestLength currentStart currentLength].
    rewrite Nat2Z.inj_succ.
    split; [lia|]. split.
    { destruct (Z.eqb_spec (currentLength st + 1) 0); [lia|].
      rewrite Hcs. destruct (Z.eqb_spec (currentLength st) 0) as [E0|N0].
      - cbn. lia.
      - destruct (Z.eqb_spec (Z.of_nat n - currentLength st) (-1)); lia. }
    split.
    { intros i Hi. destruct (Nat.eq_dec i n) as [->|Hne]; [exact Zn|].
      apply Hcur. lia. }
    split.
    { intros Hc. replace (Z.succ (Z.of_nat n) - (currentLength st + 1) - 1)
        with (Z.of_nat n - currentLength st - 1) by lia.
      apply Hstop. lia. }
    split; [lia|]. split.
    { intros Hpos. destruct (Hbest Hpos) as (H1 & H2 & H3).
      repeat split; try lia. exact H3. }
    intros s l Hl Hn Hz. apply Hruns; try assumption. lia.
  - pose proof (run_commit_spec n st Inv) as (Cbl & Cbest & Cruns).
    unfold run_invariant. cbn [bestStart bestLength currentStart currentLength].
    rewrite Nat2Z.inj_succ.
    split; [lia|]. split; [reflexivity|]. split; [intros i Hi; lia|]. split.
    { intros _. replace (Z.to_nat (Z.succ (Z.of_nat n) - 0 - 1)) with n by lia.
      exact Zn. }
    split; [exact Cbl|]. split.
    { intros Hpos. destruct (Cbest Hpos) as (H1 & H2 & H3).
      repeat split; try lia. exact H3. }
    intros s l Hl Hn Hz.
    assert (Hle : (s + l <= n)%nat).
    { destruct (Nat.le_gt_cases (s + l) n) as [|Hgt]; [assumption|].
      exfalso. rewrite (Hz n) in Zn; [discriminate | lia]. }
    exact (Cruns s l Hl Hle Hz).
Qed.

Lemma run_loop_invariant (n : nat) :
  run_invariant groups n (fold_left (run_step groups) (seq 0 n) run_init).
Proof.
  induction n as [|n IH]; [apply run_invariant_init|].
  rewrite seq_S, fold_left_app. cbn [fold_left Nat.add].
  now apply run_step_invariant.
Qed.

(** The loop and its final check leave in the best run a leftmost
    longest run of zero groups among the eight groups. *)
Lemma longest_zero_run_spec : best_run_spec groups 8 (longest_zero_run groups).
Proof. apply run_commit_spec, (run_loop_invariant 8). Qed.

End LongestRun.

(** ** Expansion and compression of expanded texts *)

Section Codec.
Import JS IPv6Utils.

Lemma zero_at_iff (groups : list string) (i : nat) :
  zero_at groups i = true <-> nth_error groups i = Some "0000".
Proof.
  unfold zero_at, is_zero_group. destruct (nth_error groups i) as [g|].
  - rewrite String.eqb_eq. split; congruence.
  - split; discriminate.
Qed.

Lemma skipn_nth_error {A} (l : list A) (n : nat) (x : A) :
  nth_error l n = Some x -> skipn n l = x :: skipn (S n) l.
Proof.
  revert l. induction n as [|n IH]; intros [|y l] H; try discriminate.
  - cbn in H. injection H as ->. reflexivity.
  - cbn in H. cbn [skipn]. rewrite (IH l H). reflexivity.
Qed.

Lemma zero_run_repeat (groups : list string) (s l : nat) :
  zero_run groups s l -> firstn l (skipn s groups) = repeat "0000" l.
Proof.
  revert s. induction l as [|l IH]; intros s H; [reflexivity|].
  rewrite (skipn_nth_error groups s "0000") by (apply H; lia).
  cbn [firstn repeat]. f_equal. apply IH. intros i Hi. apply H. lia.
Qed.

(** The groups around a run of zero groups, with the run put back. *)
Lemma zero_run_split (groups : list string) (s l : nat) :
  zero_run groups s l ->
  firstn s groups ++ repeat "0000" l ++ skipn (s + l) groups = groups.
Proof.
  intros H. rewrite <- (zero_run_repeat groups s l H).
  rewrite Nat.add_comm, <- skipn_skipn.
  now rewrite firstn_skipn, firstn_skipn.
Qed.

Lemma zero_run_bound (groups : list string) (s l : nat) :
  zero_run groups s l -> (1 <= l)%nat -> (s + l <= List.length groups)%nat.
Proof.
  intros H Hl. assert (E : nth_error groups (s + l - 1) = Some "0000") by (apply H; lia).
  assert (s + l - 1 < List.length groups)%nat; [|lia].
  apply nth_error_Some. congruence.
Qed.

Variable groups : list string.
Hypothesis Hgroups : expanded_groups groups.

Let Hlen : List.length groups = 8%nat := proj1 Hgroups.
Let Hall : forallb group4 groups = true := proj2 Hgroups.

Lemma groups_not_nil : groups <> [].
Proof. intros E. rewrite E in Hlen. discriminate. Qed.

Lemma group4_solid (g : string) : group4 g = true -> solid g = true.
Proof. intros H. now apply HEX_GROUP_solid, group4_HEX_GROUP. Qed.

Lemma group4_hex (g : string) : group4 g = true -> all is_hex g = true.
Proof. unfold group4. intros H. now apply andb_true_iff in H as [_ H]. Qed.

Lemma groups_nocolon : forallb nocolon groups = true.
Proof.
  apply forallb_impl with (p := group4); [|exact Hall].
  intros g H. now apply hex_nocolon, group4_hex.
Qed.

Lemma split1_expanded : split1 ":" (join ":" groups) = groups.
Proof. apply split1_join; [apply groups_not_nil | apply groups_nocolon]. Qed.

Lemma address_units_expanded : address_units (join ":" groups) = true.
Proof.
  apply address_units_join.
  apply forallb_impl with (p := group4); [exact group4_hex | exact Hall].
Qed.

(** An expanded text expands to itself. *)
Lemma performExpansion_expanded :
  performExpansion (join ":" groups) = Some (join ":" groups).
Proof.
  unfold performExpansion.
  rewrite (strip_brackets_address _ address_units_expanded).
  rewrite tidy_no_dcolon.
  - cbn [negb]. rewrite split1_expanded, Hlen. cbn [Nat.eqb negb].
    f_equal. f_equal. apply map_id_on with (q := group4); [|exact Hall].
    apply group4_padStart.
  - apply tidy_join.
    apply forallb_impl with (p := group4); [exact group4_solid | exact Hall].
Qed.

(** The output of the four-way case distinction that ends
    [performCompression]. *)
Lemma compression_cases (before after : list string) :
  (if (is_nil before && is_nil after)%bool then "::"
   else if is_nil before then "::" +++ join ":" after
   else if is_nil after then join ":" before +++ "::"
   else join ":" before +++ "::" +++ join ":" after) =
  join ":" before +++ "::" +++ join ":" after.
Proof.
  destruct before as [|b before], after as [|a after]; cbn [is_nil andb];
    try reflexivity.
Qed.

(** What [performCompression] returns on an expanded text, in terms of
    the best run that the search has found. *)
Lemma performCompression_expanded :
  let st := longest_zero_run groups in
  performCompression (join ":" groups) =
  if bestLength st <? 2 then join ":" (map strip_group groups)
  else compressed_text groups (Z.to_nat (bestStart st)) (Z.to_nat (bestLength st)).
Proof.
  intros st. unfold performCompression, expandAddress.
  rewrite performExpansion_expanded, split1_expanded. fold st.
  destruct (Z.ltb_spec (bestLength st) 2) as [|Hl]; [reflexivity|].
  rewrite compression_cases. unfold compressed_text.
  destruct (longest_zero_run_spec groups) as (_ & Hbest & _). fold st in Hbest.
  destruct (Hbest ltac:(lia)) as (Hs & _ & _).
  unfold slice_to, slice_from, slice_index.
  destruct (Z.ltb_spec (bestStart st) 0); [lia|].
  destruct (Z.ltb_spec (bestStart st + bestLength st) 0); [lia|].
  rewrite Z2Nat.inj_add by lia. reflexivity.
Qed.

Lemma strip_groups_HEX (l : list string) :
  forallb group4 l = true -> forallb HEX_GROUP (map strip_group l) = true.
Proof. apply forallb_map. apply strip_group_HEX_GROUP. Qed.

Lemma strip_groups_solid (l : list string) :
  forallb group4 l = true -> forallb solid (map strip_group l) = true.
Proof.
  apply forallb_map. intros g H. now apply HEX_GROUP_solid, strip_group_HEX_GROUP.
Qed.

Lemma pad_strip_groups (l : list string) :
  forallb group4 l = true -> map (padStart 4 "0") (map strip_group l) = l.
Proof.
  intros H. rewrite map_map. apply map_id_on with (q := group4); [|exact H].
  apply padStart_strip_group.
Qed.

Lemma solid_hex_units (l : list string) :
  forallb HEX_GROUP l = true -> forallb (fun g => all is_hex g) l = true.
Proof. apply forallb_impl. intros g H. now destruct (HEX_GROUP_shape g H). Qed.

Lemma solid_nocolon (l : list string) :
  forallb solid l = true -> forallb nocolon l = true.
Proof.
  apply forallb_impl. unfold solid. intros g H. now apply andb_true_iff in H as [_ H].
Qed.

Lemma filter_solid (l : list string) :
  forallb solid l = true -> filter (fun g => negb (is_empty g)) l = l.
Proof.
  induction l as [|g l IH]; [reflexivity|].
  cbn. intros H. apply andb_true_iff in H as [Hg Hl].
  unfold solid in Hg. apply andb_true_iff in Hg as [-> _].
  now rewrite IH.
Qed.

(** The groups read back from one side of the double colon. *)
Lemma groups_of_join (l : list string) :
  forallb solid l = true -> groups_of (Some (join ":" l)) = l.
Proof.
  intros H. unfold groups_of. destruct l as [|g l]; [reflexivity|].
  cbn [forallb] in H. pose proof H as H'. apply andb_true_iff in H' as [Hg _].
  destruct (join_solid_head g l Hg) as (c & r & E & _).
  rewrite E. cbn [is_empty]. rewrite <- E.
  rewrite split1_join; [| discriminate | now apply solid_nocolon].
  now apply filter_solid.
Qed.

End Codec.

(** ** Compression undone by expansion *)

Section RoundTrip.
Import JS IPv6Utils.

Lemma forallb_repeat {A} (p : A -> bool) (x : A) (n : nat) :
  p x = true -> forallb p (repeat x n) = true.
Proof. intros H. induction n as [|n IH]; cbn; [reflexivity | now rewrite H, IH]. Qed.

Lemma map_repeat {A B} (f : A -> B) (x : A) (n : nat) : map f (repeat x n) = repeat (f x) n.
Proof. induction n as [|n IH]; cbn; [reflexivity | now rewrite IH]. Qed.

(** The text with a double colon in place of a run of zero groups
    expands to the expanded text. *)
Lemma performExpansion_compressed_text (groups : list string) (s l : nat) :
  expanded_groups groups -> (s + l <= 8)%nat -> zero_run groups s l ->
  performExpansion (compressed_text groups s l) = Some (join ":" groups).
Proof.
  intros [Hlen Hall] Hsl Hrun. unfold compressed_text.
  set (before := map strip_group (firstn s groups)).
  set (after := map strip_group (skipn (s + l) groups)).
  assert (Hb4 : forallb group4 (firstn s groups) = true) by now apply forallb_firstn.
  assert (Ha4 : forallb group4 (skipn (s + l) groups) = true) by now apply forallb_skipn.
  assert (Hbs : forallb solid before = true) by now apply strip_groups_solid.
  assert (Has : forallb solid after = true) by now apply strip_groups_solid.
  assert (Hbh : forallb HEX_GROUP before = true) by now apply strip_groups_HEX.
  assert (Hah : forallb HEX_GROUP after = true) by now apply strip_groups_HEX.
  assert (Hunits : address_units (join ":" before +++ "::" +++ join ":" after) = true).
  { unfold address_units. rewrite !all_append.
    fold (address_units (join ":" before)). fold (address_units (join ":" after)).
    rewrite !address_units_join by now apply solid_hex_units. reflexivity. }
  unfold performExpansion. rewrite (strip_brackets_address _ Hunits).
  rewrite includes_dcolon_mid. cbn [negb].
  rewrite split_dcolon_mid by now apply tidy_join.
  rewrite split_dcolon_tidy by now apply tidy_join.
  cbn [nth_error]. rewrite !groups_of_join by assumption.
  assert (Hcount : (List.length before + List.length after = 8 - l)%nat).
  { subst before after. rewrite !length_map, length_firstn, length_skipn. lia. }
  rewrite Hcount.
  replace (8 - Z.of_nat (8 - l)) with (Z.of_nat l) by lia.
  destruct (Z.ltb_spec (Z.of_nat l) 0); [lia|]. rewrite Nat2Z.id.
  rewrite !forallb_app, Hbh, Hah, forallb_repeat by reflexivity. cbn [andb].
  rewrite !map_app, map_repeat. subst before after.
  rewrite !pad_strip_groups by assumption.
  change (padStart 4 "0" "0000") with "0000".
  now rewrite zero_run_split.
Qed.

Lemma best_run_zero_run (groups : list string) :
  let st := longest_zero_run groups in
  0 < bestLength st ->
  zero_run groups (Z.to_nat (bestStart st)) (Z.to_nat (bestLength st)) /\
  (Z.to_nat (bestStart st) + Z.to_nat (bestLength st) <= 8)%nat.
Proof.
  intros st Hpos. destruct (longest_zero_run_spec groups) as (_ & Hbest & _).
  fold st in Hbest. destruct (Hbest Hpos) as (H1 & H2 & H3). split.
  - intros i Hi. apply zero_at_iff, H3. lia.
  - lia.
Qed.

(** Expanding what [performCompression] makes of an expanded text gives
    the text back. *)
Lemma performExpansion_performCompression (groups : list string) :
  expanded_groups groups ->
  performExpansion (performCompression (join ":" groups)) = Some (join ":" groups).
Proof.
  intros Hg. pose proof Hg as [Hlen Hall].
  rewrite (performCompression_expanded groups Hg).
  destruct (Z.ltb_spec (bestLength (longest_zero_run groups)) 2) as [Hlt|Hge].
  - assert (Hs : forallb solid (map strip_group groups) = true)
      by now apply strip_groups_solid.
    assert (Hh : forallb HEX_GROUP (map strip_group groups) = true)
      by now apply strip_groups_HEX.
    unfold performExpansion.
    rewrite strip_brackets_address by now apply address_units_join, solid_hex_units.
    rewrite tidy_no_dcolon by now apply tidy_join. cbn [negb].
    rewrite split1_join.
    + rewrite length_map, Hlen. cbn [Nat.eqb negb].
      now rewrite pad_strip_groups.
    + destruct groups; [discriminate Hlen | discriminate].
    + now apply solid_nocolon.
  - destruct (best_run_zero_run groups ltac:(lia)) as [Hrun Hb].
    now apply performExpansion_compressed_text.
Qed.

(** A text that [isValidFormat] accepts expands to an expanded text. *)
Lemma performExpansion_valid (text : string) :
  isValidFormat text = true ->
  exists groups, expanded_groups groups /\ performExpansion text = Some (join ":" groups).
Proof.
  unfold isValidFormat. destruct (is_empty text); [discriminate|].
  destruct (all _ text) eqn:Hunits; [|discriminate]. cbn [negb].
  destruct (Nat.ltb 1 (count_dcolon text)); [discriminate|].
  destruct (includes ":::" text); [discriminate|].
  unfold performExpansion. rewrite (strip_brackets_address _ Hunits).
  destruct (includes "::" text); cbn [negb].
  - unfold validateCompressedFormat.
    destruct (Nat.eqb (List.length (split_dcolon text)) 2); [|discriminate]. cbn [negb].
    set (before := groups_of (nth_error (split_dcolon text) 0)).
    set (after := groups_of (nth_error (split_dcolon text) 1)).
    destruct (Nat.ltb_spec 8 (List.length before + List.length after)) as [|Hle];
      [discriminate|].
    intros Hhex. rewrite forallb_app in Hhex. apply andb_true_iff in Hhex as [Hb Ha].
    destruct (Z.ltb_spec (8 - Z.of_nat (List.length before + List.length after)) 0);
      [lia|].
    set (zeros := repeat "0000" (Z.to_nat (8 - Z.of_nat (List.length before + List.length after)))).
    assert (Hall : forallb HEX_GROUP (before ++ zeros ++ after) = true).
    { rewrite !forallb_app, Hb, Ha. unfold zeros. now rewrite forallb_repeat. }
    rewrite Hall. eexists. split; [|reflexivity]. split.
    + rewrite length_map, !length_app. unfold zeros. rewrite repeat_length. lia.
    + revert Hall. apply forallb_map. exact HEX_GROUP_padStart.
  - unfold validateFullFormat.
    destruct (Nat.eqb_spec (List.length (split1 ":" text)) 8) as [Hlen|]; [|discriminate].
    cbn [negb]. intros Hhex. eexists. split; [|reflexivity]. split.
    + now rewrite length_map.
    + revert Hhex. apply forallb_map. exact HEX_GROUP_padStart.
Qed.

Lemma isExpanded_groups (text : string) :
  isExpanded text = true -> expanded_groups (split1 ":" text).
Proof.
  unfold isExpanded. intros H. apply andb_true_iff in H as [H1 H2].
  split; [now apply Nat.eqb_eq | exact H2].
Qed.

End RoundTrip.

(** ** The two statements on the codec *)

Section CodecClaims.
Import JS IPv6Utils.

Lemma after_zeros_refl (g : string) : after_zeros g g = true.
Proof. destruct g; cbn [after_zeros]; now rewrite String.eqb_refl. Qed.

Lemma after_zeros_zero (g short : string) :
  after_zeros g short = true -> after_zeros (String "0" g) short = true.
Proof.
  intros H. change (after_zeros (String "0" g) short)
    with (String.eqb (String "0" g) short || (Ascii.eqb "0" "0" && after_zeros g short))%bool.
  rewrite H. apply orb_true_r.
Qed.

(** What [strip_group] returns is the group without its leading zeros. *)
Lemma strip_group_stripped_of (g : string) :
  is_empty g = false -> stripped_of g (strip_group g).
Proof.
  unfold stripped_of, strip_group. induction g as [|c g IH]; [discriminate|]. intros _.
  cbn [drop_leading_zeros]. destruct (Ascii.eqb_spec c "0") as [->|Hc].
  - destruct g as [|d g]; [split; reflexivity|].
    destruct (IH eq_refl) as [H1 H2]. split; [exact H1|].
    now apply after_zeros_zero.
  - cbn [is_empty]. split; [|apply after_zeros_refl].
    cbn [no_spare_zero]. apply Ascii.eqb_neq in Hc. now rewrite Hc.
Qed.

(** The short text of a group is determined by the group. *)
Lemma stripped_of_unique (g a b : string) : stripped_of g a -> stripped_of g b -> a = b.
Proof.
  unfold stripped_of. revert a b.
  assert (Hself : forall c r s, no_spare_zero s = true ->
            after_zeros (String c r) s = true -> Ascii.eqb c "0" = false -> s = String c r).
  { intros c r s _ H Hc. cbn [after_zeros] in H. rewrite Hc in H. cbn [andb] in H.
    rewrite orb_false_r in H. symmetry. now apply String.eqb_eq. }
  induction g as [|c g IH]; intros a b [Ha1 Ha2] [Hb1 Hb2].
  - cbn [after_zeros] in Ha2, Hb2. rewrite orb_false_r in Ha2, Hb2.
    apply String.eqb_eq in Ha2, Hb2. congruence.
  - destruct (Ascii.eqb c "0") eqn:Hc.
    + apply Ascii.eqb_eq in Hc. subst c.
      assert (Hcase : forall s, no_spare_zero s = true -> after_zeros (String "0" g) s = true ->
                (s = "0" /\ is_empty g = true) \/ after_zeros g s = true).
      { intros s Hs H. cbn [after_zeros] in H. apply orb_true_iff in H as [H|H].
        - apply String.eqb_eq in H. subst s. cbn [no_spare_zero] in Hs.
          cbn in Hs. left. destruct g; [now split | discriminate Hs].
        - cbn in H. now right. }
      destruct (Hcase a Ha1 Ha2) as [[-> Eg]|Ha], (Hcase b Hb1 Hb2) as [[-> Eg']|Hb].
      * reflexivity.
      * destruct g; [|discriminate Eg]. cbn [after_zeros] in Hb. rewrite orb_false_r in Hb.
        apply String.eqb_eq in Hb. subst b. discriminate Hb1.
      * destruct g; [|discriminate Eg']. cbn [after_zeros] in Ha. rewrite orb_false_r in Ha.
        apply String.eqb_eq in Ha. subst a. discriminate Ha1.
      * now apply IH.
    + rewrite (Hself c g a Ha1 Ha2 Hc), (Hself c g b Hb1 Hb2 Hc). reflexivity.
Qed.

Lemma strip_groups_stripped_of (groups : list string) :
  forallb group4 groups = true ->
  Forall2 stripped_of groups (map strip_group groups).
Proof.
  induction groups as [|g groups IH]; [constructor|].
  cbn [forallb map]. intros H. apply andb_true_iff in H as [Hg Hgs].
  constructor; [|now apply IH].
  apply strip_group_stripped_of. unfold group4 in Hg.
  apply andb_true_iff in Hg as [Hl _]. apply Nat.eqb_eq in Hl. now destruct g.
Qed.

(** C5.  On an expanded text of eight groups, [compressAddress] puts a
    double colon in place of the longest run of two or more zero groups,
    the leftmost one among the longest; without such a run it puts no
    double colon; in both cases every other group is written without its
    leading zeros: the short text has no leading zero, the single digit 0
    apart, and the group is the short text after zeros only. *)
Theorem compress_longest_zero_run (text : string) :
  isExpanded text = true ->
  let groups := split1 ":" text in
  (exists (s l : nat) (before after : list string),
     (2 <= l)%nat /\ zero_run groups s l /\
     (forall s' l' : nat, (1 <= l')%nat -> zero_run groups s' l' ->
        (l' <= l)%nat /\ (l' = l -> (s <= s')%nat)) /\
     Forall2 stripped_of (firstn s groups) before /\
     Forall2 stripped_of (skipn (s + l) groups) after /\
     compressAddress text = join ":" before +++ "::" +++ join ":" after) \/
  (exists short : list string,
     (forall s' : nat, ~ zero_run groups s' 2) /\
     Forall2 stripped_of groups short /\
     compressAddress text = join ":" short /\
     includes "::" (compressAddress text) = false).
Proof.
  intros Hexp groups. pose proof (isExpanded_groups text Hexp) as Hg.
  fold groups in Hg. pose proof Hg as [Hlen Hall].
  unfold compressAddress. rewrite <- (join_split1 text). fold groups.
  rewrite (performCompression_expanded groups Hg).
  destruct (longest_zero_run_spec groups) as (Hbl & Hbest & Hruns).
  set (st := longest_zero_run groups) in *.
  assert (Hmax : forall s' l' : nat, (1 <= l')%nat -> zero_run groups s' l' ->
            Z.of_nat l' <= bestLength st /\ (Z.of_nat l' = bestLength st -> bestStart st <= Z.of_nat s')).
  { intros s' l' Hl' Hrun. apply Hruns; [assumption | |].
    - rewrite <- Hlen. now apply zero_run_bound.
    - intros i Hi. now apply zero_at_iff, Hrun. }
  destruct (Z.ltb_spec (bestLength st) 2) as [Hlt|Hge].
  - right. exists (map strip_group groups). split; [|split; [|split; [reflexivity|]]].
    + intros s' Hrun. destruct (Hmax s' 2%nat ltac:(lia) Hrun). lia.
    + now apply strip_groups_stripped_of.
    + apply tidy_no_dcolon, tidy_join. now apply strip_groups_solid.
  - left. exists (Z.to_nat (bestStart st)), (Z.to_nat (bestLength st)).
    exists (map strip_group (firstn (Z.to_nat (bestStart st)) groups)).
    exists (map strip_group
              (skipn (Z.to_nat (bestStart st) + Z.to_nat (bestLength st)) groups)).
    destruct (best_run_zero_run groups ltac:(fold st; lia)) as [Hrun Hb].
    fold st in Hrun, Hb.
    destruct (Hbest ltac:(lia)) as (Hs & _ & _).
    split; [lia|]. split; [exact Hrun|]. split; [|split; [|split; [|reflexivity]]].
    + intros s' l' Hl' Hrun'. destruct (Hmax s' l' Hl' Hrun'). lia.
    + apply strip_groups_stripped_of. now apply forallb_firstn.
    + apply strip_groups_stripped_of. now apply forallb_skipn.
Qed.

Lemma compress_longest_zero_run_witness :
  let text := "2001:0db8:0000:0000:0001:0000:0000:0001" in
  let groups := split1 ":" text in
  (exists (s l : nat) (before after : list string),
     (2 <= l)%nat /\ zero_run groups s l /\
     (forall s' l' : nat, (1 <= l')%nat -> zero_run groups s' l' ->
        (l' <= l)%nat /\ (l' = l -> (s <= s')%nat)) /\
     Forall2 stripped_of (firstn s groups) before /\
     Forall2 stripped_of (skipn (s + l) groups) after /\
     compressAddress text = join ":" before +++ "::" +++ join ":" after) \/
  (exists short : list string,
     (forall s' : nat, ~ zero_run groups s' 2) /\
     Forall2 stripped_of groups short /\
     compressAddress text = join ":" short /\
     includes "::" (compressAddress text) = false).
Proof.
  apply (compress_longest_zero_run "2001:0db8:0000:0000:0001:0000:0000:0001").
  reflexivity.
Defined.

Lemma is_hex_not_space (c : ascii) : is_hex c = true -> is_space c = false.
Proof.
  destruct c as [[] [] [] [] [] [] [] []]; vm_compute; intros H;
    first [reflexivity | discriminate H].
Qed.

Lemma trimEnd_hex (s : string) : all is_hex s = true -> trimEnd s = s.
Proof.
  induction s as [|c s IH]; [reflexivity|].
  cbn. intros H. apply andb_true_iff in H as [Hc Hs].
  now rewrite (IH Hs), (is_hex_not_space c Hc).
Qed.

Lemma remove_colons_hex (s : string) :
  address_units s = true -> all is_hex (remove_colons s) = true.
Proof.
  induction s as [|c s IH]; [reflexivity|].
  cbn. intros H. apply andb_true_iff in H as [Hc Hs].
  destruct (Ascii.eqb c ":") eqn:E; [now apply IH|].
  rewrite orb_false_r in Hc. cbn. now rewrite Hc, IH.
Qed.

(** An expanded text has a value as an integer. *)
Lemma ipv6ToBigInt_expanded (groups : list string) :
  expanded_groups groups ->
  ipv6ToBigInt (join ":" groups) =
  Some (hex_digits_value 0 (remove_colons (join ":" groups))).
Proof.
  intros Hg. unfold ipv6ToBigInt, expandAddress.
  rewrite (performExpansion_expanded groups Hg). unfold BigInt_of_hex.
  rewrite trimEnd_hex by (apply remove_colons_hex; now apply address_units_expanded).
  rewrite remove_colons_hex by now apply address_units_expanded.
  destruct Hg as [Hlen Hall]. destruct groups as [|g groups]; [discriminate Hlen|].
  cbn [forallb] in Hall. apply andb_true_iff in Hall as [Hg4 _].
  destruct (join_solid_head g groups (group4_solid g Hg4)) as (c & r & E & Hc).
  rewrite E. cbn [remove_colons]. rewrite Hc. reflexivity.
Qed.

Lemma performCompression_through_expansion (text e : string) :
  expandAddress text = Some e -> expandAddress e = Some e ->
  performCompression text = performCompression e.
Proof. intros H1 H2. unfold performCompression. now rewrite H1, H2. Qed.

(** C6.  For a text [T] that the validator accepts, the compression of
    the expansion of [T] is a fixed point of compression after expansion,
    and the expansion of [T] and the compression of [T] have the same
    value as integers. *)
Theorem compress_expand_round_trip (T : string) :
  isValidFormat T = true ->
  exists (E X : string) (v : Z),
    expandAddress T = Some E /\
    compress_after_expand T = Some X /\
    compress_after_expand X = Some X /\
    ipv6ToBigInt E = Some v /\
    ipv6ToBigInt (compressAddress T) = Some v.
Proof.
  intros Hvalid. destruct (performExpansion_valid T Hvalid) as (groups & Hg & HE).
  set (E := join ":" groups) in *.
  pose proof (performExpansion_expanded groups Hg) as HEE. fold E in HEE.
  pose proof (performExpansion_performCompression groups Hg) as Hback. fold E in Hback.
  pose proof (ipv6ToBigInt_expanded groups Hg) as Hv. fold E in Hv.
  exists E, (performCompression E), (hex_digits_value 0 (remove_colons E)).
  split; [exact HE|]. split.
  { unfold compress_after_expand, compressAddress, expandAddress.
    now rewrite HE. }
  split.
  { unfold compress_after_expand, compressAddress, expandAddress.
    now rewrite Hback. }
  split; [exact Hv|].
  unfold compressAddress.
  rewrite (performCompression_through_expansion T E HE HEE).
  unfold ipv6ToBigInt, expandAddress in *. rewrite Hback.
  now rewrite HEE in Hv.
Qed.

Lemma compress_expand_round_trip_witness :
  exists (E X : string) (v : Z),
    expandAddress "2001:DB8::1" = Some E /\
    compress_after_expand "2001:DB8::1" = Some X /\
    compress_after_expand X = Some X /\
    ipv6ToBigInt E = Some v /\
    ipv6ToBigInt (compressAddress "2001:DB8::1") = Some v.
Proof.
  apply (compress_expand_round_trip "2001:DB8::1"). reflexivity.
Defined.

End CodecClaims.

(** ** The severity counters of a batch *)

Section SeverityCounters.
Import JS OverlapEngine.

Lemma severity_of_analysis (n1 n2 : Network) :
  In (severity (analyzeOverlap n1 n2)) SEVERITY_LEVELS.
Proof.
  unfold analyzeOverlap.
  destruct (negb _).
  - cbn. tauto.
  - pose proof (analyzeOverlapDetails_type_severity n1 n2
      (networkBigInt n1) (broadcastBigInt n1) (networkBigInt n2) (broadcastBigInt n2)) as E.
    cbv zeta in E.
    destruct (_ && _)%bool in E; [|destruct (_ && _)%bool in E; [|destruct (_ && _)%bool in E]];
      injection E as _ ->; cbn; tauto.
Qed.

(** No label of a severity, in lower case, is the name of a counter. *)
Lemma tally_level (breakdown : Map Z) (c : Conflict) (s : Severity) :
  conflict_severity c = Some s -> In s SEVERITY_LEVELS ->
  tally severityBreakdown_init c = severityBreakdown_init.
Proof.
  intros E H. unfold tally. rewrite E.
  cbn in H. destruct H as [<-|[<-|[<-|[<-|[<-|[]]]]]]; reflexivity.
Qed.

Lemma tally_all (conflicts : list Conflict) :
  (forall c s, In c conflicts -> conflict_severity c = Some s -> In s SEVERITY_LEVELS) ->
  fold_left tally conflicts severityBreakdown_init = severityBreakdown_init.
Proof.
  induction conflicts as [|c conflicts IH]; [reflexivity|].
  intros H. cbn [fold_left].
  assert (E : tally severityBreakdown_init c = severityBreakdown_init).
  { destruct (conflict_severity c) as [s|] eqn:Es.
    - apply (tally_level severityBreakdown_init c s Es). apply (H c s); [now left | exact Es].
    - unfold tally. now rewrite Es. }
  rewrite E. apply IH. intros c' s' Hin. apply H. now right.
Qed.

Lemma checkOverlapAdvanced_severity (cidr1 cidr2 : string) (s : Severity) :
  result_severity (checkOverlapAdvanced cidr1 cidr2) = Some s -> In s SEVERITY_LEVELS.
Proof.
  unfold checkOverlapAdvanced. destruct (_ || _)%bool; [discriminate|].
  destruct (validateAndGetNetworkInfo cidr1) as [n1|]; [|discriminate].
  destruct (validateAndGetNetworkInfo cidr2) as [n2|]; [|discriminate].
  cbn. intros E. injection E as <-. apply severity_of_analysis.
Qed.

Lemma conflict_of_severity (p : ValidPrefix * ValidPrefix) (c : Conflict) (s : Severity) :
  In c (conflict_of (compare_pair p)) -> conflict_severity c = Some s ->
  In s SEVERITY_LEVELS.
Proof.
  unfold conflict_of. destruct (truthy _); [|intros []].
  intros [<-|[]]. cbn [conflict_severity outcome compare_pair].
  apply checkOverlapAdvanced_severity.
Qed.

(** C10.  Whatever the prefixes, the four counters of the severity
    breakdown of a batch are zero: a conflict is counted under the
    label of its severity in lower case, and no label is the name of a
    counter. *)
Theorem severity_breakdown_stays_zero (prefixes : list string) :
  severityBreakdown (statistics (analyzeBatch prefixes)) =
  [("critical", 0); ("high", 0); ("medium", 0); ("low", 0)].
Proof.
  unfold analyzeBatch. destruct (validate_entries 0 prefixes) as [validPrefixes invalid].
  cbn [statistics severityBreakdown generateBatchStatistics].
  apply tally_all. intros c s Hin.
  apply in_flat_map in Hin as (cmp & Hcmp & Hc).
  unfold comparisons in Hcmp. apply in_map_iff in Hcmp as (p & <- & _).
  now apply conflict_of_severity with (p := p).
Qed.

(** The counters stay at zero in a batch with a critical conflict. *)
Lemma severity_breakdown_with_critical_conflict :
  let report := analyzeBatch ["2001:db8::1/64"; "not-an-ip"; "2001:db8::2/64"] in
  map conflict_severity (conflicts report) = [Some CRITICAL] /\
  conflictCount (statistics report) = 1 /\
  severityBreakdown (statistics report) =
  [("critical", 0); ("high", 0); ("medium", 0); ("low", 0)].
Proof. vm_compute. repeat split. Qed.

End SeverityCounters.

(** ** Sorting by a key *)

Section SortBy.
Import JS.

Context {A : Type} (key : A -> Z).

Local Abbreviation key_le := (ordered_by key).
Local Abbreviation key_lt := (strictly_ordered_by key).

Lemma insert_by_perm (x : A) (l : list A) : Permutation (x :: l) (insert_by key x l).
Proof.
  induction l as [|y l IH]; cbn; [reflexivity|].
  destruct (key x <=? key y); [reflexivity|].
  rewrite perm_swap. now apply perm_skip.
Qed.

Lemma sort_by_perm (l : list A) : Permutation l (sort_by key l).
Proof.
  induction l as [|x l IH]; cbn; [reflexivity|].
  rewrite <- insert_by_perm. now apply perm_skip.
Qed.

Lemma insert_by_sorted (x : A) (l : list A) :
  StronglySorted key_le l -> StronglySorted key_le (insert_by key x l).
Proof.
  induction 1 as [|y l Hl IH Hy]; cbn.
  - repeat constructor.
  - destruct (Z.leb_spec (key x) (key y)) as [Hxy|Hyx].
    + constructor; [now constructor|]. constructor; [exact Hxy|].
      eapply Forall_impl; [|exact Hy]. unfold ordered_by. intros; lia.
    + constructor; [exact IH|].
      eapply Permutation_Forall; [apply insert_by_perm|].
      constructor; [unfold ordered_by; lia | exact Hy].
Qed.

Lemma sort_by_sorted (l : list A) : StronglySorted key_le (sort_by key l).
Proof.
  induction l as [|x l IH]; cbn; [constructor | now apply insert_by_sorted].
Qed.

(** A list in strictly increasing order of the key is the only sorted
    arrangement of its elements. *)
Lemma sorted_unique (l1 l2 : list A) :
  StronglySorted key_lt l1 -> StronglySorted key_le l2 -> Permutation l1 l2 -> l2 = l1.
Proof.
  intros H1. revert l2. induction H1 as [|x l1 Hl1 IH Hx]; intros l2 H2 HP.
  - now apply Permutation_nil in HP.
  - destruct H2 as [|y l2 Hl2 Hy].
    + symmetry in HP. now apply Permutation_nil in HP.
    + assert (E : y = x).
      { assert (Hyin : In y (x :: l1)).
        { apply Permutation_in with (y :: l2); [now symmetry | now left]. }
        destruct Hyin as [E|Hyin]; [now symmetry|].
        assert (Hxin : In x (y :: l2)).
        { apply Permutation_in with (x :: l1); [assumption | now left]. }
        destruct Hxin as [E|Hxin]; [assumption|].
        rewrite Forall_forall in Hx, Hy.
        specialize (Hx y Hyin). specialize (Hy x Hxin).
        unfold strictly_ordered_by, ordered_by in *. lia. }
      subst y. f_equal. apply IH; [assumption|].
      now apply Permutation_cons_inv with x.
Qed.

Lemma sort_by_of_permutation (l1 l2 : list A) :
  StronglySorted key_lt l1 -> Permutation l1 l2 -> sort_by key l2 = l1.
Proof.
  intros H1 HP. apply sorted_unique; [assumption | apply sort_by_sorted |].
  rewrite HP. apply sort_by_perm.
Qed.

End SortBy.

(** ** The pairs that the nested loops visit *)

Section Pairs.
Import OverlapEngine.

Lemma pairs_map {A B} (f : A -> B) (l : list A) :
  pairs (map f l) = map (fun p => (f (fst p), f (snd p))) (pairs l).
Proof.
  induction l as [|x l IH]; [reflexivity|].
  cbn. rewrite map_app, !map_map, IH. reflexivity.
Qed.

Lemma pairs_length_twice {A} (l : list A) :
  (2 * List.length (pairs l) = List.length l * (List.length l - 1))%nat.
Proof.
  induction l as [|x l IH]; [reflexivity|].
  cbn [pairs]. rewrite length_app, length_map. cbn [List.length]. nia.
Qed.

Lemma pairs_length {A} (l : list A) :
  List.length (pairs l) = (List.length l * (List.length l - 1) / 2)%nat.
Proof.
  rewrite <- pairs_length_twice, Nat.mul_comm. symmetry. apply Nat.div_mul. discriminate.
Qed.

Lemma in_pairs (l : list nat) (a b : nat) :
  StronglySorted lt l -> (In (a, b) (pairs l) <-> In a l /\ In b l /\ (a < b)%nat).
Proof.
  induction 1 as [|x l Hl IH Hx]; cbn [pairs]; [cbn; tauto|].
  rewrite in_app_iff, in_map_iff, IH. rewrite Forall_forall in Hx. cbn [In]. split.
  - intros [(y & E & Hy)|(Ha & Hb & Hab)].
    + injection E as <- <-. pose proof (Hx _ Hy). tauto.
    + tauto.
  - intros ([<-|Ha] & [<-|Hb] & Hab).
    + lia.
    + left. now exists b.
    + pose proof (Hx _ Ha). lia.
    + tauto.
Qed.

Lemma NoDup_pairs (l : list nat) : StronglySorted lt l -> NoDup (pairs l).
Proof.
  induction 1 as [|x l Hl IH Hx]; cbn [pairs]; [constructor|].
  assert (Hnd : NoDup l).
  { clear IH Hx. induction Hl as [|y l Hl IH Hy]; constructor; [|assumption].
    rewrite Forall_forall in Hy. intros Hin. specialize (Hy _ Hin). lia. }
  rewrite Forall_forall in Hx.
  apply NoDup_app; [| assumption |].
  - apply Finite.Injective_map_NoDup; [|assumption]. intros u v E. now injection E.
  - intros [u v] Hin1 Hin2. apply in_map_iff in Hin1 as (y & E & Hy). injection E as <- <-.
    apply (in_pairs l x y Hl) in Hin2 as (Hxl & _ & _). specialize (Hx _ Hxl). lia.
Qed.

Lemma filter_seq_sorted (p : nat -> bool) (i n : nat) :
  StronglySorted lt (filter p (seq i n)).
Proof.
  revert i. induction n as [|n IH]; intros i; cbn; [constructor|].
  assert (Hall : Forall (lt i) (filter p (seq (S i) n))).
  { apply Forall_forall. intros k Hk. apply filter_In in Hk as [Hk _].
    apply in_seq in Hk. lia. }
  destruct (p i); [constructor; [apply IH | exact Hall] | apply IH].
Qed.

End Pairs.

(** ** Batch analysis *)

Section Batch.
Import JS OverlapEngine.

Lemma validate_entries_indices (i : nat) (ps : list string) :
  map vp_index (fst (validate_entries i ps)) =
  filter (fun k => valid_at ps (k - i)) (seq i (List.length ps)).
Proof.
  revert i. induction ps as [|p ps IH]; intros i; [reflexivity|].
  cbn [validate_entries List.length seq filter].
  specialize (IH (S i)). destruct (validate_entries (S i) ps) as [vs rs].
  cbn [fst] in IH.
  assert (Etail : filter (fun k => valid_at (p :: ps) (k - i)) (seq (S i) (List.length ps)) =
                  filter (fun k => valid_at ps (k - S i)) (seq (S i) (List.length ps))).
  { apply filter_ext_in. intros k Hk. apply in_seq in Hk.
    replace (k - i)%nat with (S (k - S i)) by lia. reflexivity. }
  rewrite Nat.sub_diag. unfold valid_at at 1. cbn [nth_error].
  destruct (IPv6Utils.validateIPv6 p); cbn [IPv6Utils.valid fst map vp_index];
    rewrite Etail, <- IH; reflexivity.
Qed.

Lemma validate_entries_perm (i : nat) (ps : list string) :
  Permutation
    (snd (validate_entries i ps) ++ map entry_of_valid (fst (validate_entries i ps)))
    (entries_from i ps).
Proof.
  revert i. induction ps as [|p ps IH]; intros i; [reflexivity|].
  cbn [validate_entries entries_from].
  specialize (IH (S i)). destruct (validate_entries (S i) ps) as [vs rs].
  cbn [fst snd] in IH. unfold entry_for.
  destruct (IPv6Utils.validateIPv6 p) as [v|e]; cbn [fst snd map].
  - rewrite <- Permutation_middle. apply perm_skip. exact IH.
  - cbn. apply perm_skip. exact IH.
Qed.

Lemma entry_for_index (i : nat) (p : string) : entry_index (entry_for i p) = i.
Proof. unfold entry_for. now destruct (IPv6Utils.validateIPv6 p). Qed.

Lemma entry_for_prefix (i : nat) (p : string) : entry_prefix (entry_for i p) = p.
Proof. unfold entry_for. now destruct (IPv6Utils.validateIPv6 p). Qed.

Lemma entry_for_valid (i : nat) (p : string) :
  entry_valid (entry_for i p) = IPv6Utils.valid (IPv6Utils.validateIPv6 p).
Proof. unfold entry_for. now destruct (IPv6Utils.validateIPv6 p). Qed.

Lemma entries_from_sorted (i : nat) (ps : list string) :
  StronglySorted (strictly_ordered_by (fun e => Z.of_nat (entry_index e)))
    (entries_from i ps).
Proof.
  revert i. induction ps as [|p ps IH]; intros i; cbn; constructor; [apply IH|].
  apply Forall_forall. intros e He. unfold strictly_ordered_by.
  rewrite entry_for_index.
  assert (Hlow : forall j qs x, In x (entries_from j qs) -> (j <= entry_index x)%nat).
  { clear. intros j qs. revert j. induction qs as [|q qs IHq]; intros j x; cbn; [tauto|].
    intros [<-|Hx]; [rewrite entry_for_index; lia|].
    specialize (IHq _ _ Hx). lia. }
  specialize (Hlow _ _ _ He). lia.
Qed.

Lemma entries_from_nth (i k : nat) (ps : list string) (p : string) :
  nth_error ps k = Some p -> nth_error (entries_from i ps) k = Some (entry_for (i + k) p).
Proof.
  revert i k. induction ps as [|q ps IH]; intros i [|k] H; try discriminate.
  - cbn in H. injection H as ->. cbn. now rewrite Nat.add_0_r.
  - cbn in H. cbn. rewrite (IH (S i) k H). f_equal. f_equal. lia.
Qed.

Lemma entries_from_length (i : nat) (ps : list string) :
  List.length (entries_from i ps) = List.length ps.
Proof. revert i. induction ps as [|q ps IH]; intros i; cbn; [reflexivity | now rewrite IH]. Qed.

(** The sorted results of a batch: one entry per prefix, in the order of
    the prefixes. *)
Lemma analyzeBatch_results (prefixes : list string) :
  results (analyzeBatch prefixes) = entries_from 0 prefixes.
Proof.
  unfold analyzeBatch.
  pose proof (validate_entries_perm 0 prefixes) as HP.
  destruct (validate_entries 0 prefixes) as [validPrefixes invalid].
  cbn [fst snd results] in *.
  apply sort_by_of_permutation; [apply entries_from_sorted | now symmetry].
Qed.

Lemma compared_indices_pairs (prefixes : list string) :
  map compared_indices (batch_comparisons prefixes) =
  pairs (filter (valid_at prefixes) (seq 0 (List.length prefixes))).
Proof.
  unfold batch_comparisons, comparisons.
  pose proof (validate_entries_indices 0 prefixes) as E.
  rewrite map_map.
  assert (Ef : filter (fun k => valid_at prefixes (k - 0)) (seq 0 (List.length prefixes)) =
               filter (valid_at prefixes) (seq 0 (List.length prefixes))).
  { apply filter_ext. intros k. now rewrite Nat.sub_0_r. }
  rewrite Ef in E. rewrite <- E, pairs_map. reflexivity.
Qed.

Lemma valid_at_bound (prefixes : list string) (i : nat) :
  valid_at prefixes i = true -> (i < List.length prefixes)%nat.
Proof.
  unfold valid_at. destruct (nth_error prefixes i) eqn:E; [|discriminate].
  intros _. apply nth_error_Some. congruence.
Qed.

End Batch.

(** ** Plain CIDR texts *)

Section PlainCidr.
Import JS IPv6Utils.

Lemma digit_unit (c : ascii) :
  is_digit c = true ->
  is_space c = false /\ Ascii.eqb c "-" = false /\ Ascii.eqb c "+" = false /\
  Ascii.eqb c "x" = false /\ Ascii.eqb c "X" = false /\ Ascii.eqb c "/" = false /\
  0 <= digit_value c <= 9.
Proof.
  destruct c as [[] [] [] [] [] [] [] []]; vm_compute; intros H;
    first [discriminate H | repeat split; congruence].
Qed.

Lemma address_unit (c : ascii) :
  (is_hex c || Ascii.eqb c ":")%bool = true ->
  is_space c = false /\ is_line_terminator c = false /\
  Ascii.eqb c "%" = false /\ Ascii.eqb c "/" = false.
Proof.
  destruct c as [[] [] [] [] [] [] [] []]; vm_compute; intros H;
    first [discriminate H | repeat split; congruence].
Qed.

Lemma split1_single (sep : ascii) (s d : string) :
  split1 sep s = [d] -> s = d /\ all (fun c => negb (Ascii.eqb c sep)) d = true.
Proof.
  revert d. induction s as [|c s IH]; intros d; cbn.
  - intros E. injection E as <-. now split.
  - destruct (Ascii.eqb c sep) eqn:Ec.
    + intros E. injection E as _ E. now apply split1_not_nil in E.
    + destruct (split1 sep s) as [|g [|h l]] eqn:Es;
        [now apply split1_not_nil in Es | |]; cbn; intros E; try discriminate E.
      injection E as <-. destruct (IH g eq_refl) as [-> Hg].
      split; [reflexivity|]. cbn. now rewrite Ec, Hg.
Qed.

Lemma split1_two (sep : ascii) (s a d : string) :
  split1 sep s = [a; d] ->
  s = a +++ String sep d /\
  all (fun c => negb (Ascii.eqb c sep)) a = true /\
  all (fun c => negb (Ascii.eqb c sep)) d = true.
Proof.
  revert a. induction s as [|c s IH]; intros a; cbn; [discriminate|].
  destruct (Ascii.eqb_spec c sep) as [->|Hc].
  - intros E. injection E as <- E. destruct (split1_single sep s d E) as [-> Hd].
    now repeat split.
  - destruct (split1 sep s) as [|g [|h [|k l]]] eqn:Es;
      [now apply split1_not_nil in Es | | |]; cbn; intros E; try discriminate E.
    injection E as <- <-. destruct (IH g eq_refl) as (-> & Hg & Hd).
    repeat split; [|exact Hd]. cbn. rewrite Hg.
    apply Ascii.eqb_neq in Hc. now rewrite Hc.
Qed.

Lemma split_last_absent (sep : ascii) (s : string) :
  all (fun c => negb (Ascii.eqb c sep)) s = true -> split_last sep s = None.
Proof.
  induction s as [|c s IH]; [reflexivity|].
  cbn. intros H. apply andb_true_iff in H as [Hc Hs].
  apply negb_true_iff in Hc. now rewrite (IH Hs), Hc.
Qed.

Lemma split_last_app (sep : ascii) (a d : string) :
  all (fun c => negb (Ascii.eqb c sep)) d = true ->
  split_last sep (a +++ String sep d) = Some (a, d).
Proof.
  intros Hd. induction a as [|c a IH]; cbn.
  - now rewrite (split_last_absent sep d Hd), Ascii.eqb_refl.
  - now rewrite IH.
Qed.

Lemma split_zone_absent (s : string) :
  all (fun c => negb (Ascii.eqb c "%")) s = true ->
  split_last_before_nonempty "%" s = None.
Proof.
  induction s as [|c s IH]; [reflexivity|].
  cbn. intros H. apply andb_true_iff in H as [Hc Hs].
  apply negb_true_iff in Hc. now rewrite (IH Hs), Hc.
Qed.

Lemma trimEnd_no_space (s : string) :
  all (fun c => negb (is_space c)) s = true -> trimEnd s = s.
Proof.
  induction s as [|c s IH]; [reflexivity|].
  cbn. intros H. apply andb_true_iff in H as [Hc Hs].
  apply negb_true_iff in Hc. now rewrite (IH Hs), Hc.
Qed.

Lemma trim_no_space (s : string) :
  all (fun c => negb (is_space c)) s = true -> trim s = s.
Proof.
  intros H. unfold trim.
  assert (E : trimStart s = s).
  { destruct s as [|c s]; [reflexivity|]. cbn in *.
    apply andb_true_iff in H as [Hc _]. apply negb_true_iff in Hc. now rewrite Hc. }
  rewrite E. now apply trimEnd_no_space.
Qed.

Lemma read_digits_nonneg (acc : Z) (s : string) :
  0 <= acc ->
  exists v, read_digits is_digit digit_value 10 (Some acc) s = Some v /\ 0 <= v.
Proof.
  revert acc. induction s as [|c s IH]; intros acc Hacc; cbn [read_digits].
  - now exists acc.
  - destruct (is_digit c) eqn:Hc; [|now exists acc].
    apply IH. destruct (digit_unit c Hc) as (_ & _ & _ & _ & _ & _ & Hv). lia.
Qed.

(** The decimal reading of a text of digits. *)
Lemma parseInt10_digits (d : string) :
  all is_digit d = true -> d <> EmptyString ->
  exists v, parseInt10 d = Some v /\ 0 <= v /\ parseInt d = Some v.
Proof.
  intros Hd Hne. destruct d as [|c d]; [congruence|].
  cbn in Hd. apply andb_true_iff in Hd as [Hc Hd].
  destruct (digit_unit c Hc) as (Hsp & Hm & Hp & _ & _ & _ & Hv).
  unfold parseInt10, parseInt, read_sign. cbn [trimStart]. rewrite Hsp, Hm, Hp.
  assert (Hrd : exists v, read_digits is_digit digit_value 10 None (String c d) = Some v /\ 0 <= v).
  { cbn [read_digits]. rewrite Hc. apply read_digits_nonneg. lia. }
  destruct Hrd as (v & Ev & Hv0). exists v.
  unfold apply_sign. rewrite Ev. cbn [option_map]. repeat split; [exact Hv0|].
  destruct d as [|c1 d]; [reflexivity|].
  cbn in Hd. apply andb_true_iff in Hd as [Hc1 _].
  destruct (digit_unit c1 Hc1) as (_ & _ & _ & Hx & HX & _).
  now rewrite Hx, HX, andb_false_r.
Qed.

Lemma isValidFormat_units (a : string) :
  isValidFormat a = true -> address_units a = true /\ a <> EmptyString.
Proof.
  unfold isValidFormat, address_units. destruct a as [|c a]; [discriminate|].
  cbn [is_empty]. destruct (all _ (String c a)); [|discriminate].
  intros _. split; [reflexivity | discriminate].
Qed.

(** The integer of the digits of an expanded text. *)
Lemma BigInt_of_hex_expanded (groups : list string) :
  expanded_groups groups ->
  BigInt_of_hex (remove_colons (join ":" groups)) =
  Some (hex_digits_value 0 (remove_colons (join ":" groups))).
Proof.
  intros Hg. pose proof (ipv6ToBigInt_expanded groups Hg) as H.
  unfold ipv6ToBigInt, expandAddress in H.
  now rewrite (performExpansion_expanded groups Hg) in H.
Qed.

(** What the validator and the network calculator make of a plain CIDR
    text. *)
Lemma plain_cidr_parts (text : string) :
  plain_cidr text = true ->
  exists address digits p,
    split1 "/" text = [address; digits] /\
    text = address +++ String "/" digits /\
    isValidFormat address = true /\
    all is_digit digits = true /\ (1 <= String.length digits <= 3)%nat /\
    parseInt10 digits = Some p /\ parseInt digits = Some p /\ 0 <= p <= 128.
Proof.
  unfold plain_cidr. destruct (split1 "/" text) as [|a [|d [|x l]]] eqn:Es; try discriminate.
  intros H. repeat (apply andb_true_iff in H as [H ?]).
  destruct (split1_two "/" text a d Es) as (E & _ & _).
  assert (Hne : d <> EmptyString) by (destruct d; [discriminate | discriminate]).
  destruct (parseInt10_digits d ltac:(assumption) Hne) as (v & Ev & Hv0 & Ev').
  rewrite Ev in *. exists a, d, v.
  repeat split; try assumption; try (apply Nat.leb_le; assumption); lia.
Qed.

Lemma validateIPv6_plain_cidr (text : string) :
  plain_cidr text = true -> valid (validateIPv6 text) = true.
Proof.
  intros H. destruct (plain_cidr_parts text H)
    as (a & d & p & Es & E & Hv & Hd & (L1 & L3) & Ep & _ & Hp).
  destruct (isValidFormat_units a Hv) as [Hu Hne].
  destruct (split1_two "/" text a d Es) as (_ & _ & Hds).
  assert (Hnosp : all (fun c => negb (is_space c)) text = true).
  { rewrite E, all_append. cbn [all]. apply andb_true_iff. split.
    - revert Hu. apply all_impl. intros c Hc. now destruct (address_unit c Hc) as (-> & _).
    - cbn. revert Hd. apply all_impl. intros c Hc. now destruct (digit_unit c Hc) as (-> & _). }
  unfold validateIPv6. rewrite trim_no_space by assumption.
  assert (Etext : is_empty text = false).
  { rewrite E. destruct a; reflexivity. }
  rewrite Etext. unfold performValidation, match_CIDR.
  rewrite E, split_last_app by assumption.
  assert (Hlt : no_line_terminator a = true).
  { revert Hu. apply all_impl. intros c Hc. now destruct (address_unit c Hc) as (_ & -> & _). }
  assert (Hea : is_empty a = false) by (destruct a; [congruence | reflexivity]).
  rewrite Hea, Hlt, Hd. apply Nat.leb_le in L1, L3. rewrite L1, L3. cbn [negb andb].
  rewrite Ep. unfold prefix_out_of_bounds. rewrite Z.gtb_ltb.
  destruct (Z.ltb_spec p 0); [lia|]. destruct (Z.ltb_spec 128 p); [lia|]. cbn [orb].
  unfold match_ZONE_ID. rewrite split_zone_absent.
  2:{ revert Hu. apply all_impl. intros c Hc.
      now destruct (address_unit c Hc) as (_ & _ & -> & _). }
  rewrite (strip_brackets_address a Hu), Hv. cbn [negb].
  destruct (performExpansion_valid a Hv) as (groups & _ & HE).
  unfold expandAddress. now rewrite HE.
Qed.

Lemma getNetworkInfo_plain_cidr (text : string) :
  plain_cidr text = true ->
  exists info digits,
    getNetworkInfo text = Some info /\
    nth_error (split1 "/" text) 1 = Some digits /\
    parseInt digits = Some (prefixLen info) /\
    0 <= prefixLen info <= 128.
Proof.
  intros H. destruct (plain_cidr_parts text H)
    as (a & d & p & Es & E & Hv & Hd & _ & Ep & Ep' & Hp).
  unfold getNetworkInfo. rewrite (validateIPv6_plain_cidr text H), Es.
  cbn [negb nth nth_error parseInt10_opt]. rewrite Ep.
  destruct (performExpansion_valid a Hv) as (groups & Hg & HE).
  unfold ipv6ToBigInt, expandAddress. rewrite HE, (BigInt_of_hex_expanded groups Hg).
  unfold calculateNetworkMask. rewrite Z.gtb_ltb.
  destruct (Z.ltb_spec p 0); [lia|]. destruct (Z.ltb_spec 128 p); [lia|]. cbn [orb].
  destruct (p =? 0); eexists; exists d; (split; [reflexivity|]);
    cbn [prefixLen]; repeat split; try assumption; lia.
Qed.

End PlainCidr.

(** ** The suggestion of a block beside the anchor *)

Section Suggestion.
Import JS IPv6Utils OverlapEngine.

(** C4, as the source has it.  For an anchor in plain CIDR form and any
    conflicting text, the increment is 2^(128 - p), [p] being the prefix
    length of the anchor; the candidate is the block that follows the
    anchor, or, only when that one starts beyond 2^128 - 1, the block
    that precedes it, and nothing when this one starts below 0; the
    candidate is returned when the classifier finds no overlap with the
    anchor and nothing is returned otherwise. *)
Theorem suggestion_steps_from_anchor (lanPrefix wanPrefix : string) :
  plain_cidr wanPrefix = true ->
  exists info : NetworkInfo,
    getNetworkInfo wanPrefix = Some info /\
    0 <= prefixLen info <= 128 /\
    let increment := 2 ^ (128 - prefixLen info) in
    let base := IPv6Utils.networkBigInt info in
    generateSuggestion lanPrefix wanPrefix =
    if base + increment <=? 2 ^ 128 - 1
    then checked_candidate (base + increment) (prefixLen info) wanPrefix
    else if base - increment <? 0 then None
    else checked_candidate (base - increment) (prefixLen info) wanPrefix.
Proof.
  intros H. destruct (getNetworkInfo_plain_cidr wanPrefix H) as (info & d & Ei & En & Ep & Hp).
  exists info. split; [exact Ei|]. split; [exact Hp|].
  intros increment base. unfold generateSuggestion.
  rewrite Ei, En. cbn [parseInt_opt]. rewrite Ep.
  rewrite !Z.shiftl_1_l. fold increment. fold base.
  rewrite Z.gtb_ltb. unfold checked_candidate, candidate_text.
  destruct (Z.ltb_spec (2 ^ 128 - 1) (base + increment)) as [Hover|Hin];
    destruct (Z.leb_spec (base + increment) (2 ^ 128 - 1)) as [Hin'|Hover']; try lia.
  - destruct (base - increment <? 0); [reflexivity|].
    now destruct (truthy _).
  - now destruct (truthy _).
Qed.

Lemma suggestion_steps_from_anchor_witness :
  exists info : NetworkInfo,
    getNetworkInfo "2001:db8:a::/64" = Some info /\
    0 <= prefixLen info <= 128 /\
    let increment := 2 ^ (128 - prefixLen info) in
    let base := IPv6Utils.networkBigInt info in
    generateSuggestion "2001:db8:a::/64" "2001:db8:a::/64" =
    if base + increment <=? 2 ^ 128 - 1
    then checked_candidate (base + increment) (prefixLen info) "2001:db8:a::/64"
    else if base - increment <? 0 then None
    else checked_candidate (base - increment) (prefixLen info) "2001:db8:a::/64".
Proof.
  apply (suggestion_steps_from_anchor "2001:db8:a::/64" "2001:db8:a::/64").
  reflexivity.
Defined.

(** C4, as the specification has it, fails for the conflicting range
    2001:db8::/48 and the anchor 2001:db8::/32: the increment of the
    specification is 2^80, and the block that is returned lies 2^96
    after the base of the anchor. *)
Lemma suggestion_increment_not_from_conflicting :
  generateSuggestion "2001:db8::/48" "2001:db8::/32" = Some "2001:db9::/32" /\
  increment_of_conflicting "2001:db8::/48" = Some (2 ^ 80) /\
  exists anchorBase : Z,
    base_of "2001:db8::/32" = Some anchorBase /\
    base_of "2001:db9::/32" = Some (anchorBase + 2 ^ 96) /\
    anchorBase + 2 ^ 96 <> anchorBase + 2 ^ 80 /\
    anchorBase + 2 ^ 96 <> anchorBase - 2 ^ 80.
Proof.
  split; [vm_compute; reflexivity|]. split; [vm_compute; reflexivity|].
  eexists. split; [vm_compute; reflexivity|]. split; [vm_compute; reflexivity|].
  split; lia.
Qed.

End Suggestion.

(** ** Maps in insertion order *)

Section Maps.
Import JS.

Context {V : Type}.
Implicit Types (m : Map V) (e : string * V).

Lemma key_in_iff (k : string) (ks : list string) : key_in k ks = true <-> In k ks.
Proof.
  unfold key_in. rewrite existsb_exists. split.
  - intros (x & Hx & E). apply String.eqb_eq in E. now subst.
  - intros H. exists k. split; [assumption | apply String.eqb_refl].
Qed.

Lemma Map_has_iff (k : string) m : Map_has k m = true <-> In k (map fst m).
Proof.
  unfold Map_has. rewrite existsb_exists, in_map_iff. split.
  - intros (e & He & E). apply String.eqb_eq in E. now exists e.
  - intros (e & E & He). exists e. split; [assumption|]. now apply String.eqb_eq.
Qed.

Lemma distinct_keys_NoDup m : distinct_keys m = true -> NoDup (map fst m).
Proof.
  induction m as [|e m IH]; cbn; [constructor|].
  intros H. apply andb_true_iff in H as [H1 H2]. constructor; [|now apply IH].
  apply negb_true_iff in H1. intros Hin. apply Map_has_iff in Hin. congruence.
Qed.

Lemma NoDup_keys_filter (p : string * V -> bool) m :
  NoDup (map fst m) -> NoDup (map fst (filter p m)).
Proof.
  induction m as [|e m IH]; cbn; [constructor|].
  intros H. inversion H as [|k ks Hk Hks]; subst.
  destruct (p e); cbn; [|now apply IH].
  constructor; [|now apply IH].
  intros Hin. apply Hk. apply in_map_iff in Hin as (x & E & Hx).
  apply filter_In in Hx as [Hx _]. apply in_map_iff. now exists x.
Qed.

(** In a map, an entry is known by its key. *)
Lemma same_key_same_entry m e1 e2 :
  NoDup (map fst m) -> In e1 m -> In e2 m -> fst e1 = fst e2 -> e1 = e2.
Proof.
  induction m as [|e m IH]; cbn; [tauto|].
  intros H. inversion H as [|k ks Hk Hks]; subst.
  intros [<-|H1] [<-|H2] E; try reflexivity.
  - exfalso. apply Hk. rewrite E. now apply in_map.
  - exfalso. apply Hk. rewrite <- E. now apply in_map.
  - now apply IH.
Qed.

Lemma NoDup_of_keys m : NoDup (map fst m) -> NoDup m.
Proof. apply NoDup_map_inv. Qed.

Lemma Map_delete_filter (k : string) (p : string * V -> bool) m :
  Map_delete k (filter p m) = filter (fun e => (negb (String.eqb (fst e) k) && p e)%bool) m.
Proof.
  unfold Map_delete. induction m as [|e m IH]; cbn; [reflexivity|].
  destruct (p e); cbn; rewrite IH.
  - now rewrite andb_true_r.
  - now rewrite andb_false_r.
Qed.

(** Deleting keys one after the other leaves the entries with none of
    these keys. *)
Lemma delete_keys (ks : list string) m :
  fold_left (fun c k => Map_delete k c) ks m =
  filter (fun e => negb (key_in (fst e) ks)) m.
Proof.
  assert (G : forall (p : string * V -> bool),
             fold_left (fun c k => Map_delete k c) ks (filter p m) =
             filter (fun e => (negb (key_in (fst e) ks) && p e)%bool) m).
  { induction ks as [|k ks IH]; intros p; cbn [fold_left].
    - apply filter_ext. reflexivity.
    - rewrite Map_delete_filter, IH. apply filter_ext. intros e. cbn.
      fold (key_in (fst e) ks).
      destruct (String.eqb (fst e) k), (key_in (fst e) ks), (p e); reflexivity. }
  specialize (G (fun _ => true)).
  replace (filter (fun _ => true) m) with m in G.
  - rewrite G. apply filter_ext. intros e. apply andb_true_r.
  - clear. induction m as [|e m IH]; cbn; [reflexivity | now rewrite <- IH].
Qed.

Lemma delete_entries (removed : list (string * V)) m :
  fold_left (fun c e => Map_delete (fst e) c) removed m = without removed m.
Proof.
  unfold without. rewrite <- delete_keys.
  revert m. induction removed as [|r removed IH]; intros m; cbn; [reflexivity | apply IH].
Qed.

(** Deleting the keys of the entries that satisfy [p] deletes these
    entries and no other. *)
Lemma without_filter (p : string * V -> bool) m :
  NoDup (map fst m) -> without (filter p m) m = filter (fun e => negb (p e)) m.
Proof.
  intros Hnd. unfold without. apply filter_ext_in. intros e He. f_equal.
  apply eq_true_iff_eq. rewrite key_in_iff, in_map_iff. split.
  - intros (x & E & Hx). apply filter_In in Hx as [Hx Hp].
    now rewrite <- (same_key_same_entry m x e Hnd Hx He E).
  - intros Hp. exists e. split; [reflexivity|]. now apply filter_In.
Qed.

Lemma perm_filter_split {A} (p : A -> bool) (l : list A) :
  Permutation l (filter p l ++ filter (fun x => negb (p x)) l).
Proof.
  induction l as [|x l IH]; cbn; [reflexivity|].
  destruct (p x); cbn.
  - now apply perm_skip.
  - rewrite <- Permutation_middle. now apply perm_skip.
Qed.

Lemma in_firstn {A} (n : nat) (l : list A) (x : A) : In x (firstn n l) -> In x l.
Proof. intros H. rewrite <- (firstn_skipn n l). apply in_or_app. now left. Qed.

Lemma in_skipn {A} (n : nat) (l : list A) (x : A) : In x (skipn n l) -> In x l.
Proof. intros H. rewrite <- (firstn_skipn n l). apply in_or_app. now right. Qed.

Lemma sorted_firstn_skipn {A} (key : A -> Z) (n : nat) (l : list A) (a b : A) :
  StronglySorted (ordered_by key) l ->
  In a (firstn n l) -> In b (skipn n l) -> key a <= key b.
Proof.
  intros Hs. revert n. induction Hs as [|x l Hl IH Hx]; intros [|n]; cbn; try tauto.
  intros [<-|Ha] Hb.
  - rewrite Forall_forall in Hx. apply Hx. now apply (in_skipn n l).
  - now apply (IH n).
Qed.

End Maps.

(** ** The writes of the two caches *)

Section CacheWrites.
Import JS.

Context {V : Type}.
Implicit Types (cache : Map (CacheItem V)).

Local Abbreviation written := (fun e : string * CacheItem V => timestamp (snd e)).

(** Removing the [n] first entries in the order of the timestamps
    removes [n] entries that are at least as old as every entry kept. *)
Lemma evict_oldest (n : nat) cache :
  NoDup (map fst cache) -> (n <= List.length cache)%nat ->
  let removed := firstn n (sort_by written cache) in
  let kept := without removed cache in
  Permutation cache (removed ++ kept) /\
  List.length removed = n /\
  (forall r k, In r removed -> In k kept -> timestamp (snd r) <= timestamp (snd k)).
Proof.
  intros Hnd Hn removed kept.
  pose proof (sort_by_perm written cache) as HP.
  pose proof (sort_by_sorted written cache) as HS.
  assert (Hsub : forall e, In e removed -> In e cache).
  { intros e He. apply Permutation_in with (sort_by written cache); [now symmetry|].
    now apply in_firstn with n. }
  assert (Hnd' : NoDup cache) by now apply NoDup_of_keys.
  assert (Hndr : NoDup removed).
  { assert (Hs : NoDup (sort_by written cache)) by now apply Permutation_NoDup with cache.
    rewrite <- (firstn_skipn n) in Hs. now apply NoDup_app_remove_r in Hs. }
  set (f := fun e : string * CacheItem V => key_in (fst e) (map fst removed)).
  assert (Hf : forall e, In e cache -> (f e = true <-> In e removed)).
  { intros e He. unfold f. rewrite key_in_iff, in_map_iff. split.
    - intros (x & E & Hx). now rewrite <- (same_key_same_entry cache x e Hnd (Hsub x Hx) He E).
    - intros Hr. now exists e. }
  repeat split.
  - rewrite (perm_filter_split f cache) at 1. apply Permutation_app_tail.
    apply NoDup_Permutation; [now apply NoDup_filter | assumption |].
    intros e. rewrite filter_In. split.
    + intros [He Hfe]. now apply Hf.
    + intros He. split; [now apply Hsub | apply Hf; [now apply Hsub | assumption]].
  - apply firstn_length_le. now rewrite <- (Permutation_length HP).
  - intros r k Hr Hk. unfold kept, without in Hk. apply filter_In in Hk as [Hk Hfk].
    apply negb_true_iff in Hfk.
    assert (Hks : In k (sort_by written cache)) by now apply Permutation_in with cache.
    rewrite <- (firstn_skipn n) in Hks. apply in_app_or in Hks as [Hkr|Hks].
    + apply (Hf k Hk) in Hkr. unfold f in Hkr. congruence.
    + exact (sorted_firstn_skipn written n _ r k HS Hr Hks).
Qed.

Lemma utils_cleanExpiredCache (now : Z) cache :
  NoDup (map fst cache) ->
  IPv6Utils.cleanExpiredCache now cache =
  filter (fun e => negb (expired IPv6Utils.CACHE_TTL now e)) cache.
Proof.
  intros Hnd. unfold IPv6Utils.cleanExpiredCache. rewrite delete_keys.
  exact (without_filter (expired IPv6Utils.CACHE_TTL now) cache Hnd).
Qed.

Lemma engine_cleanExpiredCache (now : Z) cache :
  NoDup (map fst cache) ->
  OverlapEngine.cleanExpiredCache now cache =
  filter (fun e => negb (expired OverlapEngine.CACHE_TTL now e)) cache.
Proof.
  intros Hnd. unfold OverlapEngine.cleanExpiredCache. rewrite delete_keys.
  exact (without_filter (expired OverlapEngine.CACHE_TTL now) cache Hnd).
Qed.

(** Deleting the key that was inserted first removes the first entry. *)
Lemma Map_delete_first (k : string) (item : CacheItem V) (rest : Map (CacheItem V)) :
  NoDup (map fst ((k, item) :: rest)) -> Map_delete k ((k, item) :: rest) = rest.
Proof.
  intros Hnd. inversion Hnd as [|x l Hk Hrest]; subst.
  unfold Map_delete. cbn [filter fst]. rewrite String.eqb_refl. cbn [negb].
  rewrite <- (filter_ext_in (fun _ => true)).
  - clear. induction rest as [|e r IH]; cbn; [reflexivity | now rewrite IH].
  - intros e He. symmetry. apply negb_true_iff. apply String.eqb_neq.
    intros E. apply Hk. rewrite <- E. now apply in_map.
Qed.

End CacheWrites.

Section CacheClaim.
Import JS.

(** C9, as the source has it.  A write into a cache that is at its
    capacity first deletes the entries older than the time to live.
    When the cache is still at its capacity, the cache of [IPv6Utils]
    (capacity 1000) deletes 300 entries, each at least as old by its
    time stamp as every entry it keeps, and the cache of [OverlapEngine]
    (capacity 500) deletes the one entry that was inserted first.  The
    new entry is set after that. *)
Theorem cache_write_at_capacity {V W : Type}
  (ucache : IPv6Utils.Cache V) (ecache : OverlapEngine.Cache W)
  (nowClean nowWrite : Z) (key : string) (v : V) (w : W) :
  distinct_keys ucache = true -> distinct_keys ecache = true ->
  1000 <= IPv6Utils.size ucache -> 500 <= OverlapEngine.size ecache ->
  let upurged := filter (fun e => negb (expired 300000 nowClean e)) ucache in
  let epurged := filter (fun e => negb (expired 300000 nowClean e)) ecache in
  let uitem := {| value := v; timestamp := nowWrite |} in
  let eitem := {| value := w; timestamp := nowWrite |} in
  IPv6Utils.cleanExpiredCache nowClean ucache = upurged /\
  (IPv6Utils.size upurged < 1000 ->
   IPv6Utils.setToCache nowClean nowWrite key v ucache = Map_set key uitem upurged) /\
  (1000 <= IPv6Utils.size upurged ->
   exists removed,
     Permutation upurged (removed ++ without removed upurged) /\
     List.length removed = 300%nat /\
     (forall r k, In r removed -> In k (without removed upurged) ->
        timestamp (snd r) <= timestamp (snd k)) /\
     IPv6Utils.setToCache nowClean nowWrite key v ucache =
     Map_set key uitem (without removed upurged)) /\
  OverlapEngine.cleanExpiredCache nowClean ecache = epurged /\
  (OverlapEngine.size epurged < 500 ->
   OverlapEngine.setToCache nowClean nowWrite key w ecache = Map_set key eitem epurged) /\
  (500 <= OverlapEngine.size epurged ->
   OverlapEngine.setToCache nowClean nowWrite key w ecache = Map_set key eitem (tl epurged)).
Proof.
  intros Hdu Hde Hu He upurged epurged uitem eitem.
  apply distinct_keys_NoDup in Hdu, Hde.
  pose proof (utils_cleanExpiredCache nowClean ucache Hdu) as Eu.
  pose proof (engine_cleanExpiredCache nowClean ecache Hde) as Ee.
  change (filter _ ucache) with upurged in Eu.
  change (filter _ ecache) with epurged in Ee.
  assert (Hndu : NoDup (map fst upurged)) by now apply NoDup_keys_filter.
  assert (Hnde : NoDup (map fst epurged)) by now apply NoDup_keys_filter.
  split; [exact Eu|]. split; [|split; [|split; [exact Ee|split]]].
  - intros Hlt. unfold IPv6Utils.setToCache. rewrite Eu, !Z.geb_leb.
    change IPv6Utils.CACHE_MAX_SIZE with 1000.
    destruct (Z.leb_spec 1000 (IPv6Utils.size ucache)); [|lia].
    destruct (Z.leb_spec 1000 (IPv6Utils.size upurged)); [lia|]. reflexivity.
  - intros Hge.
    destruct (evict_oldest IPv6Utils.evictionCount upurged Hndu) as (HP & Hlen & Hold).
    { change IPv6Utils.evictionCount with 300%nat. unfold IPv6Utils.size in Hge. lia. }
    eexists. split; [exact HP|]. split; [exact Hlen|]. split; [exact Hold|].
    unfold IPv6Utils.setToCache. rewrite Eu, !Z.geb_leb.
    change IPv6Utils.CACHE_MAX_SIZE with 1000.
    destruct (Z.leb_spec 1000 (IPv6Utils.size ucache)); [|lia].
    destruct (Z.leb_spec 1000 (IPv6Utils.size upurged)); [|lia].
    now rewrite delete_entries.
  - intros Hlt. unfold OverlapEngine.setToCache. rewrite Ee, !Z.geb_leb.
    change OverlapEngine.CACHE_MAX_SIZE with 500.
    destruct (Z.leb_spec 500 (OverlapEngine.size ecache)); [|lia].
    destruct (Z.leb_spec 500 (OverlapEngine.size epurged)); [lia|]. reflexivity.
  - intros Hge. unfold OverlapEngine.setToCache. rewrite Ee, !Z.geb_leb.
    change OverlapEngine.CACHE_MAX_SIZE with 500.
    destruct (Z.leb_spec 500 (OverlapEngine.size ecache)); [|lia].
    destruct (Z.leb_spec 500 (OverlapEngine.size epurged)); [|lia].
    clearbody epurged. destruct epurged as [|[k item] rest]; [reflexivity|].
    cbn [tl]. now rewrite (Map_delete_first k item rest Hnde).
Qed.

End CacheClaim.

Section CacheInstances.
Import JS.

Lemma cache_write_at_capacity_witness :
  let ucache := filled_cache 1000 in
  let ecache := filled_cache 500 in
  let upurged := filter (fun e => negb (expired 300000 1000 e)) ucache in
  let epurged := filter (fun e => negb (expired 300000 1000 e)) ecache in
  let item := {| value := tt; timestamp := 1000 |} in
  IPv6Utils.cleanExpiredCache 1000 ucache = upurged /\
  (IPv6Utils.size upurged < 1000 ->
   IPv6Utils.setToCache 1000 1000 "new" tt ucache = Map_set "new" item upurged) /\
  (1000 <= IPv6Utils.size upurged ->
   exists removed,
     Permutation upurged (removed ++ without removed upurged) /\
     List.length removed = 300%nat /\
     (forall r k, In r removed -> In k (without removed upurged) ->
        timestamp (snd r) <= timestamp (snd k)) /\
     IPv6Utils.setToCache 1000 1000 "new" tt ucache =
     Map_set "new" item (without removed upurged)) /\
  OverlapEngine.cleanExpiredCache 1000 ecache = epurged /\
  (OverlapEngine.size epurged < 500 ->
   OverlapEngine.setToCache 1000 1000 "new" tt ecache = Map_set "new" item epurged) /\
  (500 <= OverlapEngine.size epurged ->
   OverlapEngine.setToCache 1000 1000 "new" tt ecache = Map_set "new" item (tl epurged)).
Proof.
  apply (cache_write_at_capacity (filled_cache 1000) (filled_cache 500) 1000 1000 "new" tt tt).
  - vm_compute. reflexivity.
  - vm_compute. reflexivity.
  - vm_compute. discriminate.
  - vm_compute. discriminate.
Defined.

(** C9, as the specification has it, fails for the cache of
    [OverlapEngine]: of 500 entries, none of them expired, a write
    deletes one, the first inserted, where 30% would be 150. *)
Lemma engine_cache_write_deletes_one_entry :
  let cache := filled_cache 500 in
  let after := OverlapEngine.setToCache 400 400 "new" tt cache in
  OverlapEngine.size cache = OverlapEngine.CACHE_MAX_SIZE /\
  OverlapEngine.cleanExpiredCache 400 cache = cache /\
  map fst (evicted cache after) = ["0"] /\
  List.length (evicted cache after) <> (500 * 30 / 100)%nat.
Proof.
  cbv zeta. split; [reflexivity|]. split; [vm_compute; reflexivity|].
  split; [vm_compute; reflexivity|]. vm_compute. discriminate.
Qed.

End CacheInstances.

(** * Further properties of the code *)

(** ** The codec on accepted texts *)

Section CodecFurther.
Import JS IPv6Utils.

Lemma count_dcolon_tidy (s : string) : tidy s = true -> count_dcolon s = 0%nat.
Proof.
  induction s as [|c s IH]; [reflexivity|].
  intros H. pose proof (tidy_step c s H) as Hstep.
  destruct s as [|c' s]; [reflexivity|].
  cbn [count_dcolon]. rewrite Hstep. apply IH. now apply tidy_tail with c.
Qed.

Lemma includes_tcolon_step (c : ascii) (r : string) :
  includes ":::" (String c r) = true -> includes "::" r = true.
Proof.
  revert c. induction r as [|c' r IH]; intros c.
  - cbn [includes]. rewrite prefix_cons. cbn. now rewrite andb_false_r.
  - cbn [includes]. rewrite prefix_cons. intros H. apply orb_true_iff in H as [H|H].
    + apply andb_true_iff in H as [_ H]. cbn [includes]. now rewrite H.
    + cbn [includes]. rewrite (IH c'); [apply orb_true_r|].
      cbn [includes]. exact H.
Qed.

Lemma no_tcolon_of_no_dcolon (s : string) :
  includes "::" s = false -> includes ":::" s = false.
Proof.
  intros H. destruct (includes ":::" s) eqn:E; [|reflexivity].
  destruct s as [|c r]; [discriminate E|].
  apply includes_tcolon_step in E.
  cbn [includes] in H. apply orb_false_iff in H as [_ H]. congruence.
Qed.

(** An expanded text is accepted by the validator. *)
Lemma isValidFormat_expanded (groups : list string) :
  expanded_groups groups -> isValidFormat (join ":" groups) = true.
Proof.
  intros Hg. pose proof Hg as [Hlen Hall].
  assert (Ht : tidy (join ":" groups) = true).
  { apply tidy_join. apply forallb_impl with (p := group4); [exact group4_solid | exact Hall]. }
  unfold isValidFormat.
  pose proof (address_units_expanded groups Hg) as Hu. unfold address_units in Hu.
  rewrite Hu. cbn [negb].
  destruct groups as [|g groups]; [discriminate Hlen|].
  cbn [forallb] in Hall. pose proof Hall as Hall'. apply andb_true_iff in Hall' as [Hg4 _].
  destruct (join_solid_head g groups (group4_solid g Hg4)) as (c & r & E & _).
  rewrite E at 1. cbn [is_empty].
  rewrite (count_dcolon_tidy _ Ht). cbn [Nat.ltb Nat.leb].
  rewrite (no_tcolon_of_no_dcolon _ (tidy_no_dcolon _ Ht)), (tidy_no_dcolon _ Ht).
  unfold validateFullFormat. rewrite (split1_expanded _ Hg), Hlen. cbn [Nat.eqb negb].
  apply forallb_impl with (p := group4); [exact group4_HEX_GROUP | exact Hall].
Qed.

Lemma isExpanded_join (groups : list string) :
  expanded_groups groups -> isExpanded (join ":" groups) = true.
Proof.
  intros Hg. unfold isExpanded. rewrite (split1_expanded _ Hg).
  destruct Hg as [-> ->]. reflexivity.
Qed.

(** X1.  Expansion is idempotent on the accepted texts, and its result is
    an expanded text that the validator accepts in its turn. *)
Theorem expansion_idempotent (T : string) :
  isValidFormat T = true ->
  exists E : string,
    expandAddress T = Some E /\ expandAddress E = Some E /\
    isExpanded E = true /\ isValidFormat E = true.
Proof.
  intros Hv. destruct (performExpansion_valid T Hv) as (groups & Hg & HE).
  exists (join ":" groups). unfold expandAddress. split; [exact HE|].
  split; [now apply performExpansion_expanded|].
  split; [now apply isExpanded_join | now apply isValidFormat_expanded].
Qed.

Lemma expansion_idempotent_witness :
  exists E : string,
    expandAddress "::ffff:1" = Some E /\ expandAddress E = Some E /\
    isExpanded E = true /\ isValidFormat E = true.
Proof. apply (expansion_idempotent "::ffff:1"). reflexivity. Defined.

(** X2.  On the accepted texts, compression is idempotent and does not
    change what the text expands to. *)
Theorem compression_idempotent (T : string) :
  isValidFormat T = true ->
  compressAddress (compressAddress T) = compressAddress T /\
  expandAddress (compressAddress T) = expandAddress T.
Proof.
  intros Hv. destruct (performExpansion_valid T Hv) as (groups & Hg & HE).
  pose proof (performExpansion_expanded groups Hg) as HEE.
  pose proof (performExpansion_performCompression groups Hg) as Hback.
  unfold compressAddress.
  rewrite (performCompression_through_expansion T _ HE HEE).
  split.
  - now apply performCompression_through_expansion.
  - unfold expandAddress. now rewrite Hback, HE.
Qed.

Lemma compression_idempotent_witness :
  compressAddress (compressAddress "0:0:1:0:0:0:1:0") = compressAddress "0:0:1:0:0:0:1:0" /\
  expandAddress (compressAddress "0:0:1:0:0:0:1:0") = expandAddress "0:0:1:0:0:0:1:0".
Proof. apply (compression_idempotent "0:0:1:0:0:0:1:0"). reflexivity. Defined.

End CodecFurther.

(** ** The classifier beyond the overlap cases *)

Section ClassifierFurther.
Import JS OverlapEngine.

Lemma analyzeOverlap_disjoint (A B : Network) :
  hasOverlap (analyzeOverlap A B) = false ->
  analyzeOverlap A B =
  analyzeNoOverlap A B (networkBigInt A) (broadcastBigInt A)
    (networkBigInt B) (broadcastBigInt B).
Proof.
  rewrite analyzeOverlap_hasOverlap. unfold analyzeOverlap. intros ->. reflexivity.
Qed.

(** X3.  A range with base <= last, compared with itself, is classified
    as identical, with the critical severity and 100 percent; a range
    with last < base is reported not to overlap itself. *)
Theorem identical_ranges (A : Network) :
  (networkBigInt A <= broadcastBigInt A ->
   hasOverlap (analyzeOverlap A A) = true /\
   type (analyzeOverlap A A) = IDENTICAL /\
   severity (analyzeOverlap A A) = CRITICAL /\
   exists p : Q, percentageOverlap_of (analyzeOverlap A A) = Some p /\ (p == 100)%Q) /\
  (broadcastBigInt A < networkBigInt A -> hasOverlap (analyzeOverlap A A) = false).
Proof.
  split.
  - intros Hv.
    assert (Ho : hasOverlap (analyzeOverlap A A) = true) by (apply hasOverlap_iff; lia).
    split; [exact Ho|].
    destruct (identical_case A A Ho eq_refl eq_refl) as [Ht Hs].
    split; [exact Ht|]. split; [exact Hs|].
    destruct (percentage_of_overlapping A A Hv Hv Ho) as (p & Ep & _ & _ & _ & H100).
    exists p. split; [exact Ep|]. apply H100. lia.
  - intros Hinv. destruct (hasOverlap (analyzeOverlap A A)) eqn:E; [|reflexivity].
    apply hasOverlap_iff in E. lia.
Qed.

Lemma identical_ranges_witness :
  hasOverlap (analyzeOverlap (range_network 5 9) (range_network 5 9)) = true /\
  type (analyzeOverlap (range_network 5 9) (range_network 5 9)) = IDENTICAL /\
  severity (analyzeOverlap (range_network 5 9) (range_network 5 9)) = CRITICAL /\
  exists p : Q,
    percentageOverlap_of (analyzeOverlap (range_network 5 9) (range_network 5 9)) = Some p /\
    (p == 100)%Q.
Proof.
  apply (identical_ranges (range_network 5 9)). cbn. lia.
Defined.

(** X4.  For two ranges with base <= last that do not overlap, the
    distance is the number of addresses strictly between them; the pair
    is adjacent exactly when the distance is 0, the severity is the one
    of no conflict, and the reported gap is the distance. *)
Theorem disjoint_ranges (A B : Network) :
  networkBigInt A <= broadcastBigInt A -> networkBigInt B <= broadcastBigInt B ->
  hasOverlap (analyzeOverlap A B) = false ->
  let a0 := networkBigInt A in
  let a1 := broadcastBigInt A in
  let b0 := networkBigInt B in
  let b1 := broadcastBigInt B in
  let d := calculateDistance a0 a1 b0 b1 in
  (a1 < b0 \/ b1 < a0) /\
  (a1 < b0 -> d = b0 - a1 - 1) /\ (b1 < a0 -> d = a0 - b1 - 1) /\
  0 <= d /\
  (type (analyzeOverlap A B) = ADJACENT <-> d = 0) /\
  (type (analyzeOverlap A B) = NO_OVERLAP <-> 0 < d) /\
  severity (analyzeOverlap A B) = NONE /\
  details (analyzeOverlap A B) = NoOverlapDetails (toString10 d) (d =? 0) (toString10 d).
Proof.
  intros Ha Hb Ho a0 a1 b0 b1 d.
  assert (Hsep : a1 < b0 \/ b1 < a0).
  { destruct (Z_lt_le_dec a1 b0) as [|H1]; [now left|].
    destruct (Z_lt_le_dec b1 a0) as [|H2]; [now right|].
    exfalso. assert (hasOverlap (analyzeOverlap A B) = true); [|congruence].
    apply bounds_hasOverlap_true; subst a0 a1 b0 b1; lia. }
  rewrite (analyzeOverlap_disjoint A B Ho). fold a0 a1 b0 b1.
  assert (Hd : (a1 < b0 -> d = b0 - a1 - 1) /\ (b1 < a0 -> d = a0 - b1 - 1)).
  { subst d. unfold calculateDistance.
    destruct (Z.ltb_spec a1 b0); destruct (Z.ltb_spec b1 a0); subst a0 a1 b0 b1; lia. }
  destruct Hd as [Hd1 Hd2].
  assert (Hadj : ((a1 + 1 =? b0) || (b1 + 1 =? a0))%bool = (d =? 0)).
  { apply eq_true_iff_eq. rewrite orb_true_iff, !Z.eqb_eq.
    subst a0 a1 b0 b1. lia. }
  unfold analyzeNoOverlap. cbn [type severity details]. fold d. rewrite Hadj.
  split; [exact Hsep|]. split; [exact Hd1|]. split; [exact Hd2|].
  split; [subst a0 a1 b0 b1; lia|].
  destruct (Z.eqb_spec d 0) as [E0|N0].
  - rewrite E0. repeat split; intros; try reflexivity; try discriminate; lia.
  - repeat split; intros; try reflexivity; try discriminate; subst a0 a1 b0 b1; lia.
Qed.

Lemma disjoint_ranges_witness :
  let A := range_network 0 10 in
  let B := range_network 11 20 in
  let d := calculateDistance 0 10 11 20 in
  (10 < 11 \/ 20 < 0) /\
  (10 < 11 -> d = 11 - 10 - 1) /\ (20 < 0 -> d = 0 - 20 - 1) /\
  0 <= d /\
  (type (analyzeOverlap A B) = ADJACENT <-> d = 0) /\
  (type (analyzeOverlap A B) = NO_OVERLAP <-> 0 < d) /\
  severity (analyzeOverlap A B) = NONE /\
  details (analyzeOverlap A B) = NoOverlapDetails (toString10 d) (d =? 0) (toString10 d).
Proof.
  apply (disjoint_ranges (range_network 0 10) (range_network 11 20)).
  - cbn. lia.
  - cbn. lia.
  - reflexivity.
Defined.

End ClassifierFurther.

Section Symmetry.
Import JS OverlapEngine.

Lemma calculateOverlapPercentage_swap (A B : Network) (overlapSize : Z) :
  calculateOverlapPercentage A B overlapSize = calculateOverlapPercentage B A overlapSize.
Proof.
  unfold calculateOverlapPercentage.
  set (size1 := broadcastBigInt A - networkBigInt A + 1).
  set (size2 := broadcastBigInt B - networkBigInt B + 1).
  replace (if size2 <? size1 then size2 else size1)
    with (if size1 <? size2 then size1 else size2); [reflexivity|].
  destruct (Z.ltb_spec size1 size2), (Z.ltb_spec size2 size1); lia.
Qed.

Lemma analyzeOverlapDetails_percentage (n1 n2 : Network) (s1 e1 s2 e2 : Z) :
  percentageOverlap_of (analyzeOverlapDetails n1 n2 s1 e1 s2 e2) =
  Some (calculateOverlapPercentage n1 n2 (Z.min e1 e2 - Z.max s1 s2 + 1)).
Proof.
  unfold analyzeOverlapDetails, percentageOverlap_of.
  replace (if e1 <? e2 then e1 else e2) with (Z.min e1 e2)
    by (destruct (Z.ltb_spec e1 e2); lia).
  replace (if s1 >? s2 then s1 else s2) with (Z.max s1 s2)
    by (rewrite Z.gtb_ltb; destruct (Z.ltb_spec s2 s1); lia).
  destruct ((s1 =? s2) && (e1 =? e2))%bool; [reflexivity|].
  destruct ((s1 <=? s2) && (e1 >=? e2))%bool; [reflexivity|].
  destruct ((s2 <=? s1) && (e2 >=? e1))%bool; reflexivity.
Qed.

Lemma analyzeOverlapDetails_details (n1 n2 : Network) (s1 e1 s2 e2 : Z) :
  details (analyzeOverlapDetails n1 n2 s1 e1 s2 e2) =
  OverlapDetails (IPv6Utils.bigIntToIPv6 (Z.max s1 s2))
    (IPv6Utils.bigIntToIPv6 (Z.min e1 e2))
    (toString10 (Z.min e1 e2 - Z.max s1 s2 + 1))
    (calculateOverlapPercentage n1 n2 (Z.min e1 e2 - Z.max s1 s2 + 1))
    (calculateAffectedAddresses (Z.min e1 e2 - Z.max s1 s2 + 1)).
Proof.
  unfold analyzeOverlapDetails.
  replace (if e1 <? e2 then e1 else e2) with (Z.min e1 e2)
    by (destruct (Z.ltb_spec e1 e2); lia).
  replace (if s1 >? s2 then s1 else s2) with (Z.max s1 s2)
    by (rewrite Z.gtb_ltb; destruct (Z.ltb_spec s2 s1); lia).
  destruct ((s1 =? s2) && (e1 =? e2))%bool; [reflexivity|].
  destruct ((s1 <=? s2) && (e1 >=? e2))%bool; [reflexivity|].
  destruct ((s2 <=? s1) && (e2 >=? e1))%bool; reflexivity.
Qed.

Lemma analyzeOverlapDetails_details_swap (A B : Network) (s1 e1 s2 e2 : Z) :
  details (analyzeOverlapDetails B A s2 e2 s1 e1) =
  details (analyzeOverlapDetails A B s1 e1 s2 e2).
Proof.
  rewrite !analyzeOverlapDetails_details.
  now rewrite (Z.min_comm e2 e1), (Z.max_comm s2 s1), (calculateOverlapPercentage_swap B A).
Qed.

Lemma hasOverlap_iff_false (A B : Network) :
  hasOverlap (analyzeOverlap A B) = false ->
  ~ ((networkBigInt A <= networkBigInt B /\ networkBigInt B <= broadcastBigInt A) \/
     (networkBigInt B <= networkBigInt A /\ networkBigInt A <= broadcastBigInt B)).
Proof. intros H C. apply hasOverlap_iff in C. congruence. Qed.

Lemma hasOverlap_swap (A B : Network) :
  hasOverlap (analyzeOverlap A B) = hasOverlap (analyzeOverlap B A).
Proof. rewrite !analyzeOverlap_hasOverlap. apply orb_comm. Qed.

Lemma type_severity_swap_overlapping (A B : Network) (s1 e1 s2 e2 : Z) :
  let r := analyzeOverlapDetails A B s1 e1 s2 e2 in
  let r' := analyzeOverlapDetails B A s2 e2 s1 e1 in
  type r' = mirror (type r) /\ severity r' = severity r.
Proof.
  intros r r'.
  pose proof (analyzeOverlapDetails_type_severity A B s1 e1 s2 e2) as E.
  pose proof (analyzeOverlapDetails_type_severity B A s2 e2 s1 e1) as E'.
  cbv zeta in E, E'. fold r in E. fold r' in E'.
  rewrite (Z.eqb_sym s2 s1), (Z.eqb_sym e2 e1) in E'.
  destruct ((s1 =? s2) && (e1 =? e2))%bool eqn:C1.
  - injection E as -> ->. injection E' as -> ->. now split.
  - destruct ((s1 <=? s2) && (e1 >=? e2))%bool eqn:C2;
      destruct ((s2 <=? s1) && (e2 >=? e1))%bool eqn:C3;
      injection E as -> ->; injection E' as -> ->; try (now split).
    exfalso. reflect_order. lia.
Qed.

(** X5.  For two ranges with base <= last, swapping them leaves the
    answer, the severity and the details (overlap bounds, size and
    percentage, or distance and gap) as they are, and turns the type into
    its mirror image: the two containments are exchanged and the other
    types stay. *)
Theorem classification_swap (A B : Network) :
  networkBigInt A <= broadcastBigInt A -> networkBigInt B <= broadcastBigInt B ->
  hasOverlap (analyzeOverlap B A) = hasOverlap (analyzeOverlap A B) /\
  type (analyzeOverlap B A) = mirror (type (analyzeOverlap A B)) /\
  severity (analyzeOverlap B A) = severity (analyzeOverlap A B) /\
  overlapSize_of (analyzeOverlap B A) = overlapSize_of (analyzeOverlap A B) /\
  percentageOverlap_of (analyzeOverlap B A) = percentageOverlap_of (analyzeOverlap A B) /\
  details (analyzeOverlap B A) = details (analyzeOverlap A B).
Proof.
  intros Ha Hb. pose proof (hasOverlap_swap A B) as Hs.
  destruct (hasOverlap (analyzeOverlap A B)) eqn:Ho.
  - symmetry in Hs.
    rewrite (analyzeOverlap_overlapping A B Ho), (analyzeOverlap_overlapping B A Hs).
    set (a0 := networkBigInt A). set (a1 := broadcastBigInt A).
    set (b0 := networkBigInt B). set (b1 := broadcastBigInt B).
    destruct (type_severity_swap_overlapping A B a0 a1 b0 b1) as [Ht Hsev].
    split; [apply analyzeOverlapDetails_hasOverlap|].
    split; [exact Ht|]. split; [exact Hsev|].
    rewrite !analyzeOverlapDetails_size, !analyzeOverlapDetails_percentage.
    rewrite (Z.min_comm b1 a1), (Z.max_comm b0 a0), (calculateOverlapPercentage_swap B A).
    split; [reflexivity|]. split; [reflexivity|].
    apply analyzeOverlapDetails_details_swap.
  - symmetry in Hs.
    rewrite (analyzeOverlap_disjoint A B Ho), (analyzeOverlap_disjoint B A Hs).
    unfold analyzeNoOverlap, overlapSize_of, percentageOverlap_of.
    cbn [hasOverlap type severity details].
    set (a0 := networkBigInt A). set (a1 := broadcastBigInt A).
    set (b0 := networkBigInt B). set (b1 := broadcastBigInt B).
    rewrite (orb_comm (b1 + 1 =? a0) (a1 + 1 =? b0)).
    assert (Ed : calculateDistance b0 b1 a0 a1 = calculateDistance a0 a1 b0 b1).
    { unfold calculateDistance. subst a0 a1 b0 b1.
      destruct (Z.ltb_spec (broadcastBigInt B) (networkBigInt A)),
        (Z.ltb_spec (broadcastBigInt A) (networkBigInt B)); try reflexivity; lia. }
    rewrite Ed.
    destruct ((a1 + 1 =? b0) || (b1 + 1 =? a0))%bool; repeat split.
Qed.

Lemma classification_swap_witness :
  let A := range_network 0 100 in
  let B := range_network 10 20 in
  hasOverlap (analyzeOverlap B A) = hasOverlap (analyzeOverlap A B) /\
  type (analyzeOverlap B A) = mirror (type (analyzeOverlap A B)) /\
  severity (analyzeOverlap B A) = severity (analyzeOverlap A B) /\
  overlapSize_of (analyzeOverlap B A) = overlapSize_of (analyzeOverlap A B) /\
  percentageOverlap_of (analyzeOverlap B A) = percentageOverlap_of (analyzeOverlap A B) /\
  details (analyzeOverlap B A) = details (analyzeOverlap A B).
Proof.
  apply (classification_swap (range_network 0 100) (range_network 10 20)); cbn; lia.
Defined.

(** X6.  For two overlapping ranges with base <= last, the percentage is
    the truncated quotient of overlapSize * 100 by the size of the
    smaller range, an integer between 0 and 100, and it is 100 exactly
    when one range contains the other. *)
Theorem percentage_truncated_and_bounded (A B : Network) :
  networkBigInt A <= broadcastBigInt A -> networkBigInt B <= broadcastBigInt B ->
  hasOverlap (analyzeOverlap A B) = true ->
  let a0 := networkBigInt A in
  let a1 := broadcastBigInt A in
  let b0 := networkBigInt B in
  let b1 := broadcastBigInt B in
  exists p : Q,
    percentageOverlap_of (analyzeOverlap A B) = Some p /\
    (p == inject_Z (Z.quot ((Z.min a1 b1 - Z.max a0 b0 + 1) * 100)
                      (Z.min (a1 - a0 + 1) (b1 - b0 + 1))))%Q /\
    (0 <= p)%Q /\ (p <= 100)%Q /\
    ((p == 100)%Q <-> (a0 <= b0 /\ b1 <= a1) \/ (b0 <= a0 /\ a1 <= b1)).
Proof. intros Ha Hb Ho. exact (percentage_of_overlapping A B Ha Hb Ho). Qed.

Lemma percentage_truncated_and_bounded_witness :
  exists p : Q,
    percentageOverlap_of (analyzeOverlap (range_network 0 6) (range_network 5 20)) = Some p /\
    (p == inject_Z (Z.quot ((Z.min 6 20 - Z.max 0 5 + 1) * 100)
                      (Z.min (6 - 0 + 1) (20 - 5 + 1))))%Q /\
    (0 <= p)%Q /\ (p <= 100)%Q /\
    ((p == 100)%Q <-> (0 <= 5 /\ 20 <= 6) \/ (5 <= 0 /\ 6 <= 20)).
Proof.
  apply (percentage_truncated_and_bounded (range_network 0 6) (range_network 5 20));
    [cbn; lia | cbn; lia | reflexivity].
Defined.

End Symmetry.

(** ** The network calculator *)

Section Calculator.
Import JS IPv6Utils.

Lemma calculateNetworkMask_in_range (p : Z) :
  0 <= p <= 128 -> calculateNetworkMask (Some p) = Some (2 ^ 128 - 2 ^ (128 - p)).
Proof.
  intros Hp. unfold calculateNetworkMask. rewrite Z.gtb_ltb.
  destruct (Z.ltb_spec p 0); [lia|]. destruct (Z.ltb_spec 128 p); [lia|]. cbn [orb].
  destruct (Z.eqb_spec p 0) as [->|Hp0]; [reflexivity|].
  f_equal. rewrite Z.shiftl_1_l, Z.shiftl_mul_pow2 by lia.
  rewrite Z.mul_sub_distr_r, <- Z.pow_add_r by lia.
  replace (p + (128 - p)) with 128 by lia. lia.
Qed.

(** X7.  The mask of a prefix length between 0 and 128 is
    2^128 - 2^(128 - p), the [p] high bits of 128; any other length, and
    a length that is not a number, is an error. *)
Theorem calculateNetworkMask_value :
  (forall p : Z, 0 <= p <= 128 ->
     calculateNetworkMask (Some p) = Some (2 ^ 128 - 2 ^ (128 - p))) /\
  (forall p : Z, p < 0 \/ 128 < p -> calculateNetworkMask (Some p) = None) /\
  calculateNetworkMask None = None.
Proof.
  split; [|split; [|reflexivity]].
  - exact calculateNetworkMask_in_range.
  - intros p Hp. unfold calculateNetworkMask. rewrite Z.gtb_ltb.
    destruct (Z.ltb_spec p 0); [reflexivity|]. destruct (Z.ltb_spec 128 p); [reflexivity|].
    lia.
Qed.

Lemma includes_slash_absent (s : string) :
  includes "/" s = false -> split1 "/" s = [s].
Proof.
  induction s as [|c s IH]; [reflexivity|].
  cbn [includes]. rewrite prefix_cons. intros H.
  apply orb_false_iff in H as [Hc Hs].
  assert (Ec : Ascii.eqb c "/" = false).
  { destruct (Ascii.eqb c "/"); [|reflexivity]. destruct s; discriminate Hc. }
  cbn [split1]. rewrite Ec, (IH Hs). reflexivity.
Qed.

(** X8.  A text without a slash has no network information, even when it
    is a valid address: the overlap check fails on it, with [hasOverlap]
    null, and no block is suggested beside it. *)
Theorem no_prefix_no_network (cidr other : string) :
  includes "/" cidr = false ->
  getNetworkInfo cidr = None /\
  OverlapEngine.result_hasOverlap (OverlapEngine.checkOverlapAdvanced cidr other) = None /\
  OverlapEngine.result_hasOverlap (OverlapEngine.checkOverlapAdvanced other cidr) = None /\
  OverlapEngine.generateSuggestion other cidr = None.
Proof.
  intros H.
  assert (Eg : getNetworkInfo cidr = None).
  { unfold getNetworkInfo. destruct (negb _); [reflexivity|].
    rewrite (includes_slash_absent cidr H). cbn [nth_error parseInt10_opt].
    destruct (ipv6ToBigInt _); reflexivity. }
  assert (Ev : OverlapEngine.validateAndGetNetworkInfo cidr = None).
  { unfold OverlapEngine.validateAndGetNetworkInfo. now rewrite H. }
  split; [exact Eg|]. unfold OverlapEngine.checkOverlapAdvanced. rewrite Ev.
  split; [|split].
  - now destruct (_ || _)%bool.
  - destruct (_ || _)%bool; [reflexivity|].
    now destruct (OverlapEngine.validateAndGetNetworkInfo other).
  - unfold OverlapEngine.generateSuggestion. now rewrite Eg.
Qed.

Lemma no_prefix_no_network_witness :
  valid (validateIPv6 "2001:db8::1") = true /\
  getNetworkInfo "2001:db8::1" = None /\
  OverlapEngine.result_hasOverlap
    (OverlapEngine.checkOverlapAdvanced "2001:db8::1" "2001:db8::/32") = None /\
  OverlapEngine.result_hasOverlap
    (OverlapEngine.checkOverlapAdvanced "2001:db8::/32" "2001:db8::1") = None /\
  OverlapEngine.generateSuggestion "2001:db8::/32" "2001:db8::1" = None.
Proof.
  split; [reflexivity|].
  apply (no_prefix_no_network "2001:db8::1" "2001:db8::/32"). reflexivity.
Defined.

End Calculator.

(** ** The range of a plain CIDR text *)

Section Ranges.
Import JS IPv6Utils.

Lemma hex_value_range (c : ascii) : is_hex c = true -> 0 <= hex_value c <= 15.
Proof.
  destruct c as [[] [] [] [] [] [] [] []]; vm_compute; intros H;
    first [discriminate H | split; congruence].
Qed.

Lemma hex_digits_value_range (s : string) (acc : Z) :
  all is_hex s = true -> 0 <= acc ->
  acc * 16 ^ Z.of_nat (String.length s) <= hex_digits_value acc s
    < (acc + 1) * 16 ^ Z.of_nat (String.length s).
Proof.
  revert acc. induction s as [|c s IH]; intros acc Hs Hacc.
  - cbn. lia.
  - cbn [all] in Hs. apply andb_true_iff in Hs as [Hc Hs].
    pose proof (hex_value_range c Hc) as Hv.
    cbn [hex_digits_value String.length]. rewrite Nat2Z.inj_succ, Z.pow_succ_r by lia.
    specialize (IH (16 * acc + hex_value c) Hs ltac:(lia)).
    assert (0 < 16 ^ Z.of_nat (String.length s)) by (apply Z.pow_pos_nonneg; lia).
    nia.
Qed.

Lemma remove_colons_append (s t : string) :
  remove_colons (s +++ t) = remove_colons s +++ remove_colons t.
Proof.
  induction s as [|c s IH]; cbn; [reflexivity|].
  destruct (Ascii.eqb c ":"); cbn; now rewrite IH.
Qed.

Lemma remove_colons_nocolon (g : string) : nocolon g = true -> remove_colons g = g.
Proof.
  induction g as [|c g IH]; cbn; [reflexivity|].
  intros H. apply andb_true_iff in H as [Hc Hg]. apply negb_true_iff in Hc.
  now rewrite Hc, IH.
Qed.

Lemma remove_colons_join_length (groups : list string) :
  forallb group4 groups = true ->
  String.length (remove_colons (join ":" groups)) = (4 * List.length groups)%nat.
Proof.
  induction groups as [|g groups IH]; [reflexivity|].
  cbn [forallb]. intros H. apply andb_true_iff in H as [Hg Hgs].
  assert (Hl : String.length g = 4%nat).
  { unfold group4 in Hg. apply andb_true_iff in Hg as [Hg _]. now apply Nat.eqb_eq. }
  assert (Hn : remove_colons g = g) by now apply remove_colons_nocolon, hex_nocolon, group4_hex.
  destruct groups as [|h groups].
  - rewrite join_single, Hn, Hl. reflexivity.
  - rewrite join_cons, !remove_colons_append, !length_append, Hn, Hl, (IH Hgs).
    cbn [remove_colons Ascii.eqb String.length List.length]. cbn. lia.
Qed.

(** The integer of an accepted address is below 2^128. *)
Lemma ipv6ToBigInt_valid (address : string) :
  isValidFormat address = true ->
  exists ip : Z, ipv6ToBigInt address = Some ip /\ 0 <= ip < 2 ^ 128.
Proof.
  intros Hv. destruct (performExpansion_valid address Hv) as (groups & Hg & HE).
  unfold ipv6ToBigInt, expandAddress. rewrite HE, (BigInt_of_hex_expanded groups Hg).
  eexists. split; [reflexivity|].
  pose proof Hg as [Hlen Hall].
  pose proof (hex_digits_value_range (remove_colons (join ":" groups)) 0
    (remove_colons_hex _ (address_units_expanded groups Hg)) ltac:(lia)) as Hr.
  rewrite (remove_colons_join_length groups Hall), Hlen in Hr.
  change (16 ^ Z.of_nat (4 * 8)) with (2 ^ 128) in Hr. lia.
Qed.

Lemma testbit_above (a n k : Z) : 0 <= a < 2 ^ k -> k <= n -> Z.testbit a n = false.
Proof.
  intros Ha Hk. destruct (Z.eq_dec a 0) as [->|Hnz]; [apply Z.testbit_0_l|].
  apply Z.bits_above_log2; [lia|].
  assert (0 <= k).
  { destruct (Z_lt_le_dec k 0) as [Hneg|]; [|assumption].
    rewrite Z.pow_neg_r in Ha by assumption. lia. }
  assert (Z.log2 a < k) by (apply Z.log2_lt_pow2; lia). lia.
Qed.

(** Masking an address of [p + h] bits with [p] ones followed by [h]
    zeros clears its [h] low bits. *)
Lemma land_high_ones (a p h : Z) :
  0 <= p -> 0 <= h -> 0 <= a < 2 ^ (p + h) ->
  Z.land a (Z.shiftl (Z.ones p) h) = a / 2 ^ h * 2 ^ h.
Proof.
  intros Hp Hh Ha.
  rewrite <- Z.shiftr_div_pow2, <- Z.shiftl_mul_pow2 by assumption.
  apply Z.bits_inj'. intros n Hn.
  rewrite Z.land_spec, !Z.shiftl_spec by assumption.
  destruct (Z_lt_le_dec n h) as [Hlow|Hhigh].
  - rewrite !(Z.testbit_neg_r _ (n - h)) by lia. apply andb_false_r.
  - rewrite Z.shiftr_spec by lia. replace (n - h + h) with n by lia.
    destruct (Z_lt_le_dec (n - h) p) as [Hin|Hout].
    + rewrite Z.ones_spec_low by lia. apply andb_true_r.
    + rewrite (testbit_above a n (p + h)) by (try assumption; lia). reflexivity.
Qed.

(** The fields of the network information of a plain CIDR text. *)
Lemma getNetworkInfo_fields (text : string) :
  plain_cidr text = true ->
  exists (info : NetworkInfo) (ip : Z),
    getNetworkInfo text = Some info /\
    ipv6ToBigInt (nth 0 (split1 "/" text) EmptyString) = Some ip /\
    0 <= ip < 2 ^ 128 /\
    0 <= prefixLen info <= 128 /\
    hostBits info = 128 - prefixLen info /\
    mask info = 2 ^ 128 - 2 ^ hostBits info /\
    networkBigInt info = ip / 2 ^ hostBits info * 2 ^ hostBits info /\
    broadcastBigInt info = networkBigInt info + 2 ^ hostBits info - 1.
Proof.
  intros H. destruct (plain_cidr_parts text H)
    as (a & d & p & Es & E & Hv & Hd & _ & Ep & _ & Hp).
  destruct (ipv6ToBigInt_valid a Hv) as (ip & Eip & Hip).
  pose proof calculateNetworkMask_in_range as Hmask.
  unfold getNetworkInfo. rewrite (validateIPv6_plain_cidr text H), Es.
  cbn [negb nth nth_error parseInt10_opt]. rewrite Ep, Eip, (Hmask p Hp).
  eexists. exists ip. split; [reflexivity|].
  cbn [prefixLen hostBits mask networkBigInt broadcastBigInt].
  rewrite Z.shiftl_1_l.
  assert (Emask : 2 ^ 128 - 2 ^ (128 - p) = Z.shiftl (Z.ones p) (128 - p)).
  { rewrite Z.ones_equiv, Z.shiftl_mul_pow2, <- Z.sub_1_r, Z.mul_sub_distr_r,
      <- Z.pow_add_r by lia.
    replace (p + (128 - p)) with 128 by lia. lia. }
  repeat split; try lia.
  rewrite Emask. apply land_high_ones; try lia.
  now replace (p + (128 - p)) with 128 by lia.
Qed.



End Ranges.

(** ** CIDR blocks are nested or disjoint *)

Section Nesting.
Import JS IPv6Utils OverlapEngine.

(** Two aligned blocks that meet: the smaller lies in the larger. *)
Lemma aligned_blocks_nest (q1 q2 h1 h2 : Z) :
  0 <= h2 <= h1 ->
  let a0 := q1 * 2 ^ h1 in
  let a1 := a0 + 2 ^ h1 - 1 in
  let b0 := q2 * 2 ^ h2 in
  let b1 := b0 + 2 ^ h2 - 1 in
  a0 <= b1 -> b0 <= a1 -> a0 <= b0 /\ b1 <= a1.
Proof.
  intros Hh a0 a1 b0 b1 H1 H2.
  set (B := 2 ^ h2) in *. set (m := 2 ^ (h1 - h2)).
  assert (HB : 0 < B) by (apply Z.pow_pos_nonneg; lia).
  assert (Hm : 0 < m) by (apply Z.pow_pos_nonneg; lia).
  assert (E : 2 ^ h1 = m * B).
  { unfold m, B. rewrite <- Z.pow_add_r by lia. f_equal. lia. }
  subst a0 a1 b0 b1. rewrite E in *.
  assert (Hlo : q1 * m <= q2).
  { apply Z.lt_succ_r. apply Z.mul_lt_mono_pos_r with B; [assumption|]. lia. }
  assert (Hhi : q2 + 1 <= (q1 + 1) * m).
  { apply Z.lt_succ_r. rewrite <- Z.add_1_r.
    assert (q2 * B < (q1 + 1) * m * B) by lia.
    assert (q2 < (q1 + 1) * m) by (apply Z.mul_lt_mono_pos_r with B; assumption). lia. }
  split; nia.
Qed.

Lemma type_partial (A B : Network) :
  type (analyzeOverlap A B) = PARTIAL ->
  hasOverlap (analyzeOverlap A B) = true /\
  ~ (networkBigInt A <= networkBigInt B /\ broadcastBigInt B <= broadcastBigInt A) /\
  ~ (networkBigInt B <= networkBigInt A /\ broadcastBigInt A <= broadcastBigInt B).
Proof.
  intros T. destruct (hasOverlap (analyzeOverlap A B)) eqn:Ho.
  - split; [reflexivity|].
    rewrite (analyzeOverlap_overlapping A B Ho) in T.
    pose proof (analyzeOverlapDetails_type_severity A B
      (networkBigInt A) (broadcastBigInt A) (networkBigInt B) (broadcastBigInt B)) as E.
    cbv zeta in E. rewrite T in E.
    destruct (_ && _)%bool eqn:C1 in E; [discriminate E|].
    destruct (_ && _)%bool eqn:C2 in E; [discriminate E|].
    destruct (_ && _)%bool eqn:C3 in E; [discriminate E|].
    reflect_order. lia.
  - rewrite (analyzeOverlap_disjoint A B Ho) in T.
    destruct (analyzeNoOverlap_type A B (networkBigInt A) (broadcastBigInt A)
                (networkBigInt B) (broadcastBigInt B)) as [E|E];
      rewrite E in T; discriminate T.
Qed.

Lemma includes_slash_mid (a d : string) : includes "/" (a +++ String "/" d) = true.
Proof.
  induction a as [|c a IH].
  - cbn [String.append includes]. rewrite prefix_cons. now destruct d.
  - rewrite append_cons. cbn [includes]. rewrite IH. apply orb_true_r.
Qed.

Lemma validateAndGetNetworkInfo_plain_cidr (text : string) :
  plain_cidr text = true ->
  exists n : Network,
    validateAndGetNetworkInfo text = Some n /\
    getNetworkInfo text = Some (info n) /\ original n = text.
Proof.
  intros H. destruct (plain_cidr_parts text H) as (a & d & p & _ & E & _).
  destruct (getNetworkInfo_plain_cidr text H) as (i & _ & Ei & _).
  pose proof (validateIPv6_plain_cidr text H) as Hv.
  assert (Hinc : includes "/" text = true) by (rewrite E; apply includes_slash_mid).
  unfold validateAndGetNetworkInfo. rewrite Hinc. cbn [negb].
  destruct (validateIPv6 text) as [v|e]; [|discriminate Hv].
  rewrite Ei. eexists. split; [reflexivity|]. now split.
Qed.

(** X10.  The overlap check of two plain CIDR texts succeeds and never
    answers "partial": when the two blocks overlap, one contains the
    other and the percentage is 100; they are identical exactly when
    they have the same base and the same prefix length. *)
Theorem cidr_blocks_nest_or_are_disjoint (cidr1 cidr2 : string) :
  plain_cidr cidr1 = true -> plain_cidr cidr2 = true ->
  exists n1 n2 : Network,
    checkOverlapAdvanced cidr1 cidr2 = Checked cidr1 cidr2 n1 n2 (analyzeOverlap n1 n2) /\
    getNetworkInfo cidr1 = Some (info n1) /\ getNetworkInfo cidr2 = Some (info n2) /\
    let r := analyzeOverlap n1 n2 in
    type r <> PARTIAL /\
    (hasOverlap r = true ->
     ((networkBigInt n1 <= networkBigInt n2 /\ broadcastBigInt n2 <= broadcastBigInt n1) \/
      (networkBigInt n2 <= networkBigInt n1 /\ broadcastBigInt n1 <= broadcastBigInt n2)) /\
     exists p : Q, percentageOverlap_of r = Some p /\ (p == 100)%Q) /\
    (type r = IDENTICAL <->
     networkBigInt n1 = networkBigInt n2 /\ prefixLen (info n1) = prefixLen (info n2)).
Proof.
  intros H1 H2.
  destruct (validateAndGetNetworkInfo_plain_cidr cidr1 H1) as (n1 & Ev1 & Eg1 & _).
  destruct (validateAndGetNetworkInfo_plain_cidr cidr2 H2) as (n2 & Ev2 & Eg2 & _).
  destruct (getNetworkInfo_fields cidr1 H1)
    as (i1 & ip1 & Ei1 & _ & Hip1 & Hp1 & Eh1 & _ & En1 & Eb1).
  destruct (getNetworkInfo_fields cidr2 H2)
    as (i2 & ip2 & Ei2 & _ & Hip2 & Hp2 & Eh2 & _ & En2 & Eb2).
  rewrite Eg1 in Ei1. injection Ei1 as <-. rewrite Eg2 in Ei2. injection Ei2 as <-.
  exists n1, n2. split.
  { unfold checkOverlapAdvanced. rewrite Ev1, Ev2.
    destruct (plain_cidr_parts cidr1 H1) as (a1' & d1 & p1 & _ & E1 & _).
    destruct (plain_cidr_parts cidr2 H2) as (a2' & d2 & p2 & _ & E2 & _).
    assert (N1 : is_empty cidr1 = false) by (rewrite E1; now destruct a1').
    assert (N2 : is_empty cidr2 = false) by (rewrite E2; now destruct a2').
    now rewrite N1, N2. }
  split; [exact Eg1|]. split; [exact Eg2|].
  fold (networkBigInt n1) in En1, Eb1. fold (broadcastBigInt n1) in Eb1.
  fold (networkBigInt n2) in En2, Eb2. fold (broadcastBigInt n2) in Eb2.
  rewrite Eh1 in *. rewrite Eh2 in *.
  set (h1 := 128 - prefixLen (info n1)) in *. set (h2 := 128 - prefixLen (info n2)) in *.
  assert (P1 : 0 < 2 ^ h1) by (apply Z.pow_pos_nonneg; lia).
  assert (P2 : 0 < 2 ^ h2) by (apply Z.pow_pos_nonneg; lia).
  assert (Hnest : networkBigInt n1 <= broadcastBigInt n2 ->
                  networkBigInt n2 <= broadcastBigInt n1 ->
                  (h2 <= h1 -> networkBigInt n1 <= networkBigInt n2 /\
                               broadcastBigInt n2 <= broadcastBigInt n1) /\
                  (h1 <= h2 -> networkBigInt n2 <= networkBigInt n1 /\
                               broadcastBigInt n1 <= broadcastBigInt n2)).
  { intros Hx Hy. rewrite Eb1, Eb2, En1, En2 in *. split; intros Hh.
    - apply (aligned_blocks_nest (ip1 / 2 ^ h1) (ip2 / 2 ^ h2) h1 h2); lia.
    - apply (aligned_blocks_nest (ip2 / 2 ^ h2) (ip1 / 2 ^ h1) h2 h1); lia. }
  assert (Hv1 : networkBigInt n1 <= broadcastBigInt n1) by lia.
  assert (Hv2 : networkBigInt n2 <= broadcastBigInt n2) by lia.
  assert (Hcont : hasOverlap (analyzeOverlap n1 n2) = true ->
            (networkBigInt n1 <= networkBigInt n2 /\ broadcastBigInt n2 <= broadcastBigInt n1) \/
            (networkBigInt n2 <= networkBigInt n1 /\ broadcastBigInt n1 <= broadcastBigInt n2)).
  { intros Ho. destruct (hasOverlap_true_bounds n1 n2 Hv1 Hv2 Ho) as [Hx Hy].
    destruct (Hnest Hx Hy) as [Ha Hb].
    destruct (Z_le_gt_dec h2 h1); [left; apply Ha; lia | right; apply Hb; lia]. }
  intros r. subst r. split; [|split].
  - intros T. destruct (type_partial n1 n2 T) as (Ho & Hn1 & Hn2).
    destruct (Hcont Ho); tauto.
  - intros Ho. split; [now apply Hcont|].
    destruct (percentage_of_overlapping n1 n2 Hv1 Hv2 Ho) as (p & Ep & _ & _ & _ & H100).
    exists p. split; [exact Ep|]. apply H100. destruct (Hcont Ho); lia.
  - split.
    + intros T.
      assert (Ho : hasOverlap (analyzeOverlap n1 n2) = true).
      { destruct (hasOverlap (analyzeOverlap n1 n2)) eqn:Ho; [reflexivity|].
        rewrite (analyzeOverlap_disjoint n1 n2 Ho) in T.
        destruct (analyzeNoOverlap_type n1 n2 (networkBigInt n1) (broadcastBigInt n1)
                    (networkBigInt n2) (broadcastBigInt n2)) as [E|E];
          rewrite E in T; discriminate T. }
      rewrite (analyzeOverlap_overlapping n1 n2 Ho) in T.
      pose proof (analyzeOverlapDetails_type_severity n1 n2
        (networkBigInt n1) (broadcastBigInt n1) (networkBigInt n2) (broadcastBigInt n2)) as E.
      cbv zeta in E. rewrite T in E.
      destruct (_ && _)%bool eqn:C1 in E.
      * reflect_order. destruct C1 as [C0 C1]. split; [exact C0|].
        assert (Epow : 2 ^ h1 = 2 ^ h2) by lia.
        apply Z.pow_inj_r in Epow; lia.
      * destruct (_ && _)%bool in E; [discriminate E|].
        destruct (_ && _)%bool in E; discriminate E.
    + intros [E0 Ep].
      assert (Eh : h1 = h2) by (subst h1 h2; lia).
      assert (Ho : hasOverlap (analyzeOverlap n1 n2) = true).
      { apply bounds_hasOverlap_true; try assumption. rewrite Eh in *. lia. }
      apply (identical_case n1 n2 Ho E0). rewrite Eh in *. lia.
Qed.

Lemma cidr_blocks_nest_or_are_disjoint_witness :
  exists n1 n2 : Network,
    checkOverlapAdvanced "2001:db8::/32" "2001:db8:1::/48" =
    Checked "2001:db8::/32" "2001:db8:1::/48" n1 n2 (analyzeOverlap n1 n2) /\
    getNetworkInfo "2001:db8::/32" = Some (info n1) /\
    getNetworkInfo "2001:db8:1::/48" = Some (info n2) /\
    let r := analyzeOverlap n1 n2 in
    type r <> PARTIAL /\
    (hasOverlap r = true ->
     ((networkBigInt n1 <= networkBigInt n2 /\ broadcastBigInt n2 <= broadcastBigInt n1) \/
      (networkBigInt n2 <= networkBigInt n1 /\ broadcastBigInt n1 <= broadcastBigInt n2)) /\
     exists p : Q, percentageOverlap_of r = Some p /\ (p == 100)%Q) /\
    (type r = IDENTICAL <->
     networkBigInt n1 = networkBigInt n2 /\ prefixLen (info n1) = prefixLen (info n2)).
Proof.
  apply (cidr_blocks_nest_or_are_disjoint "2001:db8::/32" "2001:db8:1::/48"); reflexivity.
Defined.

End Nesting.

(** ** The percentage that the overlap check reports *)

Section ReportedPercentage.
Import JS IPv6Utils OverlapEngine.








End ReportedPercentage.

(** ** The validator on its own results *)

Section Acceptance.
Import JS IPv6Utils.

Lemma count_dcolon_mid (s1 s2 : string) :
  tidy s1 = true -> count_dcolon (s1 +++ "::" +++ s2) = S (count_dcolon s2).
Proof.
  induction s1 as [|c s IH]; intros H.
  - reflexivity.
  - pose proof (tidy_step c s H) as Hstep.
    destruct s as [|c' s].
    + cbn in H. apply negb_true_iff in H.
      cbn [String.append count_dcolon]. rewrite H. cbn [andb]. reflexivity.
    + rewrite !append_cons. cbn [count_dcolon]. rewrite Hstep.
      rewrite <- append_cons. apply IH. now apply tidy_tail with c.
Qed.

Lemma no_tcolon_mid (s1 s2 : string) :
  tidy s1 = true -> tidy s2 = true -> head_not_colon s2 = true ->
  includes ":::" (s1 +++ "::" +++ s2) = false.
Proof.
  intros H1 H2 Hh. induction s1 as [|c s IH].
  - destruct (includes ":::" ("" +++ "::" +++ s2)) eqn:E; [|reflexivity].
    apply includes_tcolon_step in E. rewrite includes_dcolon_step in E.
    rewrite (tidy_no_dcolon _ H2), orb_false_r in E.
    destruct s2 as [|c2 r2]; [discriminate E|].
    cbn in Hh. apply negb_true_iff in Hh. now rewrite Hh in E.
  - rewrite append_cons. cbn [includes].
    pose proof (tidy_step c s H1) as Hstep.
    destruct s as [|c' s].
    + cbn in H1. apply negb_true_iff in H1.
      rewrite prefix_cons, H1. cbn [andb orb]. apply IH. reflexivity.
    + rewrite IH by now apply tidy_tail with c.
      rewrite orb_false_r, append_cons, !prefix_cons.
      destruct (Ascii.eqb c ":"); cbn [andb] in Hstep |- *; [|reflexivity].
      now rewrite Hstep.
Qed.

Lemma join_head_not_colon (gs : list string) :
  forallb solid gs = true -> head_not_colon (join ":" gs) = true.
Proof.
  destruct gs as [|g gs]; [reflexivity|]. intros H.
  cbn [forallb] in H. apply andb_true_iff in H as [Hg _].
  destruct (join_solid_head g gs Hg) as (c & r & E & Hc).
  rewrite E. cbn. now rewrite Hc.
Qed.

(** A text of eight groups of one to four hexadecimal digits is accepted. *)
Lemma isValidFormat_full (gs : list string) :
  List.length gs = 8%nat -> forallb HEX_GROUP gs = true ->
  isValidFormat (join ":" gs) = true.
Proof.
  intros Hlen Hall.
  assert (Hs : forallb solid gs = true)
    by (apply forallb_impl with (p := HEX_GROUP); [exact HEX_GROUP_solid | exact Hall]).
  assert (Ht : tidy (join ":" gs) = true) by now apply tidy_join.
  assert (Hu : address_units (join ":" gs) = true)
    by now apply address_units_join, solid_hex_units.
  unfold isValidFormat. unfold address_units in Hu. rewrite Hu. cbn [negb].
  destruct gs as [|g gs]; [discriminate Hlen|].
  pose proof Hs as Hs'. cbn [forallb] in Hs'. apply andb_true_iff in Hs' as [Hg _].
  destruct (join_solid_head g gs Hg) as (c & r & E & _).
  rewrite E at 1. cbn [is_empty].
  rewrite (count_dcolon_tidy _ Ht). cbn [Nat.ltb Nat.leb].
  rewrite (no_tcolon_of_no_dcolon _ (tidy_no_dcolon _ Ht)), (tidy_no_dcolon _ Ht).
  unfold validateFullFormat. rewrite split1_join; [|discriminate|now apply solid_nocolon].
  rewrite Hlen. cbn [Nat.eqb negb]. exact Hall.
Qed.

(** The text with a double colon in place of a run of at least one group
    is accepted. *)
Lemma isValidFormat_compressed_text (groups : list string) (s l : nat) :
  expanded_groups groups -> (1 <= l)%nat -> (s + l <= 8)%nat ->
  isValidFormat (compressed_text groups s l) = true.
Proof.
  intros [Hlen Hall] Hl Hsl. unfold compressed_text.
  set (before := map strip_group (firstn s groups)).
  set (after := map strip_group (skipn (s + l) groups)).
  assert (Hb4 : forallb group4 (firstn s groups) = true) by now apply forallb_firstn.
  assert (Ha4 : forallb group4 (skipn (s + l) groups) = true) by now apply forallb_skipn.
  assert (Hbs : forallb solid before = true) by now apply strip_groups_solid.
  assert (Has : forallb solid after = true) by now apply strip_groups_solid.
  assert (Hbh : forallb HEX_GROUP before = true) by now apply strip_groups_HEX.
  assert (Hah : forallb HEX_GROUP after = true) by now apply strip_groups_HEX.
  assert (Hunits : address_units (join ":" before +++ "::" +++ join ":" after) = true).
  { unfold address_units. rewrite !all_append.
    fold (address_units (join ":" before)). fold (address_units (join ":" after)).
    rewrite !address_units_join by now apply solid_hex_units. reflexivity. }
  assert (Hne : is_empty (join ":" before +++ "::" +++ join ":" after) = false).
  { destruct (join ":" before); reflexivity. }
  unfold isValidFormat. rewrite Hne.
  unfold address_units in Hunits. rewrite Hunits. cbn [negb].
  rewrite count_dcolon_mid by now apply tidy_join.
  rewrite count_dcolon_tidy by now apply tidy_join. cbn [Nat.ltb Nat.leb].
  rewrite no_tcolon_mid by (try apply tidy_join; try apply join_head_not_colon; assumption).
  rewrite includes_dcolon_mid.
  unfold validateCompressedFormat.
  rewrite split_dcolon_mid by now apply tidy_join.
  rewrite split_dcolon_tidy by now apply tidy_join.
  cbn [List.length Nat.eqb negb nth_error]. rewrite !groups_of_join by assumption.
  assert (Hcount : (List.length before + List.length after = 8 - l)%nat).
  { subst before after. rewrite !length_map, length_firstn, length_skipn. lia. }
  rewrite Hcount.
  destruct (Nat.ltb_spec 8 (8 - l)); [lia|].
  now rewrite forallb_app, Hbh, Hah.
Qed.

Lemma isValidFormat_performCompression (groups : list string) :
  expanded_groups groups -> isValidFormat (performCompression (join ":" groups)) = true.
Proof.
  intros Hg. pose proof Hg as [Hlen Hall].
  rewrite (performCompression_expanded groups Hg).
  destruct (Z.ltb_spec (bestLength (longest_zero_run groups)) 2) as [Hlt|Hge].
  - apply isValidFormat_full; [now rewrite length_map | now apply strip_groups_HEX].
  - destruct (best_run_zero_run groups ltac:(lia)) as [Hrun Hb].
    apply isValidFormat_compressed_text; [assumption | lia | assumption].
Qed.

Lemma getAddressType_expanding (a e : string) :
  expandAddress a = Some e -> In (getAddressType a) ADDRESS_TYPES.
Proof.
  intros E. unfold getAddressType. rewrite E. unfold ADDRESS_TYPES.
  repeat match goal with
  | |- In (if ?c then _ else _) _ => destruct c
  end; cbn; tauto.
Qed.

Lemma validateIPv6_address (a : string) :
  isValidFormat a = true ->
  exists E,
    expandAddress a = Some E /\
    validateIPv6 a =
    Valid {| original := a; cleanAddress := a; prefix := None; zoneId := None;
             expanded := E; compressed := compressAddress a;
             type := getAddressType a; scope := getAddressScope a |}.
Proof.
  intros Hv. destruct (isValidFormat_units a Hv) as [Hu Hne].
  destruct (performExpansion_valid a Hv) as (groups & _ & HE).
  exists (join ":" groups). split; [exact HE|].
  unfold address_units in Hu.
  assert (Hnosp : all (fun c => negb (is_space c)) a = true).
  { revert Hu. apply all_impl. intros c Hc. now destruct (address_unit c Hc) as (-> & _). }
  unfold validateIPv6. rewrite trim_no_space by assumption.
  assert (Hea : is_empty a = false) by (destruct a; [congruence | reflexivity]).
  rewrite Hea. unfold performValidation, match_CIDR.
  rewrite split_last_absent.
  2:{ revert Hu. apply all_impl. intros c Hc.
      now destruct (address_unit c Hc) as (_ & _ & _ & ->). }
  cbn [prefix_out_of_bounds].
  unfold match_ZONE_ID. rewrite split_zone_absent.
  2:{ revert Hu. apply all_impl. intros c Hc.
      now destruct (address_unit c Hc) as (_ & _ & -> & _). }
  cbn [option_map]. rewrite (strip_brackets_address a Hu), Hv. cbn [negb].
  unfold expandAddress in *. now rewrite HE.
Qed.


(** X11.  What a valid result of [validateIPv6] holds: the trimmed text
    as [original]; a clean address that [isValidFormat] accepts and that
    expands to [expanded], eight groups of four hexadecimal digits; as
    [compressed] the compression of [expanded], which is accepted in its
    turn and expands to [expanded] again; a prefix length, if any,
    between 0 and 128; and one of the nine types. *)
Theorem valid_result_postconditions (text : string) (v : Validation) :
  validateIPv6 text = Valid v ->
  original v = trim text /\
  isValidFormat (cleanAddress v) = true /\
  expandAddress (cleanAddress v) = Some (expanded v) /\
  isExpanded (expanded v) = true /\
  compressed v = compressAddress (expanded v) /\
  isValidFormat (compressed v) = true /\
  expandAddress (compressed v) = Some (expanded v) /\
  (forall p, prefix v = Some p -> 0 <= p <= 128) /\
  In (type v) ADDRESS_TYPES.
Proof.
  unfold validateIPv6. destruct (is_empty text); [discriminate|].
  unfold performValidation.
  set (cidrMatch := match_CIDR (trim text)).
  set (pfx := match cidrMatch with Some (_, d) => parseInt10 d | None => None end).
  destruct (prefix_out_of_bounds pfx) eqn:Hb; [discriminate|].
  set (clean := strip_brackets _).
  destruct (isValidFormat clean) eqn:Hv; [|discriminate]. cbn [negb].
  destruct (expandAddress clean) as [e|] eqn:He; [|discriminate].
  intros [= <-]. cbn [original cleanAddress expanded compressed prefix type].
  destruct (performExpansion_valid clean Hv) as (groups & Hg & HE).
  unfold expandAddress in He. rewrite HE in He. injection He as <-.
  pose proof (performExpansion_expanded groups Hg) as HEE.
  split; [reflexivity|]. split; [exact Hv|]. split; [exact HE|].
  split; [now apply isExpanded_join|].
  unfold compressAddress, expandAddress.
  rewrite (performCompression_through_expansion clean _ HE HEE).
  split; [reflexivity|].
  split; [now apply isValidFormat_performCompression|].
  split; [now apply performExpansion_performCompression|].
  split.
  - intros p Hp. rewrite Hp in Hb. cbn [prefix_out_of_bounds] in Hb.
    reflect_order. lia.
  - now apply getAddressType_expanding with (join ":" groups).
Qed.

Lemma valid_result_postconditions_witness :
  exists v : Validation,
    validateIPv6 " 2001:DB8::1%eth0/64 " = Valid v /\
    original v = trim " 2001:DB8::1%eth0/64 " /\
    isValidFormat (cleanAddress v) = true /\
    expandAddress (cleanAddress v) = Some (expanded v) /\
    isExpanded (expanded v) = true /\
    compressed v = compressAddress (expanded v) /\
    isValidFormat (compressed v) = true /\
    expandAddress (compressed v) = Some (expanded v) /\
    (forall p, prefix v = Some p -> 0 <= p <= 128) /\
    In (type v) ADDRESS_TYPES.
Proof.
  eexists. split; [vm_compute; reflexivity|].
  apply (valid_result_postconditions " 2001:DB8::1%eth0/64 "). vm_compute. reflexivity.
Defined.

(** X12.  What [compressAddress] makes of an accepted text is accepted
    in its turn: [isValidFormat] accepts it, and [validateIPv6] finds it
    valid, without prefix or zone, with the expanded text of the
    original and with itself as its compressed form. *)
Theorem compressed_text_is_accepted (T : string) :
  isValidFormat T = true ->
  exists (E : string) (v : Validation),
    expandAddress T = Some E /\
    isValidFormat (compressAddress T) = true /\
    validateIPv6 (compressAddress T) = Valid v /\
    cleanAddress v = compressAddress T /\ expanded v = E /\
    compressed v = compressAddress T /\ prefix v = None /\ zoneId v = None.
Proof.
  intros Hv. destruct (performExpansion_valid T Hv) as (groups & Hg & HE).
  pose proof (performExpansion_expanded groups Hg) as HEE.
  pose proof (performExpansion_performCompression groups Hg) as Hback.
  pose proof (isValidFormat_performCompression groups Hg) as Hacc.
  unfold compressAddress. rewrite (performCompression_through_expansion T _ HE HEE).
  destruct (validateIPv6_address _ Hacc) as (E' & HE' & Hval).
  unfold expandAddress in HE'. rewrite Hback in HE'. injection HE' as <-.
  exists (join ":" groups). eexists. split; [exact HE|]. split; [exact Hacc|].
  split; [exact Hval|]. cbn [cleanAddress expanded compressed prefix zoneId].
  repeat split. unfold compressAddress.
  now apply performCompression_through_expansion.
Qed.

Lemma compressed_text_is_accepted_witness :
  exists (E : string) (v : Validation),
    expandAddress "2001:0db8:0:0:1:0:0:1" = Some E /\
    isValidFormat (compressAddress "2001:0db8:0:0:1:0:0:1") = true /\
    validateIPv6 (compressAddress "2001:0db8:0:0:1:0:0:1") = Valid v /\
    cleanAddress v = compressAddress "2001:0db8:0:0:1:0:0:1" /\ expanded v = E /\
    compressed v = compressAddress "2001:0db8:0:0:1:0:0:1" /\
    prefix v = None /\ zoneId v = None.
Proof. apply (compressed_text_is_accepted "2001:0db8:0:0:1:0:0:1"). reflexivity. Defined.

End Acceptance.

(** ** Addresses as 128-bit integers *)

Section IntegerCodec.
Import JS IPv6Utils.
Import Hexadecimal HexadecimalFacts.

Lemma string_of_uint_lower (d : Hexadecimal.uint) :
  all is_lower_hex (HexadecimalString.NilEmpty.string_of_uint d) = true.
Proof. induction d; cbn [HexadecimalString.NilEmpty.string_of_uint all]; try rewrite IHd; reflexivity. Qed.

Lemma lower_hex_is_hex (c : ascii) : is_lower_hex c = true -> is_hex c = true.
Proof.
  destruct c as [[|] [|] [|] [|] [|] [|] [|] [|]]; vm_compute; congruence.
Qed.

Ltac eval_hex_value :=
  repeat match goal with
  | |- context [hex_value ?c] =>
      let v := eval vm_compute in (hex_value c) in change (hex_value c) with v
  end.

Lemma hex_string_value_acc (d : Hexadecimal.uint) (acc : positive) :
  hex_digits_value (Zpos acc) (HexadecimalString.NilEmpty.string_of_uint d) =
  Zpos (Pos.of_hex_uint_acc d acc).
Proof.
  revert acc. induction d; intros acc;
    cbn [HexadecimalString.NilEmpty.string_of_uint hex_digits_value Pos.of_hex_uint_acc];
    [reflexivity| ..];
    rewrite <- IHd; f_equal; eval_hex_value; lia.
Qed.

Lemma hex_string_value (d : Hexadecimal.uint) :
  hex_digits_value 0 (HexadecimalString.NilEmpty.string_of_uint d) =
  Z.of_N (Pos.of_hex_uint d).
Proof.
  induction d;
    cbn [HexadecimalString.NilEmpty.string_of_uint hex_digits_value Pos.of_hex_uint];
    [reflexivity| ..]; eval_hex_value; cbn [Z.mul Z.add Z.of_N];
    solve [exact IHd | apply hex_string_value_acc].
Qed.

Lemma hex_length_bound (c : ascii) (r : string) :
  all is_hex (String c r) = true -> 1 <= hex_value c ->
  hex_digits_value 0 (String c r) < 16 ^ 32 ->
  (String.length (String c r) <= 32)%nat.
Proof.
  cbn [all hex_digits_value String.length]. intros Hhex Hc Hlt.
  apply andb_true_iff in Hhex as [_ Hr].
  destruct (hex_digits_value_range r (16 * 0 + hex_value c) Hr ltac:(lia)) as [Hlo _].
  assert (H16 : 16 ^ Z.of_nat (String.length r) < 16 ^ 32) by nia.
  apply Z.pow_lt_mono_r_iff in H16; lia.
Qed.

(** The digits of a natural number: no leading zero, and as many as the
    size of the number requires. *)
Lemma to_hex_uint_shape (n : N) :
  N.to_hex_uint n <> Nil /\
  hex_digits_value 0 (HexadecimalString.NilEmpty.string_of_uint (N.to_hex_uint n)) = Z.of_N n /\
  (Z.of_N n < 16 ^ 32 ->
   (String.length (HexadecimalString.NilEmpty.string_of_uint (N.to_hex_uint n)) <= 32)%nat).
Proof.
  assert (Hval : hex_digits_value 0
            (HexadecimalString.NilEmpty.string_of_uint (N.to_hex_uint n)) = Z.of_N n).
  { rewrite hex_string_value. f_equal. apply HexadecimalN.Unsigned.of_to. }
  assert (Hnorm : N.to_hex_uint n = unorm (N.to_hex_uint n)).
  { rewrite <- HexadecimalN.Unsigned.to_of. f_equal. symmetry.
    apply HexadecimalN.Unsigned.of_to. }
  split; [|split; [exact Hval|]].
  - rewrite Hnorm. unfold unorm. destruct (nzhead (N.to_hex_uint n)); discriminate.
  - intros Hlt. rewrite <- Hval in Hlt. revert Hlt Hnorm.
    generalize (string_of_uint_lower (N.to_hex_uint n)).
    unfold unorm. pose proof (nzhead_nonzero (N.to_hex_uint n)) as Hnz.
    destruct (nzhead (N.to_hex_uint n)) eqn:E; intros Hlow Hlt Hnorm;
      rewrite Hnorm in Hlow, Hlt |- *;
      try (cbn; lia);
      try (exfalso; apply (Hnz u); reflexivity);
      (apply hex_length_bound;
       [ apply all_impl with (p := is_lower_hex); [exact lower_hex_is_hex | exact Hlow]
       | vm_compute; discriminate
       | exact Hlt ]).
Qed.

(** [n.toString(16)] of a BigInt from 0 to 2^128 - 1. *)
Lemma toString16_shape (v : Z) :
  0 <= v < 2 ^ 128 ->
  all is_lower_hex (toString16 v) = true /\
  (1 <= String.length (toString16 v) <= 32)%nat /\
  hex_digits_value 0 (toString16 v) = v.
Proof.
  intros Hv. unfold toString16.
  destruct (Z.ltb_spec v 0); [lia|]. rewrite Z.abs_eq by lia.
  destruct (to_hex_uint_shape (Z.to_N v)) as (Hnil & Hval & Hlen).
  rewrite Z2N.id in Hval, Hlen by lia.
  assert (E : HexadecimalString.NilZero.string_of_uint (N.to_hex_uint (Z.to_N v)) =
              HexadecimalString.NilEmpty.string_of_uint (N.to_hex_uint (Z.to_N v))).
  { unfold HexadecimalString.NilZero.string_of_uint.
    destruct (N.to_hex_uint (Z.to_N v)); [congruence | reflexivity ..]. }
  rewrite E. split; [apply string_of_uint_lower|]. split; [|exact Hval].
  split; [|apply Hlen; change (16 ^ 32) with (2 ^ 128); lia].
  destruct (N.to_hex_uint (Z.to_N v)); [congruence | cbn; lia ..].
Qed.

Lemma all_repeat_unit (p : ascii -> bool) (c : ascii) (n : nat) :
  p c = true -> all p (repeat_unit c n) = true.
Proof. intros H. induction n as [|n IH]; cbn; [reflexivity | now rewrite H, IH]. Qed.

Lemma length_repeat_unit (c : ascii) (n : nat) : String.length (repeat_unit c n) = n.
Proof. induction n as [|n IH]; cbn; [reflexivity | now rewrite IH]. Qed.

Lemma hex_digits_value_zeros (n : nat) (s : string) :
  hex_digits_value 0 (repeat_unit "0" n +++ s) = hex_digits_value 0 s.
Proof. induction n as [|n IH]; [reflexivity|]. cbn [repeat_unit]. rewrite append_cons. exact IH. Qed.

(** The 32 digits that [bigIntToIPv6] cuts into groups. *)
Lemma padded_digits (v : Z) :
  0 <= v < 2 ^ 128 ->
  let hexStr := padStart 32 "0" (toString16 v) in
  all is_lower_hex hexStr = true /\ String.length hexStr = 32%nat /\
  hex_digits_value 0 hexStr = v.
Proof.
  intros Hv hexStr. destruct (toString16_shape v Hv) as (Hlow & Hlen & Hval).
  subst hexStr. unfold padStart. split; [|split].
  - rewrite all_append, Hlow, all_repeat_unit; reflexivity.
  - rewrite length_append, length_repeat_unit. lia.
  - now rewrite hex_digits_value_zeros.
Qed.

(** The groups of four that [match(/.{4}/g)] cuts. *)
Lemma chunks4_spec (k : nat) (s : string) :
  String.length s = (4 * k)%nat -> all is_hex s = true ->
  List.length (chunks4 s) = k /\ forallb group4 (chunks4 s) = true /\
  remove_colons (join ":" (chunks4 s)) = s.
Proof.
  revert s. induction k as [|k IH]; intros s Hlen Hhex.
  - destruct s; [|discriminate Hlen]. repeat split.
  - destruct s as [|a [|b [|c [|d r]]]]; cbn [String.length] in Hlen; try lia.
    cbn [all] in Hhex.
    apply andb_true_iff in Hhex as [Ha Hhex]. apply andb_true_iff in Hhex as [Hb Hhex].
    apply andb_true_iff in Hhex as [Hc Hhex]. apply andb_true_iff in Hhex as [Hd Hr].
    destruct (IH r) as (IH1 & IH2 & IH3); [lia | exact Hr |].
    cbn [chunks4 List.length forallb]. rewrite IH1, IH2.
    assert (Hg : group4 (String a (String b (String c (String d EmptyString)))) = true).
    { unfold group4. cbn. now rewrite Ha, Hb, Hc, Hd. }
    rewrite Hg. repeat split.
    destruct (chunks4 r) as [|g gs] eqn:E.
    + destruct r; [|destruct k; discriminate IH1 || idtac].
      * cbn. now rewrite !is_hex_not_colon.
      * cbn in IH3. discriminate IH3.
    + rewrite join_cons, !remove_colons_append, IH3.
      cbn. now rewrite !is_hex_not_colon.
Qed.

Lemma chunks4_all (p : ascii -> bool) (n : nat) (s : string) :
  (String.length s <= n)%nat -> all p s = true -> forallb (all p) (chunks4 s) = true.
Proof.
  revert s. induction n as [|n IH]; intros s Hlen Hp.
  - destruct s; [reflexivity | cbn in Hlen; lia].
  - destruct s as [|a [|b [|c [|d r]]]]; try reflexivity.
    cbn [all] in Hp.
    apply andb_true_iff in Hp as [Ha Hp]. apply andb_true_iff in Hp as [Hb Hp].
    apply andb_true_iff in Hp as [Hc Hp]. apply andb_true_iff in Hp as [Hd Hr].
    cbn [chunks4 forallb all]. rewrite Ha, Hb, Hc, Hd.
    rewrite IH; [reflexivity | cbn [String.length] in Hlen; lia | exact Hr].
Qed.

(** The text of a 128-bit value: eight groups of four lower-case digits
    whose value is the one given. *)
Lemma bigIntToIPv6_groups (v : Z) :
  0 <= v < 2 ^ 128 ->
  exists groups,
    expanded_groups groups /\ bigIntToIPv6 v = join ":" groups /\
    forallb (all is_lower_hex) groups = true /\
    hex_digits_value 0 (remove_colons (join ":" groups)) = v.
Proof.
  intros Hv. destruct (padded_digits v Hv) as (Hlow & Hlen & Hval).
  set (hexStr := padStart 32 "0" (toString16 v)) in *.
  assert (Hhex : all is_hex hexStr = true)
    by (apply all_impl with (p := is_lower_hex); [exact lower_hex_is_hex | exact Hlow]).
  destruct (chunks4_spec 8 hexStr Hlen Hhex) as (H1 & H2 & H3).
  exists (chunks4 hexStr). split; [split; assumption|]. split; [reflexivity|].
  split; [|now rewrite H3].
  apply chunks4_all with (n := 32%nat); [lia | exact Hlow].
Qed.

Lemma ipv6ToBigInt_compressed_bigIntToIPv6 (v : Z) :
  0 <= v < 2 ^ 128 -> ipv6ToBigInt (compressAddress (bigIntToIPv6 v)) = Some v.
Proof.
  intros Hv. destruct (bigIntToIPv6_groups v Hv) as (groups & Hg & E & _ & Hval).
  rewrite E. unfold ipv6ToBigInt, expandAddress, compressAddress.
  rewrite (performExpansion_performCompression groups Hg).
  now rewrite (BigInt_of_hex_expanded groups Hg), Hval.
Qed.

(** ** Lower case *)

Lemma to_lower_unit_hex (c : ascii) :
  is_hex c = true ->
  is_lower_hex (to_lower_unit c) = true /\ hex_value (to_lower_unit c) = hex_value c.
Proof.
  destruct c as [[|] [|] [|] [|] [|] [|] [|] [|]]; vm_compute; intros H;
    first [discriminate H | split; reflexivity].
Qed.

Lemma to_lower_unit_colon (c : ascii) :
  Ascii.eqb (to_lower_unit c) ":" = Ascii.eqb c ":".
Proof. destruct c as [[|] [|] [|] [|] [|] [|] [|] [|]]; reflexivity. Qed.

Lemma to_lower_unit_lower (c : ascii) : is_lower_hex c = true -> to_lower_unit c = c.
Proof.
  destruct c as [[|] [|] [|] [|] [|] [|] [|] [|]]; vm_compute; intros H;
    first [discriminate H | reflexivity].
Qed.

Lemma toLowerCase_append (s t : string) :
  toLowerCase (s +++ t) = toLowerCase s +++ toLowerCase t.
Proof. induction s as [|c s IH]; [reflexivity|]. cbn. now rewrite IH. Qed.

Lemma toLowerCase_length (s : string) : String.length (toLowerCase s) = String.length s.
Proof. induction s as [|c s IH]; [reflexivity|]. cbn. now rewrite IH. Qed.

Lemma toLowerCase_join (gs : list string) :
  toLowerCase (join ":" gs) = join ":" (map toLowerCase gs).
Proof.
  induction gs as [|g gs IH]; [reflexivity|].
  destruct gs as [|h gs]; [reflexivity|].
  cbn [map]. rewrite !join_cons, !toLowerCase_append. cbn [map] in IH. now rewrite IH.
Qed.

Lemma toLowerCase_hex (s : string) :
  all is_hex s = true ->
  all is_lower_hex (toLowerCase s) = true /\
  forall acc, hex_digits_value acc (toLowerCase s) = hex_digits_value acc s.
Proof.
  induction s as [|c s IH]; [split; reflexivity|].
  cbn [all toLowerCase hex_digits_value]. intros H. apply andb_true_iff in H as [Hc Hs].
  destruct (to_lower_unit_hex c Hc) as [H1 H2]. destruct (IH Hs) as [IH1 IH2].
  rewrite H1, IH1, H2. split; [reflexivity|]. intros acc. apply IH2.
Qed.

Lemma toLowerCase_lower (s : string) : all is_lower_hex s = true -> toLowerCase s = s.
Proof.
  induction s as [|c s IH]; [reflexivity|].
  cbn [all toLowerCase]. intros H. apply andb_true_iff in H as [Hc Hs].
  now rewrite (to_lower_unit_lower c Hc), IH.
Qed.

Lemma remove_colons_toLowerCase (s : string) :
  remove_colons (toLowerCase s) = toLowerCase (remove_colons s).
Proof.
  induction s as [|c s IH]; [reflexivity|].
  cbn [toLowerCase remove_colons]. rewrite to_lower_unit_colon.
  destruct (Ascii.eqb c ":"); [exact IH | cbn [toLowerCase]; now rewrite IH].
Qed.

Lemma group4_toLowerCase (g : string) :
  group4 g = true ->
  group4 (toLowerCase g) = true /\ all is_lower_hex (toLowerCase g) = true.
Proof.
  unfold group4. intros H. apply andb_true_iff in H as [Hl Hh].
  destruct (toLowerCase_hex g Hh) as [Hlow _].
  rewrite toLowerCase_length, Hl, Hlow. split; [|reflexivity].
  cbn [andb]. apply all_impl with (p := is_lower_hex); [exact lower_hex_is_hex | exact Hlow].
Qed.

(** ** The digits determine the text *)

Lemma lower_hex_value_inj (c c' : ascii) :
  is_lower_hex c = true -> is_lower_hex c' = true -> hex_value c = hex_value c' -> c = c'.
Proof.
  intros H H'.
  assert (E : forall x, is_lower_hex x = true ->
            x = ascii_of_nat (Z.to_nat (hex_value x) + (if hex_value x <? 10 then 48 else 87))).
  { intros x. destruct x as [[|] [|] [|] [|] [|] [|] [|] [|]]; vm_compute; intros Hx;
      first [discriminate Hx | reflexivity]. }
  intros Hv. rewrite (E c H), (E c' H'), Hv. reflexivity.
Qed.

Lemma hex_digits_value_inj (s s' : string) (acc acc' : Z) :
  all is_lower_hex s = true -> all is_lower_hex s' = true ->
  String.length s = String.length s' ->
  hex_digits_value acc s = hex_digits_value acc' s' -> acc = acc' /\ s = s'.
Proof.
  revert s' acc acc'. induction s as [|c s IH]; intros [|c' s'] acc acc' H H' Hlen Hv;
    try discriminate Hlen.
  - split; [exact Hv | reflexivity].
  - cbn [all] in H, H'. apply andb_true_iff in H as [Hc Hs].
    apply andb_true_iff in H' as [Hc' Hs'].
    cbn [hex_digits_value] in Hv. injection Hlen as Hlen.
    destruct (IH s' _ _ Hs Hs' Hlen Hv) as [Hacc ->].
    pose proof (hex_value_range c (lower_hex_is_hex c Hc)).
    pose proof (hex_value_range c' (lower_hex_is_hex c' Hc')).
    assert (acc = acc') by lia. subst acc'.
    split; [reflexivity|]. f_equal. apply lower_hex_value_inj; [assumption ..|lia].
Qed.

Lemma chunks4_groups (gs : list string) :
  forallb group4 gs = true -> chunks4 (remove_colons (join ":" gs)) = gs.
Proof.
  induction gs as [|g gs IH]; [reflexivity|].
  cbn [forallb]. intros H. apply andb_true_iff in H as [Hg Hgs].
  destruct (group4_shape g Hg) as (a & b & c & d & -> & Ha & Hb & Hc & Hd).
  destruct gs as [|h gs].
  - cbn. now rewrite !is_hex_not_colon.
  - rewrite join_cons, !remove_colons_append.
    cbn [remove_colons String.append]. rewrite !is_hex_not_colon by assumption.
    cbn [Ascii.eqb Bool.eqb]. cbn [String.append chunks4]. f_equal. now apply IH.
Qed.

Lemma all_remove_colons (p : ascii -> bool) (s : string) :
  all (fun c => (p c || Ascii.eqb c ":")%bool) s = true -> all p (remove_colons s) = true.
Proof.
  induction s as [|c s IH]; [reflexivity|].
  cbn [all remove_colons]. intros H. apply andb_true_iff in H as [Hc Hs].
  destruct (Ascii.eqb c ":"); [now apply IH|].
  rewrite orb_false_r in Hc. cbn [all]. now rewrite Hc, IH.
Qed.

Lemma all_join_units (p : ascii -> bool) (gs : list string) :
  forallb (all p) gs = true ->
  all (fun c => (p c || Ascii.eqb c ":")%bool) (join ":" gs) = true.
Proof.
  intros H.
  assert (Hw : forall g, all p g = true ->
            all (fun c => (p c || Ascii.eqb c ":")%bool) g = true).
  { intros g. apply all_impl. intros c ->. reflexivity. }
  induction gs as [|g gs IH]; [reflexivity|].
  cbn [forallb] in H. apply andb_true_iff in H as [Hg Hgs].
  destruct gs as [|h gs]; [rewrite join_single; now apply Hw|].
  rewrite join_cons, !all_append, (Hw g Hg), (IH Hgs).
  cbn [all]. rewrite orb_true_r. reflexivity.
Qed.

(** Two expanded texts in lower case with the same value are the same. *)
Lemma lower_text_unique (g1 g2 : list string) :
  expanded_groups g1 -> expanded_groups g2 ->
  forallb (all is_lower_hex) g1 = true -> forallb (all is_lower_hex) g2 = true ->
  hex_digits_value 0 (remove_colons (join ":" g1)) =
  hex_digits_value 0 (remove_colons (join ":" g2)) ->
  g1 = g2.
Proof.
  intros [L1 A1] [L2 A2] Hl1 Hl2 Hv.
  apply hex_digits_value_inj in Hv as [_ Hd].
  - now rewrite <- (chunks4_groups g1 A1), <- (chunks4_groups g2 A2), Hd.
  - now apply all_remove_colons, all_join_units.
  - now apply all_remove_colons, all_join_units.
  - now rewrite !remove_colons_join_length, L1, L2.
Qed.

Lemma map_toLowerCase_groups (groups : list string) :
  forallb group4 groups = true ->
  forallb group4 (map toLowerCase groups) = true /\
  forallb (all is_lower_hex) (map toLowerCase groups) = true.
Proof.
  induction groups as [|g gs IH]; [split; reflexivity|].
  cbn [forallb map]. intros H. apply andb_true_iff in H as [Hg Hgs].
  destruct (group4_toLowerCase g Hg) as [-> ->]. now destruct (IH Hgs) as [-> ->].
Qed.


(** X13.  The text of a value from 0 to 2^128 - 1: [bigIntToIPv6] gives
    an expanded text in lower case, which expands to itself, and both
    this text and its compressed form are read back by [ipv6ToBigInt] as
    the value. *)
Theorem integer_to_text_round_trip (v : Z) :
  0 <= v < 2 ^ 128 ->
  isExpanded (bigIntToIPv6 v) = true /\
  toLowerCase (bigIntToIPv6 v) = bigIntToIPv6 v /\
  expandAddress (bigIntToIPv6 v) = Some (bigIntToIPv6 v) /\
  ipv6ToBigInt (bigIntToIPv6 v) = Some v /\
  ipv6ToBigInt (compressAddress (bigIntToIPv6 v)) = Some v.
Proof.
  intros Hv. destruct (bigIntToIPv6_groups v Hv) as (groups & Hg & E & Hlow & Hval).
  rewrite E. split; [now apply isExpanded_join|]. split.
  { rewrite toLowerCase_join. f_equal. clear - Hlow.
    induction groups as [|g gs IH]; [reflexivity|].
    cbn [forallb] in Hlow. apply andb_true_iff in Hlow as [Hg Hgs].
    cbn [map]. now rewrite (toLowerCase_lower g Hg), IH. }
  split; [now apply performExpansion_expanded|].
  split; [now rewrite (ipv6ToBigInt_expanded groups Hg), Hval|].
  rewrite <- E. now apply ipv6ToBigInt_compressed_bigIntToIPv6.
Qed.

Lemma integer_to_text_round_trip_witness :
  isExpanded (bigIntToIPv6 (2 ^ 125 + 7)) = true /\
  toLowerCase (bigIntToIPv6 (2 ^ 125 + 7)) = bigIntToIPv6 (2 ^ 125 + 7) /\
  expandAddress (bigIntToIPv6 (2 ^ 125 + 7)) = Some (bigIntToIPv6 (2 ^ 125 + 7)) /\
  ipv6ToBigInt (bigIntToIPv6 (2 ^ 125 + 7)) = Some (2 ^ 125 + 7) /\
  ipv6ToBigInt (compressAddress (bigIntToIPv6 (2 ^ 125 + 7))) = Some (2 ^ 125 + 7).
Proof. apply (integer_to_text_round_trip (2 ^ 125 + 7)). vm_compute. split; [discriminate | reflexivity]. Defined.

(** X14.  The integer of an accepted text lies between 0 and 2^128 - 1,
    and [bigIntToIPv6] makes of it the expanded text in lower case. *)
Theorem text_to_integer_round_trip (T : string) :
  isValidFormat T = true ->
  exists (E : string) (v : Z),
    expandAddress T = Some E /\ ipv6ToBigInt T = Some v /\ 0 <= v < 2 ^ 128 /\
    bigIntToIPv6 v = toLowerCase E.
Proof.
  intros Hvalid. destruct (performExpansion_valid T Hvalid) as (groups & Hg & HE).
  destruct (ipv6ToBigInt_valid T Hvalid) as (v & Hip & Hv).
  exists (join ":" groups), v. split; [exact HE|]. split; [exact Hip|]. split; [exact Hv|].
  destruct (bigIntToIPv6_groups v Hv) as (g' & Hg' & E' & Hlow' & Hval').
  pose proof Hg as [Hlen Hall].
  destruct (map_toLowerCase_groups groups Hall) as [Hl4 Hll].
  rewrite E', toLowerCase_join. f_equal.
  apply lower_text_unique; try assumption.
  - split; [now rewrite length_map | exact Hl4].
  - rewrite Hval', <- toLowerCase_join, remove_colons_toLowerCase.
    unfold ipv6ToBigInt, expandAddress in Hip. rewrite HE in Hip.
    rewrite (BigInt_of_hex_expanded groups Hg) in Hip. injection Hip as <-.
    symmetry. apply toLowerCase_hex.
    apply remove_colons_hex. now apply address_units_expanded.
Qed.

Lemma text_to_integer_round_trip_witness :
  exists (E : string) (v : Z),
    expandAddress "2001:DB8::A" = Some E /\ ipv6ToBigInt "2001:DB8::A" = Some v /\
    0 <= v < 2 ^ 128 /\ bigIntToIPv6 v = toLowerCase E.
Proof. apply (text_to_integer_round_trip "2001:DB8::A"). reflexivity. Defined.

End IntegerCodec.

(** ** The suggestion is the block next to the anchor *)

Section SuggestionFurther.
Import JS IPv6Utils OverlapEngine.

Lemma toString10_prefix (p : Z) :
  0 <= p <= 128 ->
  all is_digit (toString10 p) = true /\
  (1 <= String.length (toString10 p) <= 3)%nat /\
  parseInt10 (toString10 p) = Some p /\ parseInt (toString10 p) = Some p.
Proof.
  intros Hp.
  assert (Hall : forallb (fun n => prefix_text_ok (Z.of_nat n)) (seq 0 129) = true)
    by (vm_compute; reflexivity).
  rewrite forallb_forall in Hall.
  specialize (Hall (Z.to_nat p)). rewrite Z2Nat.id in Hall by lia.
  assert (Hin : In (Z.to_nat p) (seq 0 129)) by (apply in_seq; lia).
  specialize (Hall Hin). unfold prefix_text_ok in Hall.
  repeat (apply andb_true_iff in Hall as [Hall ?]).
  destruct (parseInt10 (toString10 p)) as [v1|]; [|discriminate].
  destruct (parseInt (toString10 p)) as [v2|]; [|discriminate].
  reflect_order. subst v1 v2. repeat split; try assumption; apply Nat.leb_le; assumption.
Qed.

Lemma split1_app (sep : ascii) (a d : string) :
  all (fun c => negb (Ascii.eqb c sep)) a = true ->
  all (fun c => negb (Ascii.eqb c sep)) d = true ->
  split1 sep (a +++ String sep d) = [a; d].
Proof.
  intros Ha Hd.
  assert (Hdd : split1 sep d = [d]).
  { clear Ha. induction d as [|c d IH]; [reflexivity|].
    cbn [all] in Hd. apply andb_true_iff in Hd as [Hc Hd]. apply negb_true_iff in Hc.
    cbn [split1]. rewrite Hc, (IH Hd). reflexivity. }
  induction a as [|c a IH].
  - cbn [String.append split1]. now rewrite Ascii.eqb_refl, Hdd.
  - cbn [all] in Ha. apply andb_true_iff in Ha as [Hc Ha]. apply negb_true_iff in Hc.
    rewrite append_cons. cbn [split1]. rewrite Hc, (IH Ha). reflexivity.
Qed.

(** The text of a candidate block is a plain CIDR text. *)
Lemma candidate_text_plain (c p : Z) :
  0 <= c < 2 ^ 128 -> 0 <= p <= 128 ->
  plain_cidr (candidate_text c p) = true /\
  split1 "/" (candidate_text c p) =
    [compressAddress (bigIntToIPv6 c); toString10 p].
Proof.
  intros Hc Hp. destruct (toString10_prefix p Hp) as (Hd & [L1 L3] & E10 & _).
  destruct (bigIntToIPv6_groups c Hc) as (groups & Hg & E & _).
  pose proof (isValidFormat_performCompression groups Hg) as Hacc.
  unfold compressAddress in *. rewrite <- E in Hacc.
  destruct (isValidFormat_units _ Hacc) as [Hu _].
  assert (Es : split1 "/" (candidate_text c p) =
               [performCompression (bigIntToIPv6 c); toString10 p]).
  { unfold candidate_text, compressAddress. apply split1_app.
    - revert Hu. apply all_impl. intros x Hx.
      now destruct (address_unit x Hx) as (_ & _ & _ & ->).
    - revert Hd. apply all_impl. intros x Hx.
      now destruct (digit_unit x Hx) as (_ & _ & _ & _ & _ & -> & _). }
  split; [|exact Es]. unfold plain_cidr. rewrite Es, Hacc, Hd, E10.
  apply Nat.leb_le in L1, L3. rewrite L1, L3. cbn [andb].
  apply Z.leb_le. lia.
Qed.

(** The network information of a candidate block whose base is a
    multiple of the block size. *)
Lemma candidate_network (q p : Z) :
  0 <= p <= 128 -> 0 <= q < 2 ^ p ->
  let c := q * 2 ^ (128 - p) in
  exists info : NetworkInfo,
    getNetworkInfo (candidate_text c p) = Some info /\
    prefixLen info = p /\
    IPv6Utils.networkBigInt info = c /\
    IPv6Utils.broadcastBigInt info = c + 2 ^ (128 - p) - 1.
Proof.
  intros Hp Hq c.
  assert (Hpow : 0 < 2 ^ (128 - p)) by (apply Z.pow_pos_nonneg; lia).
  assert (Htop : 2 ^ 128 = 2 ^ p * 2 ^ (128 - p)).
  { rewrite <- Z.pow_add_r by lia. f_equal. lia. }
  assert (Hc : 0 <= c < 2 ^ 128) by (subst c; nia).
  destruct (candidate_text_plain c p Hc Hp) as [Hplain Es].
  destruct (getNetworkInfo_fields _ Hplain)
    as (info & ip & Ei & Eip & _ & _ & Eh & _ & En & Eb).
  destruct (getNetworkInfo_plain_cidr _ Hplain) as (info' & d & Ei' & Ed & Epd & _).
  rewrite Ei in Ei'. injection Ei' as <-.
  rewrite Es in Eip, Ed. cbn [nth nth_error] in Eip, Ed. injection Ed as <-.
  destruct (toString10_prefix p Hp) as (_ & _ & _ & E').
  rewrite E' in Epd. injection Epd as Epl.
  pose proof (ipv6ToBigInt_compressed_bigIntToIPv6 c Hc) as Eback.
  rewrite Eback in Eip. injection Eip as <-.
  exists info. split; [exact Ei|]. split; [now symmetry|].
  rewrite Eh, <- Epl in *. rewrite Eb, En. subst c.
  rewrite Z.div_mul by lia. split; reflexivity.
Qed.

Lemma checkOverlapAdvanced_plain_cidr (cidr1 cidr2 : string) :
  plain_cidr cidr1 = true -> plain_cidr cidr2 = true ->
  exists n1 n2 : Network,
    checkOverlapAdvanced cidr1 cidr2 = Checked cidr1 cidr2 n1 n2 (analyzeOverlap n1 n2) /\
    getNetworkInfo cidr1 = Some (info n1) /\ getNetworkInfo cidr2 = Some (info n2).
Proof.
  intros H1 H2.
  destruct (validateAndGetNetworkInfo_plain_cidr cidr1 H1) as (n1 & Ev1 & Eg1 & _).
  destruct (validateAndGetNetworkInfo_plain_cidr cidr2 H2) as (n2 & Ev2 & Eg2 & _).
  exists n1, n2. split; [|now split].
  unfold checkOverlapAdvanced. rewrite Ev1, Ev2.
  destruct (plain_cidr_parts cidr1 H1) as (a1' & d1 & p1 & _ & E1 & _).
  destruct (plain_cidr_parts cidr2 H2) as (a2' & d2 & p2 & _ & E2 & _).
  assert (N1 : is_empty cidr1 = false) by (rewrite E1; now destruct a1').
  assert (N2 : is_empty cidr2 = false) by (rewrite E2; now destruct a2').
  now rewrite N1, N2.
Qed.

(** Two blocks of which one starts right after the other ends. *)
Lemma adjacent_blocks (A B : Network) :
  networkBigInt A <= broadcastBigInt A -> networkBigInt B <= broadcastBigInt B ->
  broadcastBigInt A + 1 = networkBigInt B \/ broadcastBigInt B + 1 = networkBigInt A ->
  hasOverlap (analyzeOverlap A B) = false /\ type (analyzeOverlap A B) = ADJACENT.
Proof.
  intros HA HB Hadj.
  assert (Ho : hasOverlap (analyzeOverlap A B) = false).
  { destruct (hasOverlap (analyzeOverlap A B)) eqn:Ho; [|reflexivity].
    apply hasOverlap_iff in Ho. lia. }
  split; [exact Ho|]. rewrite (analyzeOverlap_disjoint A B Ho).
  unfold analyzeNoOverlap. cbn [type].
  destruct (_ || _)%bool eqn:E; [reflexivity|]. reflect_order. lia.
Qed.


(** X15.  The suggestion for an anchor in plain CIDR form, whatever the
    first argument.  For the prefix length 0 there is none.  For a
    prefix length of 1 or more there is always one: the block of the
    same length that starts right after the anchor or, when the anchor
    ends at 2^128 - 1, the block that ends right before it; its text is
    a plain CIDR text whose range is that block, and the overlap check
    of the suggestion against the anchor answers "no overlap" with the
    type ADJACENT. *)
Theorem suggestion_is_the_adjacent_block (lanPrefix wanPrefix : string) :
  plain_cidr wanPrefix = true ->
  exists info : NetworkInfo,
    getNetworkInfo wanPrefix = Some info /\
    let p := prefixLen info in
    let base := IPv6Utils.networkBigInt info in
    let last := IPv6Utils.broadcastBigInt info in
    (p = 0 -> generateSuggestion lanPrefix wanPrefix = None) /\
    (1 <= p ->
     let c := if last <? 2 ^ 128 - 1 then last + 1 else base - 2 ^ (128 - p) in
     exists sinfo : NetworkInfo,
       generateSuggestion lanPrefix wanPrefix = Some (candidate_text c p) /\
       plain_cidr (candidate_text c p) = true /\
       getNetworkInfo (candidate_text c p) = Some sinfo /\
       prefixLen sinfo = p /\
       IPv6Utils.networkBigInt sinfo = c /\
       IPv6Utils.broadcastBigInt sinfo = c + 2 ^ (128 - p) - 1 /\
       0 <= c /\ c + 2 ^ (128 - p) - 1 < 2 ^ 128 /\
       result_hasOverlap (checkOverlapAdvanced (candidate_text c p) wanPrefix) = Some false /\
       result_overlapType (checkOverlapAdvanced (candidate_text c p) wanPrefix) =
         Some ADJACENT).
Proof.
  intros H.
  destruct (getNetworkInfo_fields wanPrefix H)
    as (info & ip & Ei & _ & Hip & Hp & Eh & _ & En & Eb).
  destruct (getNetworkInfo_plain_cidr wanPrefix H) as (info' & d & Ei' & End & Epd & _).
  rewrite Ei in Ei'. injection Ei' as <-.
  exists info. split; [exact Ei|]. intros p base last.
  rewrite Eh in *. fold p in Hp, En, Eb, Epd. fold base in En, Eb. fold last in Eb.
  set (h := 128 - p) in *. set (q := ip / 2 ^ h) in *.
  assert (Hpow : 0 < 2 ^ h) by (apply Z.pow_pos_nonneg; lia).
  assert (Htop : 2 ^ 128 = 2 ^ p * 2 ^ h).
  { unfold h. rewrite <- Z.pow_add_r by lia. f_equal. lia. }
  assert (Hq : 0 <= q < 2 ^ p).
  { unfold q. split; [apply Z.div_pos; lia | apply Z.div_lt_upper_bound; lia]. }
  assert (Hgen : generateSuggestion lanPrefix wanPrefix =
            if base + 2 ^ h <=? 2 ^ 128 - 1
            then checked_candidate (base + 2 ^ h) p wanPrefix
            else if base - 2 ^ h <? 0 then None
            else checked_candidate (base - 2 ^ h) p wanPrefix).
  { unfold generateSuggestion. rewrite Ei, End. cbn [parseInt_opt]. rewrite Epd.
    rewrite !Z.shiftl_1_l. fold p. fold h. fold base.
    rewrite Z.gtb_ltb. unfold checked_candidate, candidate_text.
    destruct (Z.ltb_spec (2 ^ 128 - 1) (base + 2 ^ h)) as [Hover|Hin];
      destruct (Z.leb_spec (base + 2 ^ h) (2 ^ 128 - 1)) as [Hin'|Hover']; try lia.
    - destruct (base - 2 ^ h <? 0); [reflexivity|]. now destruct (truthy _).
    - now destruct (truthy _). }
  split.
  - intros Hp0. rewrite Hgen.
    assert (Eq : q = 0) by (rewrite Hp0 in Hq; change (2 ^ 0) with 1 in Hq; lia).
    rewrite Hp0 in Htop. 
    destruct (Z.leb_spec (base + 2 ^ h) (2 ^ 128 - 1)); [nia|].
    destruct (Z.ltb_spec (base - 2 ^ h) 0); [reflexivity | nia].
  - intros Hp1 c.
    assert (Hp2 : 2 <= 2 ^ p).
    { change 2 with (2 ^ 1) at 1. apply Z.pow_le_mono_r; lia. }
    set (q' := if last <? 2 ^ 128 - 1 then q + 1 else q - 1).
    assert (Ec : c = q' * 2 ^ h).
    { subst c q'. destruct (last <? 2 ^ 128 - 1); lia. }
    assert (Hq' : 0 <= q' < 2 ^ p).
    { subst q'. destruct (Z.ltb_spec last (2 ^ 128 - 1)); nia. }
    destruct (candidate_network q' p ltac:(lia) Hq') as (sinfo & Es & Epl & Esn & Esb).
    fold h in Es, Esn, Esb. rewrite <- Ec in Es, Esn, Esb.
    assert (Hc : 0 <= c < 2 ^ 128) by nia.
    destruct (candidate_text_plain c p Hc ltac:(lia)) as [Hplain _].
    destruct (checkOverlapAdvanced_plain_cidr _ _ Hplain H) as (n1 & n2 & Echk & Eg1 & Eg2).
    rewrite Es in Eg1. injection Eg1 as Eg1. rewrite Ei in Eg2. injection Eg2 as Eg2.
    assert (Hadj : hasOverlap (analyzeOverlap n1 n2) = false /\
                   type (analyzeOverlap n1 n2) = ADJACENT).
    { apply adjacent_blocks; unfold networkBigInt, broadcastBigInt;
        rewrite <- ?Eg1, <- ?Eg2, ?Esn, ?Esb; fold base; fold last; try lia.
      subst c. destruct (Z.ltb_spec last (2 ^ 128 - 1)); lia. }
    destruct Hadj as [Hno Hty].
    exists sinfo. split.
    { rewrite Hgen. unfold checked_candidate, checkOverlap. cbn [simple_hasOverlap].
      subst c. destruct (Z.ltb_spec last (2 ^ 128 - 1)) as [Hl|Hl].
      - destruct (Z.leb_spec (base + 2 ^ h) (2 ^ 128 - 1)); [|lia].
        replace (base + 2 ^ h) with (last + 1) by lia.
        rewrite Echk. cbn [result_hasOverlap]. now rewrite Hno.
      - destruct (Z.leb_spec (base + 2 ^ h) (2 ^ 128 - 1)); [lia|].
        destruct (Z.ltb_spec (base - 2 ^ h) 0); [nia|].
        rewrite Echk. cbn [result_hasOverlap]. now rewrite Hno. }
    split; [exact Hplain|]. split; [exact Es|]. split; [exact Epl|].
    split; [exact Esn|]. split; [exact Esb|].
    split; [lia|]. split; [nia|].
    rewrite Echk. cbn [result_hasOverlap result_overlapType]. now rewrite Hno, Hty.
Qed.

Lemma suggestion_is_the_adjacent_block_witness :
  exists info : NetworkInfo,
    getNetworkInfo "ffff:ffff:ffff:ffff::1/64" = Some info /\
    let p := prefixLen info in
    let base := IPv6Utils.networkBigInt info in
    let last := IPv6Utils.broadcastBigInt info in
    (p = 0 -> generateSuggestion "::/0" "ffff:ffff:ffff:ffff::1/64" = None) /\
    (1 <= p ->
     let c := if last <? 2 ^ 128 - 1 then last + 1 else base - 2 ^ (128 - p) in
     exists sinfo : NetworkInfo,
       generateSuggestion "::/0" "ffff:ffff:ffff:ffff::1/64" = Some (candidate_text c p) /\
       plain_cidr (candidate_text c p) = true /\
       getNetworkInfo (candidate_text c p) = Some sinfo /\
       prefixLen sinfo = p /\
       IPv6Utils.networkBigInt sinfo = c /\
       IPv6Utils.broadcastBigInt sinfo = c + 2 ^ (128 - p) - 1 /\
       0 <= c /\ c + 2 ^ (128 - p) - 1 < 2 ^ 128 /\
       result_hasOverlap
         (checkOverlapAdvanced (candidate_text c p) "ffff:ffff:ffff:ffff::1/64") = Some false /\
       result_overlapType
         (checkOverlapAdvanced (candidate_text c p) "ffff:ffff:ffff:ffff::1/64") =
         Some ADJACENT).
Proof.
  apply (suggestion_is_the_adjacent_block "::/0" "ffff:ffff:ffff:ffff::1/64"). reflexivity.
Defined.

End SuggestionFurther.

(** ** Membership in a network and the table of allocations *)

Section Membership.
Import JS IPv6Utils.

Lemma same_block_iff (a n B : Z) :
  0 < B -> (a / B * B = n / B * B <-> n / B * B <= a <= n / B * B + B - 1).
Proof.
  intros HB. pose proof (Z.div_mod a B ltac:(lia)) as Ha.
  pose proof (Z.mod_pos_bound a B HB) as Hm. split.
  - intros E. rewrite <- E. lia.
  - intros Hr. f_equal. symmetry.
    apply (Z.div_unique a B (n / B) (a - n / B * B)); lia.
Qed.

Lemma mask_as_shifted_ones (p : Z) :
  0 <= p <= 128 -> 2 ^ 128 - 2 ^ (128 - p) = Z.shiftl (Z.ones p) (128 - p).
Proof.
  intros Hp. rewrite Z.ones_equiv, Z.shiftl_mul_pow2, <- Z.sub_1_r, Z.mul_sub_distr_r,
    <- Z.pow_add_r by lia.
  replace (p + (128 - p)) with 128 by lia. lia.
Qed.

(** [isInNetwork] on two values below 2^128 and a prefix length. *)
Lemma isInNetwork_values (address networkAddress : string) (a n p : Z) :
  ipv6ToBigInt address = Some a -> ipv6ToBigInt networkAddress = Some n ->
  0 <= a < 2 ^ 128 -> 0 <= n < 2 ^ 128 -> 0 <= p <= 128 ->
  let B := 2 ^ (128 - p) in
  isInNetwork address networkAddress (Some p) = true <->
  n / B * B <= a <= n / B * B + B - 1.
Proof.
  intros Ea En Ha Hn Hp B. unfold isInNetwork.
  rewrite Ea, En, (calculateNetworkMask_in_range p Hp), (mask_as_shifted_ones p Hp).
  rewrite !land_high_ones by
    (try lia; now replace (p + (128 - p)) with 128 by lia).
  fold B. rewrite Z.eqb_eq. apply same_block_iff. apply Z.pow_pos_nonneg; lia.
Qed.

(** X16.  [isInNetwork] on an accepted address and the two parts of a
    plain CIDR text is true exactly when the address lies between the
    base and the last address that [getNetworkInfo] computes for the
    text. *)
Theorem membership_is_the_range (address cidr : string) :
  isValidFormat address = true -> plain_cidr cidr = true ->
  exists (info : NetworkInfo) (a : Z) (net digits : string),
    getNetworkInfo cidr = Some info /\ ipv6ToBigInt address = Some a /\
    split1 "/" cidr = [net; digits] /\ parseInt10 digits = Some (prefixLen info) /\
    (isInNetwork address net (Some (prefixLen info)) = true <->
     networkBigInt info <= a <= broadcastBigInt info).
Proof.
  intros Hva Hc.
  destruct (ipv6ToBigInt_valid address Hva) as (a & Ea & Ha).
  destruct (plain_cidr_parts cidr Hc) as (net & d & p & Es & _ & _ & _ & _ & Ep & Ep' & _).
  destruct (getNetworkInfo_fields cidr Hc)
    as (info & ip & Ei & Eip & Hip & Hp & Eh & _ & En & Eb).
  destruct (getNetworkInfo_plain_cidr cidr Hc) as (info' & d' & Ei' & Ed & Epd & _).
  rewrite Ei in Ei'. injection Ei' as <-.
  rewrite Es in Eip, Ed. cbn [nth nth_error] in Eip, Ed. injection Ed as <-.
  rewrite Ep' in Epd. injection Epd as ->.
  exists info, a, net, d. split; [exact Ei|]. split; [exact Ea|]. split; [exact Es|].
  split; [exact Ep|].
  rewrite (isInNetwork_values address net a ip (prefixLen info) Ea Eip Ha Hip Hp).
  rewrite Eb, En, Eh. reflexivity.
Qed.

Lemma membership_is_the_range_witness :
  exists (info : NetworkInfo) (a : Z) (net digits : string),
    getNetworkInfo "2001:db8::/32" = Some info /\
    ipv6ToBigInt "2001:db8:ffff::1" = Some a /\
    split1 "/" "2001:db8::/32" = [net; digits] /\
    parseInt10 digits = Some (prefixLen info) /\
    (isInNetwork "2001:db8:ffff::1" net (Some (prefixLen info)) = true <->
     networkBigInt info <= a <= broadcastBigInt info).
Proof. apply (membership_is_the_range "2001:db8:ffff::1" "2001:db8::/32"); reflexivity. Defined.

End Membership.

Section Allocations.
Import JS IPv6Utils.

Lemma in_block_bounds (E block : string) (a : Z) :
  ipv6ToBigInt E = Some a -> 0 <= a < 2 ^ 128 -> plain_cidr block = true ->
  in_block E block = in_bounds a block.
Proof.
  intros Ea Ha Hc.
  destruct (plain_cidr_parts block Hc) as (net & d & p & Es & _ & _ & _ & _ & Ep & Ep' & Hp).
  destruct (getNetworkInfo_fields block Hc)
    as (info & ip & Ei & Eip & Hip & Hp' & Eh & _ & En & Eb).
  destruct (getNetworkInfo_plain_cidr block Hc) as (info' & d' & Ei' & Ed & Epd & _).
  rewrite Ei in Ei'. injection Ei' as <-.
  rewrite Es in Eip, Ed. cbn [nth nth_error] in Eip, Ed. injection Ed as <-.
  rewrite Ep' in Epd. injection Epd as ->.
  unfold in_block, in_bounds, bounds_of. rewrite Es, Ei. cbn [nth nth_error parseInt10_opt option_map].
  rewrite Ep.
  pose proof (isInNetwork_values E net a ip (prefixLen info) Ea Eip Ha Hip Hp') as Hiff.
  cbv zeta in Hiff. rewrite <- Eh, <- En in Hiff.
  replace (networkBigInt info + 2 ^ hostBits info - 1) with (broadcastBigInt info) in Hiff by lia.
  destruct (isInNetwork E net (Some (prefixLen info))).
  - symmetry. apply andb_true_iff. rewrite !Z.leb_le. now apply Hiff.
  - symmetry. apply andb_false_iff. rewrite !Z.leb_gt.
    destruct (Z_le_gt_dec (networkBigInt info) a); [|lia].
    destruct (Z_le_gt_dec a (broadcastBigInt info)); [|lia].
    assert (false = true) by (apply Hiff; lia). discriminate.
Qed.

Lemma find_ext_on {A} (f g : A -> bool) (l : list A) :
  (forall x, In x l -> f x = g x) -> find f l = find g l.
Proof.
  induction l as [|x l IH]; [reflexivity|]. intros H. cbn [find].
  rewrite (H x (or_introl eq_refl)), IH; [reflexivity|].
  intros y Hy. apply H. now right.
Qed.

Lemma allocations_plain : forallb (fun entry => plain_cidr (fst entry)) rfcAllocations = true.
Proof. vm_compute. reflexivity. Qed.

(** [getRFCInfo] in terms of the value of the address. *)
Lemma getRFCInfo_by_value (E : string) (a : Z) :
  ipv6ToBigInt E = Some a -> 0 <= a < 2 ^ 128 ->
  getRFCInfo E = find (fun entry => in_bounds a (fst entry)) rfcAllocations.
Proof.
  intros Ea Ha. unfold getRFCInfo. apply find_ext_on. intros entry Hin.
  apply in_block_bounds; [assumption ..|].
  pose proof allocations_plain as Hall. rewrite forallb_forall in Hall. now apply Hall.
Qed.

Ltac eval_bounds :=
  repeat match goal with
  | |- context [bounds_of ?s] =>
      let v := eval vm_compute in (bounds_of s) in
      replace (bounds_of s) with v by (vm_compute; reflexivity)
  end.

Lemma prefix_split (p s : string) : String.prefix p s = true -> exists r, s = p +++ r.
Proof.
  revert s. induction p as [|c p IH]; intros s H.
  - exists s. reflexivity.
  - destruct s as [|c' s]; [discriminate H|]. rewrite prefix_cons in H.
    apply andb_true_iff in H as [Hc Hp]. apply Ascii.eqb_eq in Hc. subst c'.
    destruct (IH s Hp) as (r & ->). exists r. reflexivity.
Qed.

Lemma hex_digits_value_append (acc : Z) (s t : string) :
  hex_digits_value acc (s +++ t) = hex_digits_value (hex_digits_value acc s) t.
Proof. revert acc. induction s as [|c s IH]; intros acc; [reflexivity|]. cbn. apply IH. Qed.

(** The value of an expanded text that starts with given digits. *)
Lemma prefix_bounds (lit : string) (groups : list string) :
  expanded_groups groups -> String.prefix lit (join ":" groups) = true ->
  prefix_low lit <= hex_digits_value 0 (remove_colons (join ":" groups)) < prefix_high lit.
Proof.
  intros Hg Hp. unfold prefix_low, prefix_high.
  set (d := remove_colons lit). set (k := Z.of_nat (String.length d)).
  destruct (prefix_split _ _ Hp) as (r & Er).
  pose proof (remove_colons_hex _ (address_units_expanded groups Hg)) as Hhex.
  pose proof (remove_colons_join_length groups (proj2 Hg)) as Hlen.
  rewrite (proj1 Hg) in Hlen. rewrite Er in Hhex, Hlen |- *.
  rewrite remove_colons_append in Hhex, Hlen |- *. fold d in Hhex, Hlen |- *.
  rewrite all_append in Hhex. apply andb_true_iff in Hhex as [Hd Hr].
  rewrite length_append in Hlen.
  rewrite hex_digits_value_append.
  pose proof (hex_digits_value_range d 0 Hd ltac:(lia)) as [H0 _].
  replace (32 - k) with (Z.of_nat (String.length (remove_colons r))) by (subst k; lia).
  apply hex_digits_value_range; [assumption | lia].
Qed.

Ltac known_prefix Hb lit Hp :=
  let H := fresh "Hrange" in
  pose proof (Hb lit Hp) as H;
  let lo := eval vm_compute in (prefix_low lit) in
  let hi := eval vm_compute in (prefix_high lit) in
  change (prefix_low lit) with lo in H; change (prefix_high lit) with hi in H.

Ltac first_block :=
  repeat match goal with
  | |- context [if ((?x <=? ?y) && (?u <=? ?v))%bool then _ else _] =>
      destruct (Z.leb_spec x y); [destruct (Z.leb_spec u v)|]; cbn [andb]; try lia
  end;
  do 2 eexists; split; reflexivity.

(** X17.  The two classifications of [analyzeAddress] agree on every
    type but "Global Unicast": when [getAddressType] gives an accepted
    address another type, [getRFCInfo] finds for its expanded text a
    block of the table, and the type of the first such block is that
    type. *)
Theorem allocation_agrees_with_type (A : string) :
  isValidFormat A = true ->
  exists E : string,
    expandAddress A = Some E /\
    (getAddressType A <> "Global Unicast" ->
     exists (block : string) (entry : Allocation),
       getRFCInfo E = Some (block, entry) /\
       allocation_type entry = getAddressType A).
Proof.
  intros Hv. destruct (performExpansion_valid A Hv) as (groups & Hg & HE).
  exists (join ":" groups). split; [exact HE|].
  assert (Ea := ipv6ToBigInt_expanded groups Hg).
  assert (Hb := fun lit => prefix_bounds lit groups Hg).
  set (a := hex_digits_value 0 (remove_colons (join ":" groups))) in *.
  assert (Ha : 0 <= a < 2 ^ 128).
  { destruct (ipv6ToBigInt_valid _ (isValidFormat_expanded groups Hg)) as (a' & Ea' & Ha').
    rewrite Ea in Ea'. now injection Ea' as <-. }
  unfold getAddressType. unfold expandAddress in *. rewrite HE.
  set (E := join ":" groups) in *. clearbody a E.
  destruct (String.eqb_spec E "0000:0000:0000:0000:0000:0000:0000:0001") as [E1|_].
  { intros _. rewrite E1. do 2 eexists. split; vm_compute; reflexivity. }
  destruct (String.eqb_spec E "0000:0000:0000:0000:0000:0000:0000:0000") as [E0|_].
  { intros _. rewrite E0. do 2 eexists. split; vm_compute; reflexivity. }
  rewrite (getRFCInfo_by_value E a Ea Ha).
  unfold rfcAllocations, in_bounds. cbn [find fst]. eval_bounds. cbv beta iota.
  destruct (String.prefix "fe80:" E) eqn:P1.
  { intros _. known_prefix Hb "fe80:" P1. first_block. }
  destruct (String.prefix "ff" E) eqn:P2.
  { intros _. known_prefix Hb "ff" P2. first_block. }
  destruct (String.prefix "fc" E) eqn:P3.
  { intros _. known_prefix Hb "fc" P3. cbn [orb]. first_block. }
  destruct (String.prefix "fd" E) eqn:P4.
  { intros _. known_prefix Hb "fd" P4. cbn [orb]. first_block. }
  cbn [orb].
  destruct (String.prefix "2001:0db8:" E) eqn:P5.
  { intros _. known_prefix Hb "2001:0db8:" P5. first_block. }
  destruct (String.prefix "2001:0000:" E) eqn:P6.
  { intros _. known_prefix Hb "2001:0000:" P6. first_block. }
  destruct (String.prefix "2002:" E) eqn:P7.
  { intros _. known_prefix Hb "2002:" P7. first_block. }
  intros H. now contradiction H.
Qed.

Lemma allocation_agrees_with_type_witness :
  exists E : string,
    expandAddress "fd12:3456::1" = Some E /\
    (getAddressType "fd12:3456::1" <> "Global Unicast" ->
     exists (block : string) (entry : Allocation),
       getRFCInfo E = Some (block, entry) /\
       allocation_type entry = getAddressType "fd12:3456::1").
Proof. apply (allocation_agrees_with_type "fd12:3456::1"). reflexivity. Defined.

End Allocations.

(** ** The three caches *)

Section CacheInvariant.
Import JS.
Context {V : Type}.
Implicit Types (m cache : Map (CacheItem V)).

Lemma distinct_keys_iff m : distinct_keys m = true <-> NoDup (map fst m).
Proof.
  split; [apply distinct_keys_NoDup|].
  induction m as [|e r IH]; [reflexivity|].
  cbn [map distinct_keys]. intros H. inversion H as [|x l Hx Hr]; subst.
  rewrite (IH Hr), andb_true_r. apply negb_true_iff.
  destruct (Map_has (fst e) r) eqn:E; [|reflexivity].
  now apply Map_has_iff in E.
Qed.

Lemma NoDup_Map_delete (k : string) m : NoDup (map fst m) -> NoDup (map fst (Map_delete k m)).
Proof. apply NoDup_keys_filter. Qed.

Lemma length_Map_delete (k : string) m : (List.length (Map_delete k m) <= List.length m)%nat.
Proof. apply filter_length_le. Qed.

Lemma keys_Map_set_present (k : string) (item : CacheItem V) m :
  map fst (map (fun e => if String.eqb (fst e) k then (k, item) else e) m) = map fst m.
Proof.
  rewrite map_map. apply map_ext. intros e.
  destruct (String.eqb_spec (fst e) k) as [E|]; [now rewrite E | reflexivity].
Qed.

Lemma NoDup_Map_set (k : string) (item : CacheItem V) m :
  NoDup (map fst m) -> NoDup (map fst (Map_set k item m)).
Proof.
  intros H. unfold Map_set. destruct (Map_has k m) eqn:E.
  - now rewrite keys_Map_set_present.
  - rewrite map_app. cbn [map fst]. apply NoDup_app; [assumption | repeat constructor; intros [] |].
    intros x Hx [<-|[]]. apply Map_has_iff in Hx. congruence.
Qed.

Lemma length_Map_set (k : string) (item : CacheItem V) m :
  List.length (Map_set k item m) =
  if Map_has k m then List.length m else S (List.length m).
Proof.
  unfold Map_set. destruct (Map_has k m).
  - now rewrite length_map.
  - rewrite length_app. cbn. lia.
Qed.

Lemma Map_get_set (k : string) (item : CacheItem V) m :
  Map_get k (Map_set k item m) = Some item.
Proof.
  unfold Map_set, Map_get. destruct (Map_has k m) eqn:E.
  - unfold Map_has in E. induction m as [|e r IH]; [discriminate E|].
    cbn [existsb] in E. cbn [map find].
    destruct (String.eqb (fst e) k) eqn:Ek.
    + cbn [fst]. now rewrite String.eqb_refl.
    + rewrite Ek. cbn [orb] in E. now apply IH.
  - unfold Map_has in E. induction m as [|e r IH].
    + cbn. now rewrite String.eqb_refl.
    + cbn [existsb] in E. apply orb_false_iff in E as [Ek Er].
      cbn [app find]. rewrite Ek. now apply IH.
Qed.
End CacheInvariant.

Section CacheBounds.
Import JS.
Context {V : Type}.
Implicit Types (m cache : Map (CacheItem V)).

Lemma validation_cleanExpiredCache (now : Z) cache :
  NoDup (map fst cache) ->
  ValidationEngine.cleanExpiredCache now cache =
  filter (fun e => negb (expired ValidationEngine.CACHE_TTL now e)) cache.
Proof.
  intros Hnd. unfold ValidationEngine.cleanExpiredCache.
  assert (E : forall (l : list (string * CacheItem V)) (c : Map (CacheItem V)),
            fold_left (fun c e => if now - timestamp (snd e) >? ValidationEngine.CACHE_TTL
                                  then Map_delete (fst e) c else c) l c =
            fold_left (fun c k => Map_delete k c)
              (map fst (filter (expired ValidationEngine.CACHE_TTL now) l)) c).
  { induction l as [|e l IH]; intros c; [reflexivity|].
    cbn [fold_left filter]. unfold expired at 1.
    destruct (now - timestamp (snd e) >? ValidationEngine.CACHE_TTL); cbn [map fold_left]; apply IH. }
  rewrite E, delete_keys.
  exact (without_filter (expired ValidationEngine.CACHE_TTL now) cache Hnd).
Qed.

Lemma within_filter (cap : Z) (p : string * CacheItem V -> bool) cache :
  within cap cache -> within cap (filter p cache).
Proof.
  intros [Hnd Hsz]. split; [now apply NoDup_keys_filter|].
  pose proof (filter_length_le p cache). lia.
Qed.

Lemma within_Map_set (cap : Z) (k : string) (item : CacheItem V) cache :
  NoDup (map fst cache) -> Z.of_nat (List.length cache) < cap ->
  within cap (Map_set k item cache).
Proof.
  intros Hnd Hsz. split; [now apply NoDup_Map_set|].
  rewrite length_Map_set. destruct (Map_has k cache); lia.
Qed.

Lemma utils_setToCache_within (nowClean nowWrite : Z) (key : string) (v : V) cache :
  within 1000 cache -> within 1000 (IPv6Utils.setToCache nowClean nowWrite key v cache).
Proof.
  intros [Hnd Hsz]. unfold IPv6Utils.setToCache, IPv6Utils.size, IPv6Utils.CACHE_MAX_SIZE.
  destruct (Z.geb_spec (Z.of_nat (List.length cache)) 1000) as [Hfull|Hroom];
    [|apply within_Map_set; [assumption | lia]].
  rewrite (utils_cleanExpiredCache nowClean cache Hnd).
  set (purged := filter _ cache).
  destruct (within_filter 1000 (fun e => negb (expired IPv6Utils.CACHE_TTL nowClean e)) cache
              (conj Hnd Hsz)) as [Hndp Hszp].
  fold purged in Hndp, Hszp.
  destruct (Z.geb_spec (Z.of_nat (List.length purged)) 1000) as [Hfull'|Hroom'];
    [|apply within_Map_set; [assumption | lia]].
  rewrite delete_entries.
  assert (E300 : IPv6Utils.evictionCount = 300%nat) by (vm_compute; reflexivity).
  rewrite E300.
  destruct (evict_oldest 300%nat purged Hndp) as (HP & Hlen & _); [lia|].
  apply Permutation_length in HP. rewrite length_app, Hlen in HP.
  apply within_Map_set.
  - unfold without. now apply NoDup_keys_filter.
  - lia.
Qed.

Lemma engine_setToCache_within (nowClean nowWrite : Z) (key : string) (v : V) cache :
  within 500 cache -> within 500 (OverlapEngine.setToCache nowClean nowWrite key v cache).
Proof.
  intros [Hnd Hsz].
  unfold OverlapEngine.setToCache, OverlapEngine.size, OverlapEngine.CACHE_MAX_SIZE.
  destruct (Z.geb_spec (Z.of_nat (List.length cache)) 500) as [Hfull|Hroom];
    [|apply within_Map_set; [assumption | lia]].
  rewrite (engine_cleanExpiredCache nowClean cache Hnd).
  set (purged := filter _ cache).
  destruct (within_filter 500 (fun e => negb (expired OverlapEngine.CACHE_TTL nowClean e)) cache
              (conj Hnd Hsz)) as [Hndp Hszp].
  fold purged in Hndp, Hszp.
  destruct (Z.geb_spec (Z.of_nat (List.length purged)) 500) as [Hfull'|Hroom'];
    [|apply within_Map_set; [assumption | lia]].
  clearbody purged. destruct purged as [|[k item] rest]; [cbn in Hfull'; lia|].
  rewrite (Map_delete_first k item rest Hndp).
  apply within_Map_set.
  - cbn [map] in Hndp. now inversion Hndp.
  - cbn [List.length] in Hszp. lia.
Qed.

Lemma getFromCache_within (cap : Z) cache (r : option V * Map (CacheItem V)) (key : string) :
  within cap cache -> r = (fst r, cache) \/ r = (fst r, Map_delete key cache) ->
  within cap (snd r).
Proof.
  intros Hw [->| ->]; cbn [snd]; [assumption | now apply within_filter].
Qed.

Lemma utils_step_within cache (op : CacheOp V) :
  within 1000 cache -> within 1000 (utils_step cache op).
Proof.
  intros Hw. destruct op as [now key|nowClean nowWrite key v|now|]; cbn [utils_step].
  - apply (getFromCache_within 1000 cache _ key Hw).
    unfold IPv6Utils.getFromCache. destruct (Map_get key cache) as [item|]; [|now right].
    destruct (_ <? _); [now left | now right].
  - now apply utils_setToCache_within.
  - rewrite (utils_cleanExpiredCache now cache (proj1 Hw)). now apply within_filter.
  - split; [constructor | cbn; lia].
Qed.

Lemma engine_step_within cache (op : CacheOp V) :
  within 500 cache -> within 500 (engine_step cache op).
Proof.
  intros Hw. destruct op as [now key|nowClean nowWrite key v|now|]; cbn [engine_step].
  - apply (getFromCache_within 500 cache _ key Hw).
    unfold OverlapEngine.getFromCache. destruct (Map_get key cache) as [item|]; [|now right].
    destruct (_ <? _); [now left | now right].
  - now apply engine_setToCache_within.
  - rewrite (engine_cleanExpiredCache now cache (proj1 Hw)). now apply within_filter.
  - split; [constructor | cbn; lia].
Qed.

End CacheBounds.

Section CacheTheorems.
Import JS.
Context {V : Type}.
Implicit Types (m cache : Map (CacheItem V)).

Lemma fold_step_within (cap : Z) (step : Map (CacheItem V) -> CacheOp V -> Map (CacheItem V))
  (ops : list (CacheOp V)) cache :
  (forall c op, within cap c -> within cap (step c op)) ->
  within cap cache -> within cap (fold_left step ops cache).
Proof.
  intros Hstep. revert cache. induction ops as [|op ops IH]; intros cache Hw; [exact Hw|].
  cbn [fold_left]. apply IH. now apply Hstep.
Qed.

Lemma within_iff (cap : Z) cache :
  within cap cache <-> distinct_keys cache = true /\ Z.of_nat (List.length cache) <= cap.
Proof. unfold within. now rewrite distinct_keys_iff. Qed.

(** X18.  Lookups, writes, purges and [clearCache] in any number and
    order, with any clock readings, keep the cache of [IPv6Utils] within
    1000 entries and the one of [OverlapEngine] within 500, no key
    twice. *)
Theorem caches_never_exceed_capacity (ops : list (CacheOp V))
  (ucache : IPv6Utils.Cache V) (ecache : OverlapEngine.Cache V) :
  distinct_keys ucache = true -> IPv6Utils.size ucache <= IPv6Utils.CACHE_MAX_SIZE ->
  distinct_keys ecache = true -> OverlapEngine.size ecache <= OverlapEngine.CACHE_MAX_SIZE ->
  let ucache' := fold_left utils_step ops ucache in
  let ecache' := fold_left engine_step ops ecache in
  (distinct_keys ucache' = true /\ IPv6Utils.size ucache' <= IPv6Utils.CACHE_MAX_SIZE) /\
  (distinct_keys ecache' = true /\ OverlapEngine.size ecache' <= OverlapEngine.CACHE_MAX_SIZE).
Proof.
  intros Hu1 Hu2 He1 He2 ucache' ecache'. split; apply within_iff.
  - apply fold_step_within; [exact utils_step_within | now apply within_iff].
  - apply fold_step_within; [exact engine_step_within | now apply within_iff].
Qed.

Lemma Map_get_absent (k : string) m : Map_has k m = false -> Map_get k m = None.
Proof.
  unfold Map_has, Map_get. induction m as [|e r IH]; [reflexivity|].
  cbn [existsb find]. intros H. apply orb_false_iff in H as [He Hr].
  rewrite He. now apply IH.
Qed.

Lemma Map_get_filter (p : string * CacheItem V -> bool) (k : string) (item : CacheItem V) m :
  NoDup (map fst m) -> Map_get k m = Some item ->
  Map_get k (filter p m) = if p (k, item) then Some item else None.
Proof.
  induction m as [|e r IH]; [discriminate|].
  cbn [map]. intros Hnd Hget. inversion Hnd as [|x l Hx Hr]; subst.
  unfold Map_get in Hget |- *. cbn [find filter] in Hget |- *.
  destruct (String.eqb_spec (fst e) k) as [Ek|Ek].
  - destruct e as [k' item']. cbn [fst snd option_map] in *. subst k'.
    injection Hget as ->.
    destruct (p (k, item)).
    + cbn [find fst]. now rewrite String.eqb_refl.
    + apply (Map_get_absent k (filter p r)).
      destruct (Map_has k (filter p r)) eqn:E; [|reflexivity].
      apply Map_has_iff in E. exfalso. apply Hx.
      apply in_map_iff in E as (y & Ey & Hy). apply filter_In in Hy as [Hy _].
      apply in_map_iff. now exists y.
  - assert (IH' := IH Hr Hget).
    destruct (p e); [|exact IH'].
    cbn [find]. destruct (String.eqb_spec (fst e) k); [contradiction | exact IH'].
Qed.

End CacheTheorems.

Section CacheReads.
Import JS.

Lemma caches_never_exceed_capacity_witness :
  let ops := [OpWrite 1000 1000 "new" tt; OpRead 1001 "0"; OpClean 400000; OpClear] in
  let ucache' := fold_left utils_step ops (filled_cache 1000) in
  let ecache' := fold_left engine_step ops (filled_cache 500) in
  (distinct_keys ucache' = true /\ IPv6Utils.size ucache' <= IPv6Utils.CACHE_MAX_SIZE) /\
  (distinct_keys ecache' = true /\ OverlapEngine.size ecache' <= OverlapEngine.CACHE_MAX_SIZE).
Proof.
  apply (caches_never_exceed_capacity
           [OpWrite 1000 1000 "new" tt; OpRead 1001 "0"; OpClean 400000; OpClear]
           (filled_cache 1000) (filled_cache 500));
    vm_compute; first [reflexivity | discriminate].
Defined.

(** X19.  In the three classes, a lookup of the key that was written
    last returns the value written when less than 300000 ms have passed
    since the write, and nothing otherwise, whatever the cache held and
    evicted at the write. *)
Theorem written_value_is_read_back {V : Type} (cache : Map (CacheItem V))
  (nowClean nowWrite now : Z) (key : string) (v : V) :
  let served := if now - nowWrite <? 300000 then Some v else None in
  fst (IPv6Utils.getFromCache now key
         (IPv6Utils.setToCache nowClean nowWrite key v cache)) = served /\
  fst (OverlapEngine.getFromCache now key
         (OverlapEngine.setToCache nowClean nowWrite key v cache)) = served /\
  fst (ValidationEngine.getFromCache now key
         (ValidationEngine.setToCache nowClean nowWrite key v cache)) = served.
Proof.
  intros served. subst served.
  unfold IPv6Utils.getFromCache, IPv6Utils.setToCache,
    OverlapEngine.getFromCache, OverlapEngine.setToCache,
    ValidationEngine.getFromCache, ValidationEngine.setToCache.
  rewrite !Map_get_set. cbn [timestamp value].
  change IPv6Utils.CACHE_TTL with 300000. change OverlapEngine.CACHE_TTL with 300000.
  change ValidationEngine.CACHE_TTL with 300000.
  destruct (now - nowWrite <? 300000); repeat split.
Qed.

(** X20.  In the three classes, an entry is served by [getFromCache]
    when its age is below 300000 ms and is removed by [cleanExpiredCache]
    when its age is above 300000 ms: an entry of exactly that age is
    neither served nor purged. *)
Theorem entry_served_and_purged {V : Type} (cache : Map (CacheItem V))
  (now : Z) (key : string) (item : CacheItem V) :
  distinct_keys cache = true -> Map_get key cache = Some item ->
  let age := now - timestamp item in
  let served := if age <? 300000 then Some (value item) else None in
  let kept := if age >? 300000 then None else Some item in
  (fst (IPv6Utils.getFromCache now key cache) = served /\
   Map_get key (IPv6Utils.cleanExpiredCache now cache) = kept) /\
  (fst (OverlapEngine.getFromCache now key cache) = served /\
   Map_get key (OverlapEngine.cleanExpiredCache now cache) = kept) /\
  (fst (ValidationEngine.getFromCache now key cache) = served /\
   Map_get key (ValidationEngine.cleanExpiredCache now cache) = kept) /\
  (age = 300000 -> served = None /\ kept = Some item).
Proof.
  intros Hd Hget age served kept. apply distinct_keys_NoDup in Hd.
  unfold IPv6Utils.getFromCache, OverlapEngine.getFromCache, ValidationEngine.getFromCache.
  rewrite Hget.
  rewrite (utils_cleanExpiredCache now cache Hd), (engine_cleanExpiredCache now cache Hd),
    (validation_cleanExpiredCache now cache Hd).
  rewrite !(Map_get_filter _ key item cache Hd Hget).
  unfold expired. cbn [snd].
  change IPv6Utils.CACHE_TTL with 300000. change OverlapEngine.CACHE_TTL with 300000.
  change ValidationEngine.CACHE_TTL with 300000.
  fold age. subst served kept.
  repeat split; try (destruct (age <? 300000); reflexivity);
    try (destruct (age >? 300000); reflexivity).
  - destruct (Z.ltb_spec age 300000); [lia | reflexivity].
  - rewrite Z.gtb_ltb. destruct (Z.ltb_spec 300000 age); [lia | reflexivity].
Qed.

Lemma entry_served_and_purged_witness :
  let cache := filled_cache 3 in
  let item := {| value := tt; timestamp := 1 |} in
  let age := 300001 - 1 in
  let served := if age <? 300000 then Some tt else None in
  let kept := if age >? 300000 then None else Some item in
  (fst (IPv6Utils.getFromCache 300001 "1" cache) = served /\
   Map_get "1" (IPv6Utils.cleanExpiredCache 300001 cache) = kept) /\
  (fst (OverlapEngine.getFromCache 300001 "1" cache) = served /\
   Map_get "1" (OverlapEngine.cleanExpiredCache 300001 cache) = kept) /\
  (fst (ValidationEngine.getFromCache 300001 "1" cache) = served /\
   Map_get "1" (ValidationEngine.cleanExpiredCache 300001 cache) = kept) /\
  (age = 300000 -> served = None /\ kept = Some item).
Proof.
  apply (entry_served_and_purged (filled_cache 3) 300001 "1" {| value := tt; timestamp := 1 |});
    reflexivity.
Defined.

(** X21.  The cache of [ValidationEngine] has no bound: the write of a
    new key into a cache without expired entries appends the entry and
    removes nothing, whatever the size of the cache. *)
Theorem validation_cache_grows {V : Type} (cache : ValidationEngine.Cache V)
  (nowClean nowWrite : Z) (key : string) (v : V) :
  distinct_keys cache = true ->
  Map_has key cache = false ->
  forallb (fun e => negb (expired 300000 nowClean e)) cache = true ->
  let after := ValidationEngine.setToCache nowClean nowWrite key v cache in
  after = cache ++ [(key, {| value := v; timestamp := nowWrite |})] /\
  ValidationEngine.size after = ValidationEngine.size cache + 1.
Proof.
  intros Hd Hnew Hfresh after. apply distinct_keys_NoDup in Hd.
  assert (Ef : filter (fun e => negb (expired 300000 nowClean e)) cache = cache).
  { clear - Hfresh. induction cache as [|e r IH]; [reflexivity|].
    cbn [forallb] in Hfresh. apply andb_true_iff in Hfresh as [He Hr].
    cbn [filter]. rewrite He. f_equal. now apply IH. }
  assert (E : after = cache ++ [(key, {| value := v; timestamp := nowWrite |})]).
  { subst after. unfold ValidationEngine.setToCache.
    rewrite (validation_cleanExpiredCache nowClean cache Hd).
    change ValidationEngine.CACHE_TTL with 300000. rewrite Ef.
    destruct (_ >=? _); unfold Map_set; now rewrite Hnew. }
  split; [exact E|]. rewrite E. unfold ValidationEngine.size. rewrite length_app. cbn. lia.
Qed.

Lemma validation_cache_grows_witness :
  let cache := filled_cache 1000 in
  let after := ValidationEngine.setToCache 1000 1000 "new" tt cache in
  after = cache ++ [("new", {| value := tt; timestamp := 1000 |})] /\
  ValidationEngine.size after = 1000 + 1.
Proof.
  apply (validation_cache_grows (filled_cache 1000) 1000 1000 "new" tt);
    vm_compute; reflexivity.
Defined.

End CacheReads.

(** ** The two validators *)

Section Validators.
Import JS.

Lemma all_trimStart (p : ascii -> bool) (s : string) :
  all p s = true -> all p (trimStart s) = true.
Proof.
  induction s as [|c s IH]; [reflexivity|]. cbn [all trimStart]. intros H.
  destruct (is_space c); [|exact H]. apply andb_true_iff in H as [_ H]. now apply IH.
Qed.

Lemma all_trimEnd (p : ascii -> bool) (s : string) :
  all p s = true -> all p (trimEnd s) = true.
Proof.
  induction s as [|c s IH]; [reflexivity|]. cbn [all trimEnd]. intros H.
  apply andb_true_iff in H as [Hc Hs].
  destruct (is_space c && is_empty (trimEnd s))%bool; [reflexivity|].
  cbn [all]. now rewrite Hc, IH.
Qed.

Lemma all_trim (p : ascii -> bool) (s : string) : all p s = true -> all p (trim s) = true.
Proof. intros H. unfold trim. now apply all_trimEnd, all_trimStart. Qed.

Lemma split_last_all (p : ascii -> bool) (sep : ascii) (s a b : string) :
  split_last sep s = Some (a, b) -> all p s = true -> all p a = true /\ all p b = true.
Proof.
  revert a b. induction s as [|c s IH]; intros a b; [discriminate|].
  cbn [split_last all]. intros H Hp. apply andb_true_iff in Hp as [Hc Hs].
  destruct (split_last sep s) as [[a' b']|].
  - injection H as <- <-. destruct (IH a' b' eq_refl Hs) as [Ha Hb].
    cbn [all]. now rewrite Hc, Ha, Hb.
  - destruct (Ascii.eqb c sep); [|discriminate]. injection H as <- <-. now split.
Qed.

Lemma validation_functions_coincide (a : string) :
  ValidationEngine.isValidFormat a = IPv6Utils.isValidFormat a /\
  ValidationEngine.expandAddress a = IPv6Utils.expandAddress a /\
  ValidationEngine.compressAddress a = IPv6Utils.compressAddress a.
Proof. repeat split. Qed.

(** The types and the scopes that the two classes give to an expanded
    text. *)
Lemma kinds_compared (clean e : string) :
  IPv6Utils.expandAddress clean = Some e ->
  let tu := IPv6Utils.getAddressType clean in
  let tw := ValidationEngine.getAddressType e in
  (tw = tu \/ (tw = "Global Unicast" /\ (tu = "Teredo" \/ tu = "6to4"))) /\
  (ValidationEngine.getAddressScope tw = IPv6Utils.getAddressScope clean \/
   (tu = "Multicast" /\ ValidationEngine.getAddressScope tw = "Variable")).
Proof.
  intros He tu tw. subst tu tw.
  unfold IPv6Utils.getAddressScope, IPv6Utils.getAddressType, ValidationEngine.getAddressType.
  rewrite He.
  destruct (String.eqb e "0000:0000:0000:0000:0000:0000:0000:0001"); [split; now left|].
  destruct (String.eqb e "0000:0000:0000:0000:0000:0000:0000:0000"); [split; now left|].
  destruct (String.prefix "fe80:" e); [split; now left|].
  destruct (String.prefix "ff" e); [split; [now left | now right]|].
  destruct (String.prefix "fc" e || String.prefix "fd" e)%bool; [split; now left|].
  destruct (String.prefix "2001:0db8:" e); [split; now left|].
  destruct (String.prefix "2001:0000:" e); [split; [right; tauto | now left]|].
  destruct (String.prefix "2002:" e); [split; [right; tauto | now left]|].
  split; now left.
Qed.

(** X22.  On a text without percent sign the validators of [IPv6Utils]
    and [ValidationEngine] agree: both reject it with the same error, or
    both accept it with the same original, clean address, prefix,
    expanded and compressed texts; the type is the same except that
    [ValidationEngine] calls "Global Unicast" what [IPv6Utils] calls
    "Teredo" or "6to4", and the scope is the same except for "Multicast",
    where [ValidationEngine] answers "Variable". *)
Theorem validators_agree_without_zone (text : string) :
  no_percent text = true ->
  match IPv6Utils.validateIPv6 text, ValidationEngine.validateIPv6 text with
  | IPv6Utils.Valid u, ValidationEngine.Valid w =>
      same_result u w /\ IPv6Utils.zoneId u = None /\
      (ValidationEngine.type w = IPv6Utils.type u \/
       (ValidationEngine.type w = "Global Unicast" /\
        (IPv6Utils.type u = "Teredo" \/ IPv6Utils.type u = "6to4"))) /\
      (ValidationEngine.scope w = IPv6Utils.scope u \/
       (IPv6Utils.type u = "Multicast" /\ ValidationEngine.scope w = "Variable"))
  | IPv6Utils.Invalid e, ValidationEngine.Invalid e' => e' = e
  | _, _ => False
  end.
Proof.
  intros Hnp. unfold IPv6Utils.validateIPv6, ValidationEngine.validateIPv6.
  destruct (is_empty text); [reflexivity|].
  assert (Ht : no_percent (trim text) = true) by now apply all_trim.
  set (t := trim text) in *. clearbody t.
  unfold IPv6Utils.performValidation, ValidationEngine.performValidation.
  set (clean0 := match IPv6Utils.match_CIDR t with Some (a, _) => a | None => t end).
  set (pfx := match IPv6Utils.match_CIDR t with Some (_, d) => parseInt10 d | None => None end).
  assert (H0 : no_percent clean0 = true).
  { subst clean0. unfold IPv6Utils.match_CIDR.
    destruct (split_last "/" t) as [[a d]|] eqn:Es; [|exact Ht].
    destruct (_ && _)%bool; [|exact Ht].
    now destruct (split_last_all _ "/" t a d Es Ht). }
  destruct (IPv6Utils.prefix_out_of_bounds pfx); [reflexivity|].
  unfold IPv6Utils.match_ZONE_ID. rewrite (split_zone_absent clean0 H0). cbn [option_map].
  set (clean := strip_brackets clean0).
  change (ValidationEngine.isValidFormat clean) with (IPv6Utils.isValidFormat clean).
  change (ValidationEngine.expandAddress clean) with (IPv6Utils.expandAddress clean).
  destruct (IPv6Utils.isValidFormat clean) eqn:Hv; [|reflexivity]. cbn [negb].
  destruct (performExpansion_valid clean Hv) as (groups & Hg & HE).
  unfold IPv6Utils.expandAddress at 1 2. rewrite HE.
  pose proof (performExpansion_expanded groups Hg) as HEE.
  destruct (kinds_compared clean (join ":" groups) HE) as [Hty Hsc].
  split; [|split; [reflexivity|split; assumption]].
  unfold same_result. cbn. repeat split.
  change (ValidationEngine.compressAddress (join ":" groups))
    with (IPv6Utils.performCompression (join ":" groups)).
  unfold IPv6Utils.compressAddress. symmetry.
  now apply performCompression_through_expansion.
Qed.

Lemma validators_agree_without_zone_witness :
  match IPv6Utils.validateIPv6 "2002:C000:204::/48",
        ValidationEngine.validateIPv6 "2002:C000:204::/48" with
  | IPv6Utils.Valid u, ValidationEngine.Valid w =>
      same_result u w /\ IPv6Utils.zoneId u = None /\
      (ValidationEngine.type w = IPv6Utils.type u \/
       (ValidationEngine.type w = "Global Unicast" /\
        (IPv6Utils.type u = "Teredo" \/ IPv6Utils.type u = "6to4"))) /\
      (ValidationEngine.scope w = IPv6Utils.scope u \/
       (IPv6Utils.type u = "Multicast" /\ ValidationEngine.scope w = "Variable"))
  | IPv6Utils.Invalid e, ValidationEngine.Invalid e' => e' = e
  | _, _ => False
  end.
Proof. apply (validators_agree_without_zone "2002:C000:204::/48"). reflexivity. Defined.

Lemma some_trimStart (p : ascii -> bool) (s : string) :
  (forall c, is_space c = true -> p c = true) ->
  all p s = false -> all p (trimStart s) = false.
Proof.
  intros Hsp. induction s as [|c s IH]; [discriminate|]. cbn [all trimStart]. intros H.
  destruct (is_space c) eqn:Ec; [|exact H].
  rewrite (Hsp c Ec) in H. now apply IH.
Qed.

Lemma some_trimEnd (p : ascii -> bool) (s : string) :
  (forall c, is_space c = true -> p c = true) ->
  all p s = false -> all p (trimEnd s) = false.
Proof.
  intros Hsp. induction s as [|c s IH]; [discriminate|]. cbn [all trimEnd]. intros H.
  apply andb_false_iff in H as [Hc|Hs].
  - destruct (is_space c) eqn:Ec; [rewrite (Hsp c Ec) in Hc; discriminate|].
    cbn [andb all]. now rewrite Hc.
  - specialize (IH Hs). destruct (trimEnd s) as [|c' r'] eqn:E; [discriminate IH|].
    cbn [is_empty]. rewrite andb_false_r. cbn [all] in IH |- *. rewrite IH.
    apply andb_false_r.
Qed.

Lemma split_last_parts (p : ascii -> bool) (sep : ascii) (s a b : string) :
  split_last sep s = Some (a, b) -> all p s = (all p a && (p sep && all p b))%bool.
Proof.
  revert a b. induction s as [|c s IH]; intros a b; [discriminate|].
  cbn [split_last all]. intros H.
  destruct (split_last sep s) as [[a' b']|].
  - injection H as <- <-. cbn [all]. rewrite (IH a' b' eq_refl). now rewrite andb_assoc.
  - destruct (Ascii.eqb_spec c sep) as [->|]; [|discriminate]. injection H as <- <-.
    reflexivity.
Qed.

Lemma some_drop_last_if (p : ascii -> bool) (x : ascii) (s : string) :
  p x = true -> all p s = false -> all p (drop_last_if x s) = false.
Proof.
  intros Hx. induction s as [|c s IH]; [discriminate|]. intros H.
  cbn [drop_last_if]. destruct s as [|c' s'].
  - cbn [all] in H. destruct (Ascii.eqb_spec c x) as [->|]; [|exact H].
    rewrite Hx in H. discriminate H.
  - cbn [all] in H |- *. apply andb_false_iff in H as [Hc|Hs].
    + now rewrite Hc.
    + cbn [all] in IH. rewrite (IH Hs). apply andb_false_r.
Qed.

Lemma some_strip_brackets (p : ascii -> bool) (s : string) :
  p "["%char = true -> p "]"%char = true ->
  all p s = false -> all p (strip_brackets s) = false.
Proof.
  intros Ho Hc H. destruct s as [|c s]; [discriminate H|].
  cbn [strip_brackets]. destruct (Ascii.eqb_spec c "["%char) as [->|].
  - cbn [all] in H. rewrite Ho in H. now apply some_drop_last_if.
  - now apply some_drop_last_if.
Qed.

(** X23.  [ValidationEngine] rejects every text that has a percent
    sign, zone identifiers included. *)
Theorem zone_identifier_rejected (text : string) :
  no_percent text = false ->
  ValidationEngine.valid (ValidationEngine.validateIPv6 text) = false.
Proof.
  intros Hp. unfold ValidationEngine.validateIPv6.
  destruct (is_empty text); [reflexivity|].
  assert (Ht : no_percent (trim text) = false).
  { unfold trim. apply some_trimEnd, some_trimStart; try assumption;
      intros c; destruct c as [[|] [|] [|] [|] [|] [|] [|] [|]]; vm_compute; congruence. }
  set (t := trim text) in *. clearbody t.
  unfold ValidationEngine.performValidation.
  set (clean0 := match IPv6Utils.match_CIDR t with Some (a, _) => a | None => t end).
  assert (H0 : no_percent clean0 = false).
  { subst clean0. unfold IPv6Utils.match_CIDR.
    destruct (split_last "/" t) as [[a d]|] eqn:Es; [|exact Ht].
    destruct (_ && _)%bool eqn:Ec; [|exact Ht].
    repeat (apply andb_true_iff in Ec as [Ec ?]).
    unfold no_percent in Ht. rewrite (split_last_parts _ "/" t a d Es) in Ht.
    assert (Hd : all (fun c => negb (Ascii.eqb c "%")) d = true).
    { apply all_impl with (p := is_digit); [|assumption].
      intros c; destruct c as [[|] [|] [|] [|] [|] [|] [|] [|]]; vm_compute; congruence. }
    rewrite Hd in Ht. cbn in Ht. now rewrite !andb_true_r in Ht. }
  destruct (IPv6Utils.prefix_out_of_bounds _); [reflexivity|].
  assert (H1 : no_percent (strip_brackets clean0) = false)
    by (apply some_strip_brackets; [reflexivity | reflexivity | exact H0]).
  assert (Hinv : ValidationEngine.isValidFormat (strip_brackets clean0) = false).
  { unfold ValidationEngine.isValidFormat.
    destruct (is_empty _); [reflexivity|].
    destruct (all _ (strip_brackets clean0)) eqn:Hu; [|reflexivity].
    exfalso. unfold no_percent in H1.
    rewrite (all_impl _ (fun c => negb (Ascii.eqb c "%")) _ ltac:(
      intros c Hc; now destruct (address_unit c Hc) as (_ & _ & -> & _)) Hu) in H1.
    discriminate H1. }
  now rewrite Hinv.
Qed.

Lemma zone_identifier_rejected_witness :
  ValidationEngine.valid (ValidationEngine.validateIPv6 "fe80::1%eth0") = false /\
  IPv6Utils.valid (IPv6Utils.validateIPv6 "fe80::1%eth0") = true.
Proof.
  split; [apply (zone_identifier_rejected "fe80::1%eth0") | ]; reflexivity.
Defined.

End Validators.

(** ** The conflicts and the statistics of a batch *)

Section BatchFurther.
Import JS OverlapEngine.

Lemma validate_entries_sound (i : nat) (ps : list string) (vp : ValidPrefix) :
  In vp (fst (validate_entries i ps)) ->
  exists k, vp_index vp = (i + k)%nat /\ nth_error ps k = Some (vp_prefix vp) /\
            IPv6Utils.validateIPv6 (vp_prefix vp) = IPv6Utils.Valid (vp_validation vp).
Proof.
  revert i. induction ps as [|p ps IH]; intros i; [intros []|].
  cbn [validate_entries]. specialize (IH (S i)).
  destruct (validate_entries (S i) ps) as [vs rs]. cbn [fst] in IH.
  assert (Htail : In vp vs ->
            exists k, vp_index vp = (i + k)%nat /\ nth_error (p :: ps) k = Some (vp_prefix vp) /\
              IPv6Utils.validateIPv6 (vp_prefix vp) = IPv6Utils.Valid (vp_validation vp)).
  { intros H. destruct (IH H) as (k & E1 & E2 & E3). exists (S k).
    repeat split; [lia | assumption | assumption]. }
  destruct (IPv6Utils.validateIPv6 p) as [v|e] eqn:Ev; cbn [fst]; [|exact Htail].
  intros [<-|H]; [|now apply Htail].
  exists 0%nat. cbn. repeat split; [lia | assumption].
Qed.

Lemma validate_entries_complete (i k : nat) (ps : list string) (p : string)
  (v : IPv6Utils.Validation) :
  nth_error ps k = Some p -> IPv6Utils.validateIPv6 p = IPv6Utils.Valid v ->
  In {| vp_index := i + k; vp_prefix := p; vp_validation := v |} (fst (validate_entries i ps)).
Proof.
  revert i k. induction ps as [|q ps IH]; intros i [|k] Hn Hv; try discriminate.
  - cbn in Hn. injection Hn as ->. cbn [validate_entries].
    destruct (validate_entries (S i) ps) as [vs rs]. rewrite Hv. cbn [fst].
    left. f_equal. lia.
  - cbn in Hn. cbn [validate_entries]. specialize (IH (S i) k Hn Hv).
    destruct (validate_entries (S i) ps) as [vs rs]. cbn [fst] in IH.
    replace (i + S k)%nat with (S i + k)%nat by lia.
    destruct (IPv6Utils.validateIPv6 q); cbn [fst]; [now right | assumption].
Qed.

Lemma in_pairs_by {A} (key : A -> nat) (l : list A) (a b : A) :
  StronglySorted lt (map key l) ->
  (In (a, b) (pairs l) <-> In a l /\ In b l /\ (key a < key b)%nat).
Proof.
  induction l as [|x l IH]; cbn [pairs map]; [cbn; tauto|].
  intros Hs. inversion Hs as [|y m Hl Hx]; subst. specialize (IH Hl).
  rewrite Forall_forall in Hx.
  assert (Hx' : forall y, In y l -> (key x < key y)%nat).
  { intros y Hy. apply Hx. now apply in_map. }
  rewrite in_app_iff, in_map_iff, IH. cbn [In]. split.
  - intros [(y & E & Hy)|(Ha & Hb & Hab)].
    + injection E as <- <-. pose proof (Hx' _ Hy). tauto.
    + tauto.
  - intros ([<-|Ha] & [<-|Hb] & Hab).
    + lia.
    + left. now exists b.
    + pose proof (Hx' _ Ha). lia.
    + tauto.
Qed.

Lemma valid_prefixes_sorted (prefixes : list string) :
  StronglySorted lt (map vp_index (fst (validate_entries 0 prefixes))).
Proof. rewrite validate_entries_indices. apply filter_seq_sorted. Qed.

(** An overlap check that answers "overlap". *)
Lemma overlap_found (cidr1 cidr2 : string) :
  result_hasOverlap (checkOverlapAdvanced cidr1 cidr2) = Some true ->
  includes "/" cidr1 = true /\ includes "/" cidr2 = true /\
  In (result_severity (checkOverlapAdvanced cidr1 cidr2))
     [Some CRITICAL; Some HIGH; Some MEDIUM] /\
  In (result_overlapType (checkOverlapAdvanced cidr1 cidr2))
     [Some IDENTICAL; Some FIRST_CONTAINS_SECOND; Some SECOND_CONTAINS_FIRST; Some PARTIAL].
Proof.
  unfold checkOverlapAdvanced. destruct (is_empty cidr1 || is_empty cidr2)%bool; [discriminate|].
  destruct (validateAndGetNetworkInfo cidr1) as [n1|] eqn:E1; [|discriminate].
  destruct (validateAndGetNetworkInfo cidr2) as [n2|] eqn:E2; [|discriminate].
  cbn [result_hasOverlap result_severity result_overlapType]. intros [= Ho].
  unfold validateAndGetNetworkInfo in E1, E2.
  destruct (includes "/" cidr1); [|discriminate E1].
  destruct (includes "/" cidr2); [|discriminate E2].
  split; [reflexivity|]. split; [reflexivity|].
  rewrite (analyzeOverlap_overlapping n1 n2 Ho).
  pose proof (analyzeOverlapDetails_type_severity n1 n2
    (networkBigInt n1) (broadcastBigInt n1) (networkBigInt n2) (broadcastBigInt n2)) as E.
  cbv zeta in E.
  repeat match type of E with context [if ?c then _ else _] => destruct c end;
    injection E as -> ->; cbn; tauto.
Qed.

Lemma conflicts_of_batch (batch : list string) :
  conflicts (analyzeBatch batch) =
  flat_map conflict_of (comparisons (fst (validate_entries 0 batch))).
Proof.
  unfold analyzeBatch. now destruct (validate_entries 0 batch) as [validPrefixes invalid].
Qed.

Lemma in_conflicts (batch : list string) (c : Conflict) :
  In c (conflicts (analyzeBatch batch)) <->
  exists a b : ValidPrefix,
    In a (fst (validate_entries 0 batch)) /\ In b (fst (validate_entries 0 batch)) /\
    (vp_index a < vp_index b)%nat /\
    result_hasOverlap (checkOverlapAdvanced (vp_prefix a) (vp_prefix b)) = Some true /\
    c = {| indices := (vp_index a, vp_index b);
           prefixes := (vp_prefix a, vp_prefix b);
           conflict_overlapType :=
             result_overlapType (checkOverlapAdvanced (vp_prefix a) (vp_prefix b));
           conflict_severity :=
             result_severity (checkOverlapAdvanced (vp_prefix a) (vp_prefix b));
           conflict_reason :=
             result_reason (checkOverlapAdvanced (vp_prefix a) (vp_prefix b)) |}.
Proof.
  rewrite conflicts_of_batch, in_flat_map. unfold comparisons. split.
  - intros (cmp & Hin & Hc). apply in_map_iff in Hin as ([a b] & <- & Hp).
    apply (in_pairs_by vp_index _ a b (valid_prefixes_sorted batch)) in Hp
      as (Ha & Hb & Hab).
    unfold conflict_of, compare_pair in Hc. cbn [first second outcome fst snd] in Hc.
    destruct (result_hasOverlap (checkOverlapAdvanced (vp_prefix a) (vp_prefix b)))
      as [[|]|] eqn:Ho; cbn [truthy] in Hc; try contradiction.
    destruct Hc as [<-|[]]. exists a, b. repeat split; assumption.
  - intros (a & b & Ha & Hb & Hab & Ho & ->).
    exists (compare_pair (a, b)). split.
    + apply in_map. now apply (in_pairs_by vp_index _ a b (valid_prefixes_sorted batch)).
    + unfold conflict_of, compare_pair. cbn [first second outcome fst snd].
      rewrite Ho. cbn [truthy]. now left.
Qed.

(** X24.  The conflicts of a batch are the pairs of indices [i < j] of
    valid prefixes for which the overlap check answers "overlap", each
    pair once; a conflict carries the two prefixes at its indices, both
    with a slash, a severity among CRITICAL, HIGH and MEDIUM and one of
    the four types of overlap. *)
Theorem batch_reports_the_overlapping_pairs (batch : list string) :
  let report := analyzeBatch batch in
  (forall i j : nat,
     In (i, j) (map indices (conflicts report)) <->
     (i < j)%nat /\ overlapping_at batch i j) /\
  (forall c : Conflict, In c (conflicts report) ->
     nth_error batch (fst (indices c)) = Some (fst (prefixes c)) /\
     nth_error batch (snd (indices c)) = Some (snd (prefixes c)) /\
     includes "/" (fst (prefixes c)) = true /\ includes "/" (snd (prefixes c)) = true /\
     In (conflict_severity c) [Some CRITICAL; Some HIGH; Some MEDIUM] /\
     In (conflict_overlapType c)
        [Some IDENTICAL; Some FIRST_CONTAINS_SECOND; Some SECOND_CONTAINS_FIRST;
         Some PARTIAL]) /\
  NoDup (map indices (conflicts report)).
Proof.
  intros report. subst report. split; [|split].
  - intros i j. rewrite in_map_iff. split.
    + intros (c & Ei & Hc). apply in_conflicts in Hc as (a & b & Ha & Hb & Hab & Ho & ->).
      cbn [indices] in Ei. injection Ei as <- <-. split; [exact Hab|].
      destruct (validate_entries_sound 0 batch a Ha) as (ka & Eka & Hna & Hva).
      destruct (validate_entries_sound 0 batch b Hb) as (kb & Ekb & Hnb & Hvb).
      cbn [Nat.add] in Eka, Ekb. rewrite Eka, Ekb.
      exists (vp_prefix a), (vp_prefix b). rewrite Hva, Hvb. repeat split; assumption.
    + intros (Hij & pi & pj & Hi & Hj & Hvi & Hvj & Ho).
      destruct (IPv6Utils.validateIPv6 pi) as [vi|] eqn:Evi; [|discriminate Hvi].
      destruct (IPv6Utils.validateIPv6 pj) as [vj|] eqn:Evj; [|discriminate Hvj].
      pose proof (validate_entries_complete 0 i batch pi vi Hi Evi) as Ha.
      pose proof (validate_entries_complete 0 j batch pj vj Hj Evj) as Hb.
      cbn [Nat.add] in Ha, Hb.
      eexists. split; [|apply in_conflicts; eexists; eexists;
        split; [exact Ha | split; [exact Hb | split; [exact Hij | split; [exact Ho | reflexivity]]]]].
      reflexivity.
  - intros c Hc. apply in_conflicts in Hc as (a & b & Ha & Hb & Hab & Ho & ->).
    cbn [indices prefixes conflict_severity conflict_overlapType fst snd].
    destruct (validate_entries_sound 0 batch a Ha) as (ka & Eka & Hna & _).
    destruct (validate_entries_sound 0 batch b Hb) as (kb & Ekb & Hnb & _).
    cbn [Nat.add] in Eka, Ekb. rewrite Eka, Ekb.
    destruct (overlap_found _ _ Ho) as (S1 & S2 & Hs & Ht).
    repeat split; assumption.
  - rewrite conflicts_of_batch. unfold comparisons.
    pose proof (valid_prefixes_sorted batch) as Hs.
    set (vps := fst (validate_entries 0 batch)) in *. clearbody vps.
    assert (Hnd : NoDup (map (fun p : ValidPrefix * ValidPrefix =>
                                (vp_index (fst p), vp_index (snd p))) (pairs vps))).
    { rewrite <- pairs_map. now apply NoDup_pairs. }
    induction (pairs vps) as [|p l IH]; [constructor|].
    cbn [map flat_map] in Hnd |- *. inversion Hnd as [|x m Hx Hm]; subst.
    rewrite map_app. unfold conflict_of at 1, compare_pair at 1 2 3 4 5 6 7.
    cbn [first second outcome].
    destruct (truthy _); cbn [map app indices]; [|now apply IH].
    constructor; [|now apply IH].
    intros Hin. apply Hx. apply in_map_iff in Hin as (c & Ec & Hc).
    apply in_flat_map in Hc as (cmp & Hcmp & Hc).
    apply in_map_iff in Hcmp as (q & <- & Hq).
    unfold conflict_of, compare_pair in Hc. cbn [first second outcome] in Hc.
    destruct (truthy _); [|contradiction]. destruct Hc as [<-|[]].
    cbn [indices] in Ec. rewrite <- Ec. apply in_map_iff. now exists q.
Qed.

Lemma validate_entries_invalid (i : nat) (ps : list string) :
  forallb (fun e => negb (entry_valid e)) (snd (validate_entries i ps)) = true.
Proof.
  revert i. induction ps as [|p ps IH]; intros i; [reflexivity|].
  cbn [validate_entries]. specialize (IH (S i)).
  destruct (validate_entries (S i) ps) as [vs rs]. cbn [snd] in IH.
  destruct (IPv6Utils.validateIPv6 p); cbn [snd forallb]; [exact IH|].
  now rewrite IH.
Qed.

Lemma valid_entries_counted (rs : list BatchEntry) (vs : list ValidPrefix) :
  forallb (fun e => negb (entry_valid e)) rs = true ->
  List.length (filter entry_valid (rs ++ map entry_of_valid vs)) = List.length vs.
Proof.
  intros Hrs. rewrite filter_app, length_app.
  assert (E1 : filter entry_valid rs = []).
  { induction rs as [|e rs IH]; [reflexivity|].
    cbn [forallb] in Hrs. apply andb_true_iff in Hrs as [He Hrs].
    apply negb_true_iff in He. cbn [filter]. rewrite He. now apply IH. }
  assert (E2 : filter entry_valid (map entry_of_valid vs) = map entry_of_valid vs).
  { induction vs as [|v vs IH]; [reflexivity|]. cbn [map filter]. cbn. now rewrite IH. }
  now rewrite E1, E2, length_map.
Qed.

Lemma conflicts_bounded (cmps : list Comparison) :
  (List.length (flat_map conflict_of cmps) <= List.length cmps)%nat.
Proof.
  induction cmps as [|c l IH]; [reflexivity|].
  cbn [flat_map]. rewrite length_app. unfold conflict_of at 1.
  destruct (truthy _); cbn [List.length]; lia.
Qed.

(** X25.  The statistics of a batch: [total] is the number of
    prefixes, [valid] the number of valid ones, [invalid] the rest;
    [conflictCount] is the number of conflicts, at most n(n-1)/2 for n
    valid prefixes; [healthScore] is 100 - 10 * invalid - 15 * conflicts,
    or 0 when that is negative; the status is "excellent" exactly when
    nothing is invalid and nothing conflicts, and "critical" exactly
    when there is a conflict and the score is below 50. *)
Theorem batch_statistics_count (batch : list string) :
  let report := analyzeBatch batch in
  let st := statistics report in
  let n := valid_count batch in
  total st = Z.of_nat (List.length batch) /\
  valid st = Z.of_nat n /\
  invalid st = Z.of_nat (List.length batch - n) /\
  conflictCount st = Z.of_nat (List.length (conflicts report)) /\
  conflictCount st <= Z.of_nat (n * (n - 1) / 2) /\
  healthScore st = Z.max 0 (100 - 10 * invalid st - 15 * conflictCount st) /\
  0 <= healthScore st <= 100 /\
  (status report = "excellent" <-> invalid st = 0 /\ conflictCount st = 0) /\
  (status report = "critical" <->
   0 < conflictCount st /\ 50 < 10 * invalid st + 15 * conflictCount st).
Proof.
  intros report st n. subst report st n. unfold valid_count, analyzeBatch.
  pose proof (validate_entries_perm 0 batch) as HP.
  pose proof (validate_entries_invalid 0 batch) as Hinv.
  pose proof (validate_entries_indices 0 batch) as Hidx.
  destruct (validate_entries 0 batch) as [vs rs]. cbn [fst snd] in *.
  cbn [statistics status conflicts].
  set (cs := flat_map conflict_of (comparisons vs)).
  assert (Ef : filter (fun k => valid_at batch (k - 0)) (seq 0 (List.length batch)) =
               filter (valid_at batch) (seq 0 (List.length batch))).
  { apply filter_ext. intros k. now rewrite Nat.sub_0_r. }
  rewrite Ef in Hidx.
  assert (En : List.length vs =
               List.length (filter (valid_at batch) (seq 0 (List.length batch)))).
  { now rewrite <- Hidx, length_map. }
  apply Permutation_length in HP. rewrite entries_from_length in HP.
  assert (Hle : (List.length vs <= List.length batch)%nat).
  { rewrite <- HP, length_app, length_map. lia. }
  assert (Hc : (List.length cs <= List.length vs * (List.length vs - 1) / 2)%nat).
  { subst cs. rewrite <- (pairs_length vs).
    etransitivity; [apply conflicts_bounded|]. unfold comparisons. now rewrite length_map. }
  unfold generateBatchStatistics, summary_status.
  cbn [total valid invalid conflictCount healthScore].
  rewrite (valid_entries_counted rs vs Hinv), HP, <- En.
  set (N := List.length batch) in *. set (M := List.length vs) in *.
  set (C := List.length cs) in *.
  rewrite !Z.gtb_ltb.
  split; [reflexivity|]. split; [reflexivity|]. split; [lia|]. split; [reflexivity|].
  split; [lia|].
  destruct (Z.ltb_spec 0 (Z.of_nat N)) as [Hpos|Hzero].
  - split; [f_equal; lia|]. split; [lia|].
    destruct (Z.ltb_spec 0 (Z.of_nat C)) as [Hcpos|Hczero].
    + destruct (Z.ltb_spec (Z.max 0 (100 - (Z.of_nat N - Z.of_nat M) * 10 - Z.of_nat C * 15)) 50);
        [|destruct (Z.ltb_spec
             (Z.max 0 (100 - (Z.of_nat N - Z.of_nat M) * 10 - Z.of_nat C * 15)) 75)];
        (split; split; [discriminate | lia | intros E; first [discriminate E | lia]
                       | first [lia | intros; reflexivity]]).
    + destruct (Z.ltb_spec 0 (Z.of_nat N - Z.of_nat M));
        (split; split; [intros E; first [discriminate E | lia] | first [lia | intros; reflexivity]
                       | discriminate | lia]).
  - assert (EN : N = 0%nat) by lia. assert (EM : M = 0%nat) by lia.
    assert (EC : C = 0%nat) by (rewrite EM in Hc; cbn in Hc; lia).
    replace (Z.of_nat N) with 0 by lia. replace (Z.of_nat M) with 0 by lia.
    replace (Z.of_nat C) with 0 by lia. cbn.
    split; [reflexivity|]. split; [lia|].
    split; split; [lia | reflexivity | discriminate | lia].
Qed.

End BatchFurther.

(** ** The comparisons of a batch *)

Section BatchCalls.
Import JS OverlapEngine.

Lemma in_pairs_members {A} (l : list A) (a b : A) :
  In (a, b) (pairs l) -> In a l /\ In b l.
Proof.
  induction l as [|x l IH]; cbn [pairs]; [intros []|].
  rewrite in_app_iff, in_map_iff. cbn [In]. intros [(y & E & Hy)|H].
  - injection E as <- <-. tauto.
  - destruct (IH H). tauto.
Qed.

(** The calls of the nested loops, one by one. *)
Lemma batch_calls (prefixes : list string) :
  map call_of (batch_comparisons prefixes) =
  map (check_at prefixes)
    (pairs (filter (valid_at prefixes) (seq 0 (List.length prefixes)))).
Proof.
  rewrite <- compared_indices_pairs. unfold batch_comparisons, comparisons.
  rewrite !map_map. apply map_ext_in. intros [a b] Hin.
  apply in_pairs_members in Hin as [Ha Hb].
  destruct (validate_entries_sound 0 prefixes a Ha) as (ka & Eka & Hna & _).
  destruct (validate_entries_sound 0 prefixes b Hb) as (kb & Ekb & Hnb & _).
  cbn [Nat.add] in Eka, Ekb.
  unfold call_of, check_at, compare_pair, compared_indices.
  cbn [first second outcome fst snd]. rewrite Eka, Ekb.
  rewrite (nth_error_nth prefixes ka EmptyString Hna),
          (nth_error_nth prefixes kb EmptyString Hnb).
  reflexivity.
Qed.

(** C8.  Every prefix of a batch is validated by itself and has its
    entry at its own index in the report, valid or not; the nested loops
    call [checkOverlapAdvanced] on the prefixes at every pair of indices
    [i < j] of valid prefixes, once each, C(n,2) calls in all, and on
    nothing else, whatever the invalid prefixes are; the conflicts of the
    report are the pairs on which that call answers "overlap". *)
Theorem batch_continues_past_invalid (prefixes : list string) :
  let report := analyzeBatch prefixes in
  let validIndices := filter (valid_at prefixes) (seq 0 (List.length prefixes)) in
  let n := List.length validIndices in
  List.length (results report) = List.length prefixes /\
  (forall i p, nth_error prefixes i = Some p ->
     exists e, nth_error (results report) i = Some e /\
       entry_index e = i /\ entry_prefix e = p /\
       entry_valid e = IPv6Utils.valid (IPv6Utils.validateIPv6 p)) /\
  map call_of (batch_comparisons prefixes) = map (check_at prefixes) (pairs validIndices) /\
  (forall i j, In (i, j) (pairs validIndices) <->
     (i < j)%nat /\ valid_at prefixes i = true /\ valid_at prefixes j = true) /\
  NoDup (pairs validIndices) /\
  List.length (batch_comparisons prefixes) = (n * (n - 1) / 2)%nat /\
  conflicts report = flat_map conflict_of (batch_comparisons prefixes) /\
  (forall i j, In (i, j) (map indices (conflicts report)) <->
     (i < j)%nat /\ valid_at prefixes i = true /\ valid_at prefixes j = true /\
     result_hasOverlap
       (checkOverlapAdvanced (nth i prefixes EmptyString) (nth j prefixes EmptyString)) =
     Some true).
Proof.
  intros report validIndices n. subst report.
  rewrite analyzeBatch_results, entries_from_length.
  split; [reflexivity|]. split.
  { intros i p H. exists (entry_for i p). rewrite (entries_from_nth 0 i prefixes p H).
    split; [reflexivity|].
    now rewrite entry_for_index, entry_for_prefix, entry_for_valid. }
  split; [apply batch_calls|].
  pose proof (filter_seq_sorted (valid_at prefixes) 0 (List.length prefixes)) as Hs.
  fold validIndices in Hs.
  assert (Hpairs : forall i j, In (i, j) (pairs validIndices) <->
            (i < j)%nat /\ valid_at prefixes i = true /\ valid_at prefixes j = true).
  { intros i j. unfold validIndices in *. rewrite (in_pairs _ i j Hs), !filter_In, !in_seq.
    split.
    - tauto.
    - intros (Hij & Hi & Hj). pose proof (valid_at_bound _ _ Hi).
      pose proof (valid_at_bound _ _ Hj). repeat split; try assumption; lia. }
  split; [exact Hpairs|].
  split; [now apply NoDup_pairs|]. split.
  { rewrite <- (length_map compared_indices), compared_indices_pairs.
    apply pairs_length. }
  split.
  { unfold analyzeBatch, batch_comparisons.
    destruct (validate_entries 0 prefixes) as [validPrefixes invalid]. reflexivity. }
  intros i j. rewrite in_map_iff. split.
  - intros (c & Ei & Hc). apply in_conflicts in Hc as (a & b & Ha & Hb & Hab & Ho & ->).
    cbn [indices] in Ei. injection Ei as <- <-.
    destruct (validate_entries_sound 0 prefixes a Ha) as (ka & Eka & Hna & Hva).
    destruct (validate_entries_sound 0 prefixes b Hb) as (kb & Ekb & Hnb & Hvb).
    cbn [Nat.add] in Eka, Ekb. rewrite Eka, Ekb in *.
    rewrite (nth_error_nth prefixes ka EmptyString Hna),
            (nth_error_nth prefixes kb EmptyString Hnb).
    unfold valid_at. rewrite Hna, Hnb, Hva, Hvb. repeat split; assumption.
  - intros (Hij & Hi & Hj & Ho). unfold valid_at in Hi, Hj.
    destruct (nth_error prefixes i) as [pi|] eqn:Eni; [|discriminate Hi].
    destruct (nth_error prefixes j) as [pj|] eqn:Enj; [|discriminate Hj].
    rewrite (nth_error_nth prefixes i EmptyString Eni),
            (nth_error_nth prefixes j EmptyString Enj) in Ho.
    destruct (IPv6Utils.validateIPv6 pi) as [vi|] eqn:Evi; [|discriminate Hi].
    destruct (IPv6Utils.validateIPv6 pj) as [vj|] eqn:Evj; [|discriminate Hj].
    pose proof (validate_entries_complete 0 i prefixes pi vi Eni Evi) as Ha.
    pose proof (validate_entries_complete 0 j prefixes pj vj Enj Evj) as Hb.
    cbn [Nat.add] in Ha, Hb.
    eexists. split; [|apply in_conflicts; eexists; eexists;
      split; [exact Ha | split; [exact Hb | split; [exact Hij | split; [exact Ho | reflexivity]]]]].
    reflexivity.
Qed.

End BatchCalls.

(** ** The recommendations and the suggestion that is shown *)

Section Recommendations.
Import JS OverlapEngine.

Lemma find_app_None {A} (f : A -> bool) (l l' : list A) :
  find f l = None -> find f (l ++ l') = find f l'.
Proof.
  induction l as [|x l IH]; [reflexivity|]. cbn [find app].
  destruct (f x); [discriminate | exact IH].
Qed.

Lemma validateAndGetNetworkInfo_original (cidr : string) (n : Network) :
  validateAndGetNetworkInfo cidr = Some n -> original n = cidr.
Proof.
  unfold validateAndGetNetworkInfo. destruct (negb _); [discriminate|].
  destruct (IPv6Utils.validateIPv6 cidr); [|discriminate].
  destruct (IPv6Utils.getNetworkInfo cidr); [|discriminate].
  now intros [= <-].
Qed.

Lemma checked_networks (cidr1 cidr2 c1 c2 : string) (n1 n2 : Network) (a : Analysis) :
  checkOverlapAdvanced cidr1 cidr2 = Checked c1 c2 n1 n2 a ->
  original n1 = cidr1 /\ original n2 = cidr2 /\ a = analyzeOverlap n1 n2.
Proof.
  unfold checkOverlapAdvanced. destruct (_ || _)%bool; [discriminate|].
  destruct (validateAndGetNetworkInfo cidr1) as [m1|] eqn:E1; [|discriminate].
  destruct (validateAndGetNetworkInfo cidr2) as [m2|] eqn:E2; [|discriminate].
  intros [= <- <- <- <- <-].
  repeat split; now apply validateAndGetNetworkInfo_original.
Qed.

(** The recommendations before the suggestion have none. *)
Lemma contextual_suggestion (recs : list Recommendation) (a : Analysis) (n1 n2 : Network) :
  find OverlapChecker.has_suggestion recs = None ->
  option_map rec_suggestion
    (find OverlapChecker.has_suggestion (addContextualRecommendations recs a n1 n2)) =
  if hasOverlap a then
    match generateSuggestion (original n2) (original n1) with
    | Some s => if is_empty s then None else Some (Some s)
    | None => None
    end
  else None.
Proof.
  intros Hnone. unfold addContextualRecommendations.
  set (r1 := if (_ && _)%bool then _ else recs).
  assert (H1 : find OverlapChecker.has_suggestion r1 = None).
  { subst r1. destruct (_ && _)%bool; [|exact Hnone]. now rewrite find_app_None. }
  set (r2 := if (_ || _)%bool then _ else r1).
  assert (H2 : find OverlapChecker.has_suggestion r2 = None).
  { subst r2. destruct (_ || _)%bool; [|exact H1]. now rewrite find_app_None. }
  destruct (hasOverlap a); [|now rewrite H2].
  destruct (generateSuggestion (original n2) (original n1)) as [s|]; [|now rewrite H2].
  destruct (is_empty s) eqn:Es; [now rewrite H2|].
  rewrite find_app_None by exact H2. cbn [find]. unfold OverlapChecker.has_suggestion at 1.
  cbn [rec_suggestion]. now rewrite Es.
Qed.

Lemma find_suggestion (a : Analysis) (n1 n2 : Network) :
  option_map rec_suggestion
    (find OverlapChecker.has_suggestion (generateRecommendations a n1 n2)) =
  if hasOverlap a then
    match generateSuggestion (original n2) (original n1) with
    | Some s => if is_empty s then None else Some (Some s)
    | None => None
    end
  else None.
Proof.
  unfold generateRecommendations. destruct (hasOverlap a) eqn:Ho; cbn [negb].
  - rewrite contextual_suggestion, Ho; [reflexivity|].
    repeat match goal with |- context [if ?c then _ else _] => destruct c end; reflexivity.
  - now destruct (type a).
Qed.

(** The type and the severity that the classifier gives together. *)
Lemma type_with_severity (n1 n2 : Network) :
  let a := analyzeOverlap n1 n2 in
  (hasOverlap a = true /\
   ((type a = IDENTICAL /\ severity a = CRITICAL) \/
    ((type a = FIRST_CONTAINS_SECOND \/ type a = SECOND_CONTAINS_FIRST) /\ severity a = HIGH) \/
    (type a = PARTIAL /\ severity a = MEDIUM))) \/
  (hasOverlap a = false /\ (type a = ADJACENT \/ type a = NO_OVERLAP)).
Proof.
  intros a. subst a. destruct (hasOverlap (analyzeOverlap n1 n2)) eqn:Ho.
  - left. split; [reflexivity|]. rewrite (analyzeOverlap_overlapping n1 n2 Ho).
    pose proof (analyzeOverlapDetails_type_severity n1 n2
      (networkBigInt n1) (broadcastBigInt n1) (networkBigInt n2) (broadcastBigInt n2)) as E.
    cbv zeta in E.
    repeat match type of E with context [if ?c then _ else _] => destruct c end;
      injection E as -> ->; tauto.
  - right. split; [reflexivity|]. rewrite (analyzeOverlap_disjoint n1 n2 Ho).
    apply analyzeNoOverlap_type.
Qed.

(** X26.  The recommendations of a classification are never empty, and
    the first one tells the outcome: an error of critical priority for
    identical blocks, a warning of high priority for a containment, a
    warning of medium priority for a partial overlap, a success
    otherwise.  Without overlap nothing follows but the note on
    adjacent blocks; with overlap, the only recommendation that carries
    a suggestion carries what [generateSuggestion] returns for the
    first block as the anchor. *)
Theorem recommendations_follow_the_outcome (n1 n2 : Network) :
  let a := analyzeOverlap n1 n2 in
  let recs := generateRecommendations a n1 n2 in
  exists (first : Recommendation) (rest : list Recommendation),
    recs = first :: rest /\
    rec_suggestion first = None /\
    (rec_type first, rec_priority first) =
      match type a with
      | IDENTICAL => ("error", "critical")
      | FIRST_CONTAINS_SECOND | SECOND_CONTAINS_FIRST => ("warning", "high")
      | PARTIAL => ("warning", "medium")
      | ADJACENT | NO_OVERLAP => ("success", "low")
      end /\
    (hasOverlap a = false ->
     rest = match type a with ADJACENT => [recommend "info" "low" "low"] | _ => [] end) /\
    (hasOverlap a = true ->
     forall r, In r rest -> rec_suggestion r <> None ->
       rec_suggestion r = generateSuggestion (original n2) (original n1)).
Proof.
  intros a recs. subst recs. unfold generateRecommendations.
  destruct (type_with_severity n1 n2) as [[Ho Hc]|[Ho Hc]]; fold a in Ho, Hc; rewrite Ho;
    cbn [negb].
  - set (first :=
      if level (severity a) =? 4 then [recommend "error" "critical" "critical"]
      else if level (severity a) =? 3 then [recommend "warning" "high" "high"]
      else if level (severity a) =? 2 then [recommend "warning" "medium" "medium"]
      else []).
    assert (Hfirst : exists f, first = [f] /\ rec_suggestion f = None /\
              (rec_type f, rec_priority f) =
                match type a with
                | IDENTICAL => ("error", "critical")
                | FIRST_CONTAINS_SECOND | SECOND_CONTAINS_FIRST => ("warning", "high")
                | PARTIAL => ("warning", "medium")
                | ADJACENT | NO_OVERLAP => ("success", "low")
                end).
    { subst first. destruct Hc as [[-> ->]|[[[-> | ->] ->]|[-> ->]]];
        cbn; eexists; repeat split. }
    destruct Hfirst as (f & -> & Hf1 & Hf2).
    unfold addContextualRecommendations. rewrite Ho.
    set (r1 := if (_ && _)%bool then _ else [f]).
    set (r2 := if (_ || _)%bool then _ else r1).
    assert (H2 : exists rest, r2 = f :: rest /\ forall r, In r rest -> rec_suggestion r = None).
    { subst r2 r1. destruct (_ && _)%bool; destruct (_ || _)%bool; cbn [app];
        eexists; (split; [reflexivity|]); cbn; intros r Hr;
        repeat (destruct Hr as [<-|Hr]; [reflexivity|]); contradiction. }
    destruct H2 as (rest & -> & Hrest).
    destruct (generateSuggestion (original n2) (original n1)) as [s|].
    + destruct (is_empty s).
      * exists f, rest. repeat split; try assumption; try discriminate.
        intros _ r Hr Hs. now rewrite (Hrest r Hr) in Hs.
      * exists f. eexists. cbn [app]. split; [reflexivity|]. repeat split; try assumption;
          try discriminate.
        intros _ r Hr Hs. apply in_app_or in Hr as [Hr|[<-|[]]]; [|reflexivity].
        now rewrite (Hrest r Hr) in Hs.
    + exists f, rest. repeat split; try assumption; try discriminate.
      intros _ r Hr Hs. now rewrite (Hrest r Hr) in Hs.
  - eexists. eexists. split; [reflexivity|]. split; [reflexivity|].
    split; [destruct Hc as [-> | ->]; reflexivity|]. split; [reflexivity | discriminate].
Qed.

(** X27.  The suggestion that the checker shows after the check of a WAN
    and a LAN prefix is what [generateSuggestion] returns for the two,
    whether it is found among the recommendations of the result or
    computed anew. *)
Theorem shown_suggestion_is_generated (lanPrefix wanPrefix : string) :
  OverlapChecker.suggestion_shown lanPrefix wanPrefix
    (OverlapChecker.performOverlapCheck wanPrefix lanPrefix) =
  generateSuggestion lanPrefix wanPrefix.
Proof.
  unfold OverlapChecker.suggestion_shown, OverlapChecker.performOverlapCheck.
  destruct (checkOverlapAdvanced wanPrefix lanPrefix) as [c1 c2 n1 n2 a|] eqn:E;
    [|reflexivity].
  destruct (checked_networks _ _ _ _ _ _ _ E) as (E1 & E2 & _).
  cbn [result_recommendations].
  pose proof (find_suggestion a n1 n2) as Hf. rewrite E1, E2 in Hf.
  destruct (find OverlapChecker.has_suggestion (generateRecommendations a n1 n2)) as [r|];
    cbn [option_map] in Hf.
  - destruct (hasOverlap a); [|discriminate Hf].
    destruct (generateSuggestion lanPrefix wanPrefix) as [s|]; [|discriminate Hf].
    destruct (is_empty s) eqn:Es; [discriminate Hf|].
    injection Hf as ->. now rewrite Es.
  - reflexivity.
Qed.

End Recommendations.

Section NetworkTexts.
Import JS IPv6Utils OverlapEngine.

Lemma ipv6ToBigInt_bigIntToIPv6 (v : Z) :
  0 <= v < 2 ^ 128 -> ipv6ToBigInt (bigIntToIPv6 v) = Some v.
Proof.
  intros Hv. destruct (bigIntToIPv6_groups v Hv) as (groups & Hg & E & _ & Hval).
  now rewrite E, (ipv6ToBigInt_expanded groups Hg), Hval.
Qed.

(** The texts of a network information are made from its two integers. *)
Lemma getNetworkInfo_texts (cidr : string) (i : NetworkInfo) :
  getNetworkInfo cidr = Some i ->
  network i = bigIntToIPv6 (IPv6Utils.networkBigInt i) /\
  broadcast i = bigIntToIPv6 (IPv6Utils.broadcastBigInt i) /\
  compressedNetwork i = compressAddress (bigIntToIPv6 (IPv6Utils.networkBigInt i)) /\
  compressedBroadcast i = compressAddress (bigIntToIPv6 (IPv6Utils.broadcastBigInt i)) /\
  hostBits i = 128 - prefixLen i /\
  totalAddresses i =
    if hostBits i >=? 64 then None else Some (toString10 (2 ^ hostBits i)).
Proof.
  unfold getNetworkInfo. destruct (negb _); [discriminate|].
  destruct (ipv6ToBigInt _); [|discriminate].
  destruct (calculateNetworkMask _); [|discriminate].
  destruct (parseInt10_opt _); [|discriminate].
  intros [= <-]. cbn. rewrite Z.shiftl_1_l. repeat split.
Qed.

(** X28.  The four address texts of the network information of a plain
    CIDR text are read back as its two integers: [network] and
    [broadcast] are expanded texts of the first and the last address, the
    compressed ones denote the same two addresses, and [totalAddresses]
    of a prefix longer than 64 is the decimal text of the size.  The
    compressed network address followed by the prefix is again a plain
    CIDR text, with the same range, and it is its own such text. *)
Theorem network_texts_denote_the_block (text : string) :
  plain_cidr text = true ->
  exists info : NetworkInfo,
    getNetworkInfo text = Some info /\
    isExpanded (network info) = true /\ isExpanded (broadcast info) = true /\
    ipv6ToBigInt (network info) = Some (IPv6Utils.networkBigInt info) /\
    ipv6ToBigInt (broadcast info) = Some (IPv6Utils.broadcastBigInt info) /\
    ipv6ToBigInt (compressedNetwork info) = Some (IPv6Utils.networkBigInt info) /\
    ipv6ToBigInt (compressedBroadcast info) = Some (IPv6Utils.broadcastBigInt info) /\
    (prefixLen info > 64 ->
     totalAddresses info = Some (toString10 (2 ^ (128 - prefixLen info)))) /\
    plain_cidr (canonical_text info) = true /\
    exists again : NetworkInfo,
      getNetworkInfo (canonical_text info) = Some again /\
      prefixLen again = prefixLen info /\
      IPv6Utils.networkBigInt again = IPv6Utils.networkBigInt info /\
      IPv6Utils.broadcastBigInt again = IPv6Utils.broadcastBigInt info /\
      canonical_text again = canonical_text info.
Proof.
  intros H.
  destruct (getNetworkInfo_fields text H)
    as (info & ip & Ei & _ & Hip & Hp & Eh & _ & En & Eb).
  destruct (getNetworkInfo_texts text info Ei) as (T1 & T2 & T3 & T4 & _ & T6).
  exists info. split; [exact Ei|].
  rewrite Eh in *. set (p := prefixLen info) in *. set (h := 128 - p) in *.
  set (q := ip / 2 ^ h) in *.
  assert (Hpow : 0 < 2 ^ h) by (apply Z.pow_pos_nonneg; lia).
  assert (Htop : 2 ^ 128 = 2 ^ p * 2 ^ h).
  { unfold h. rewrite <- Z.pow_add_r by lia. f_equal. lia. }
  assert (Hq : 0 <= q < 2 ^ p).
  { unfold q. split; [apply Z.div_pos; lia | apply Z.div_lt_upper_bound; lia]. }
  assert (Hn : 0 <= IPv6Utils.networkBigInt info < 2 ^ 128) by nia.
  assert (Hb : 0 <= IPv6Utils.broadcastBigInt info < 2 ^ 128) by nia.
  destruct (bigIntToIPv6_groups _ Hn) as (gn & Hgn & Egn & _).
  destruct (bigIntToIPv6_groups _ Hb) as (gb & Hgb & Egb & _).
  split; [rewrite T1, Egn; now apply isExpanded_join|].
  split; [rewrite T2, Egb; now apply isExpanded_join|].
  split; [rewrite T1; now apply ipv6ToBigInt_bigIntToIPv6|].
  split; [rewrite T2; now apply ipv6ToBigInt_bigIntToIPv6|].
  split; [rewrite T3; now apply ipv6ToBigInt_compressed_bigIntToIPv6|].
  split; [rewrite T4; now apply ipv6ToBigInt_compressed_bigIntToIPv6|].
  split.
  { intros H64. rewrite T6. destruct (Z.geb_spec h 64); [lia | reflexivity]. }
  assert (Ecanon : canonical_text info = candidate_text (IPv6Utils.networkBigInt info) p).
  { unfold canonical_text, candidate_text. now rewrite T3. }
  destruct (candidate_text_plain _ p Hn Hp) as [Hplain _].
  destruct (candidate_network q p Hp Hq) as (again & Ea & Ep & Ean & Eab).
  fold h in Ea, Ean, Eab. rewrite <- En in Ea, Ean, Eab.
  rewrite Ecanon. split; [exact Hplain|].
  exists again. split; [exact Ea|]. split; [exact Ep|]. split; [exact Ean|].
  split; [lia|].
  destruct (getNetworkInfo_texts _ again Ea) as (_ & _ & T3' & _).
  unfold canonical_text, candidate_text. now rewrite T3', Ean, Ep.
Qed.

Lemma network_texts_denote_the_block_witness :
  exists info : NetworkInfo,
    getNetworkInfo "2001:DB8:0:0:1::7/80" = Some info /\
    isExpanded (network info) = true /\ isExpanded (broadcast info) = true /\
    ipv6ToBigInt (network info) = Some (IPv6Utils.networkBigInt info) /\
    ipv6ToBigInt (broadcast info) = Some (IPv6Utils.broadcastBigInt info) /\
    ipv6ToBigInt (compressedNetwork info) = Some (IPv6Utils.networkBigInt info) /\
    ipv6ToBigInt (compressedBroadcast info) = Some (IPv6Utils.broadcastBigInt info) /\
    (prefixLen info > 64 ->
     totalAddresses info = Some (toString10 (2 ^ (128 - prefixLen info)))) /\
    plain_cidr (canonical_text info) = true /\
    exists again : NetworkInfo,
      getNetworkInfo (canonical_text info) = Some again /\
      prefixLen again = prefixLen info /\
      IPv6Utils.networkBigInt again = IPv6Utils.networkBigInt info /\
      IPv6Utils.broadcastBigInt again = IPv6Utils.broadcastBigInt info /\
      canonical_text again = canonical_text info.
Proof. apply (network_texts_denote_the_block "2001:DB8:0:0:1::7/80"). reflexivity. Defined.

End NetworkTexts.

Section Verdict.
Import JS IPv6Utils OverlapEngine.

(** A text that has a network information passes the checks that
    [checkOverlapAdvanced] makes before it. *)
Lemma getNetworkInfo_checked (cidr : string) (i : NetworkInfo) :
  getNetworkInfo cidr = Some i ->
  is_empty cidr = false /\
  exists n : Network,
    validateAndGetNetworkInfo cidr = Some n /\ info n = i /\ original n = cidr.
Proof.
  intros E. split.
  - destruct cidr; [discriminate E | reflexivity].
  - unfold validateAndGetNetworkInfo.
    destruct (includes "/" cidr) eqn:Es.
    + cbn [negb]. unfold getNetworkInfo in E.
      destruct (validateIPv6 cidr) as [v|e] eqn:Ev; [|discriminate E].
      fold (getNetworkInfo cidr). unfold getNetworkInfo. rewrite Ev. cbn [valid negb] in E |- *.
      rewrite E. eexists. repeat split.
    + exfalso. unfold getNetworkInfo in E. destruct (negb _); [discriminate|].
      rewrite (includes_slash_absent cidr Es) in E. cbn [nth_error parseInt10_opt] in E.
      destruct (ipv6ToBigInt _); discriminate E.
Qed.

Lemma analyzeOverlap_by_bounds (n1 n2 m1 m2 : Network) :
  OverlapEngine.networkBigInt m1 = OverlapEngine.networkBigInt n1 ->
  OverlapEngine.broadcastBigInt m1 = OverlapEngine.broadcastBigInt n1 ->
  OverlapEngine.networkBigInt m2 = OverlapEngine.networkBigInt n2 ->
  OverlapEngine.broadcastBigInt m2 = OverlapEngine.broadcastBigInt n2 ->
  same_verdict (analyzeOverlap n1 n2) (analyzeOverlap m1 m2).
Proof.
  intros E1 E2 E3 E4. unfold same_verdict, analyzeOverlap. rewrite E1, E2, E3, E4.
  destruct (negb _).
  - repeat split.
  - unfold analyzeOverlapDetails, calculateOverlapPercentage. rewrite E1, E2, E3, E4.
    repeat match goal with |- context [if ?c then (_, _, _) else _] => destruct c end;
      repeat split.
Qed.

(** X29.  The result of the overlap check depends on the two texts only
    through their ranges: two pairs of texts whose network information
    has the same first and last addresses are both checked without
    error, and their analyses have the same [hasOverlap], [type],
    [severity], [confidence] and [details]. *)
Theorem verdict_depends_on_the_ranges (c1 c2 d1 d2 : string) (r1 r2 : Z * Z) :
  bounds_of c1 = Some r1 -> bounds_of d1 = Some r1 ->
  bounds_of c2 = Some r2 -> bounds_of d2 = Some r2 ->
  exists (n1 n2 m1 m2 : Network) (a b : Analysis),
    checkOverlapAdvanced c1 c2 = Checked c1 c2 n1 n2 a /\
    checkOverlapAdvanced d1 d2 = Checked d1 d2 m1 m2 b /\
    same_verdict a b.
Proof.
  unfold bounds_of. intros Hc1 Hd1 Hc2 Hd2.
  destruct (getNetworkInfo c1) as [ic1|] eqn:Ec1; [|discriminate Hc1].
  destruct (getNetworkInfo d1) as [id1|] eqn:Ed1; [|discriminate Hd1].
  destruct (getNetworkInfo c2) as [ic2|] eqn:Ec2; [|discriminate Hc2].
  destruct (getNetworkInfo d2) as [id2|] eqn:Ed2; [|discriminate Hd2].
  cbn [option_map] in *.
  destruct (getNetworkInfo_checked c1 ic1 Ec1) as (Z1 & n1 & V1 & I1 & _).
  destruct (getNetworkInfo_checked c2 ic2 Ec2) as (Z2 & n2 & V2 & I2 & _).
  destruct (getNetworkInfo_checked d1 id1 Ed1) as (Z3 & m1 & V3 & I3 & _).
  destruct (getNetworkInfo_checked d2 id2 Ed2) as (Z4 & m2 & V4 & I4 & _).
  exists n1, n2, m1, m2, (analyzeOverlap n1 n2), (analyzeOverlap m1 m2).
  unfold checkOverlapAdvanced. rewrite Z1, Z2, Z3, Z4, V1, V2, V3, V4. cbn [orb].
  split; [reflexivity|]. split; [reflexivity|].
  apply analyzeOverlap_by_bounds;
    unfold OverlapEngine.networkBigInt, OverlapEngine.broadcastBigInt;
    rewrite ?I1, ?I2, ?I3, ?I4; congruence.
Qed.

Lemma verdict_depends_on_the_ranges_witness :
  exists (n1 n2 m1 m2 : Network) (a b : Analysis),
    checkOverlapAdvanced "2001:db8::/32" "2001:db8:1::5/48" = Checked "2001:db8::/32" "2001:db8:1::5/48" n1 n2 a /\
    checkOverlapAdvanced "2001:0DB8:ffff::1/32" "2001:DB8:1:0:0:0:0:0/48" =
      Checked "2001:0DB8:ffff::1/32" "2001:DB8:1:0:0:0:0:0/48" m1 m2 b /\
    same_verdict a b.
Proof.
  apply (verdict_depends_on_the_ranges "2001:db8::/32" "2001:db8:1::5/48"
           "2001:0DB8:ffff::1/32" "2001:DB8:1:0:0:0:0:0/48"
           (42540766411282592856903984951653826560, 42540766490510755371168322545197776895)
           (42540766411283801782723599580828532736, 42540766411285010708543214210003238911));
    vm_compute; reflexivity.
Defined.
End Verdict.
